(** * nn.js: matrices over typed arrays and a feed-forward network

    A shallow embedding of [nn.js] (matrix arithmetic on [Float64Array]
    buffers, activations, softmax, cross-entropy, forward and backward
    passes, mini-batch training, JSON snapshots) and the properties the
    specification states about it.

    The embedding keeps the memory behaviour of the JavaScript code: a
    matrix is a handle on a buffer that lives in a store, every operation
    runs in a state-and-exception monad over that store, and loops write
    their results element by element. *)

From Stdlib Require Import Floats ZArith Uint63 Reals Lra Lia String Ascii.
From stdpp Require Import base list.


(** * Numbers

    JavaScript numbers, with the operations [nn.js] uses.  The code is
    embedded once, over this interface; [float] (IEEE-754 binary64, the
    type of the elements of a [Float64Array]) is the instance the program
    runs on. *)

Class Number (F : Type) := {
  (** integer literals, array lengths and loop counters used as numbers *)
  of_nat : nat -> F;
  (** the literals [1e-15] and [0.01] *)
  lit_1e_15 : F;
  lit_0_01 : F;
  (** [NaN]: also what [undefined] becomes in arithmetic, e.g. the result
      of reading a typed array past its end *)
  NaN : F;
  Infinity : F;
  fneg : F -> F;
  fadd : F -> F -> F;
  fsub : F -> F -> F;
  fmul : F -> F -> F;
  fdiv : F -> F -> F;
  (** [x > y] *)
  fgt : F -> F -> bool;
  Math_max : F -> F -> F;
  Math_min : F -> F -> F;
  Math_exp : F -> F;
  Math_log : F -> F;
  Math_tanh : F -> F;
  Math_sqrt : F -> F;
  (** [x ** y] *)
  fpow : F -> F -> F;
  (** the number a [Float64Array] holds after [JSON.stringify] wrote [x]
      and [JSON.parse] read it back: [JSON.stringify] prints [NaN] and the
      infinities as [null], which is stored as [0], and prints [-0] as [0] *)
  json_number : F -> F
}.

(** [Math.random()]: the [k]-th call returns [random_value k], a number
    in [[0,1)]; [random_floor_mul k n] is [Math.floor(u * n)] for that
    same [u], used as an array index: an integer below [n], since [u] is
    below [1]. *)
Class RandomSource (F : Type) := {
  random_value : nat -> F;
  random_floor_mul : nat -> nat -> nat;
  random_floor_mul_lt : forall k n, 0 < n -> random_floor_mul k n < n
}.

(** * The store of typed arrays and the effect monad *)

(** Errors.  [TypeError], and [SyntaxError] from [JSON.parse], are the
    exceptions the JavaScript code raises here; the other kinds are the
    ones the specification names. *)
Inductive error :=
| TypeError
| SyntaxError
| ShapeMismatch
| AddSubShapeMismatch
| MulShapeMismatch
| HadamardShapeMismatch
| BroadcastShapeMismatch
| DeserializationError
| InvalidConfig.

Definition loc := nat.

Section Store.
Context {F : Type}.

(** A [Float64Array]. *)
Definition buffer := list F.

(** The store: every [Float64Array] allocated so far, addressed by
    allocation order, and the number of calls made to [Math.random]. *)
Record world := World { heap : list buffer; draws : nat }.

(** What running a piece of code yields: a value, an exception, or no
    answer within the fuel of a loop whose bound the code does not fix. *)
Inductive outcome (A : Type) :=
| Ok (a : A) (w : world)
| Throw (e : error) (w : world)
| Timeout.

Definition M (A : Type) := world -> outcome A.

Definition ret {A} (a : A) : M A := fun w => Ok A a w.

Definition bind {A B} (m : M A) (k : A -> M B) : M B :=
  fun w => match m w with
           | Ok _ a w' => k a w'
           | Throw _ e w' => Throw B e w'
           | Timeout _ => Timeout B
           end.

Definition throw {A} (e : error) : M A := fun w => Throw A e w.
Definition timeout {A} : M A := fun _ => Timeout A.
End Store.

Arguments buffer : clear implicits.
Arguments world : clear implicits.
Arguments outcome : clear implicits.
Arguments M : clear implicits.
Arguments Ok {F A} a w.
Arguments Throw {F A} e w.
Arguments Timeout {F A}.

Notation "x <- m ;; k" := (bind m (fun x => k))
  (at level 100, m at next level, right associativity).
Notation "m ;;; k" := (bind m (fun _ => k))
  (at level 100, right associativity).

Section Memory.
Context {F : Type} {NF : Number F}.

Definition buf_get (b : buffer F) (i : nat) : F := default NaN (b !! i).

(** [new Float64Array(n)]: a fresh zero-filled buffer;
    [new Float64Array(b)]: a fresh copy. *)
Definition alloc (b : buffer F) : M F loc :=
  fun w => Ok (length (heap w)) (World (heap w ++ [b]) (draws w)).

(** [a[i]] on a typed array, used as a number: an index past the end
    reads [undefined], which is [NaN] in arithmetic and comparisons. *)
Definition load_at (l : loc) (i : nat) : M F F :=
  fun w => Ok (buf_get (default [] (heap w !! l)) i) w.

(** [a[i] = v] on a typed array: a write past the end is ignored. *)
Definition store_at (l : loc) (i : nat) (v : F) : M F unit :=
  fun w => Ok tt (World (alter (fun b => <[i := v]> b) l (heap w)) (draws w)).

(** [a.length] *)
Definition length_at (l : loc) : M F nat :=
  fun w => Ok (length (default [] (heap w !! l))) w.

(** [for (let i = i0; i < i0 + n; i++) body], the loop's local
    variables threaded as [s]. *)
Fixpoint for_loop {S} (n i : nat) (body : nat -> S -> M F S) (s : S) : M F S :=
  match n with
  | O => ret s
  | Datatypes.S n' => s' <- body i s ;; for_loop n' (Datatypes.S i) body s'
  end.

(** [for (let i = n - 1; i >= 0; i--) body] *)
Fixpoint for_down {S} (n : nat) (body : nat -> S -> M F S) (s : S) : M F S :=
  match n with
  | O => ret s
  | Datatypes.S n' => s' <- body n' s ;; for_down n' body s'
  end.

(** [for (const x of xs) body] *)
Fixpoint for_of {A S} (xs : list A) (body : A -> S -> M F S) (s : S) : M F S :=
  match xs with
  | [] => ret s
  | x :: xs' => s' <- body x s ;; for_of xs' body s'
  end.

(** [xs.map(f)] for an effectful [f]. *)
Fixpoint map_M {A B} (f : A -> M F B) (xs : list A) : M F (list B) :=
  match xs with
  | [] => ret []
  | x :: xs' => y <- f x ;; ys <- map_M f xs' ;; ret (y :: ys)
  end.

(** [xs[i]] followed by a property access or a method call:
    [undefined] there raises [TypeError]. *)
Definition defined {A} (o : option A) : M F A :=
  match o with Some a => ret a | None => throw TypeError end.
End Memory.

(** * Matrix *)

Module Matrix.

(** A [Matrix] object: [rows], [cols] and a reference to its
    [Float64Array].  The three fields are assigned by the constructor
    only; the buffer is what the operations read and write. *)
Record t := mk { rows : nat; cols : nat; data : loc }.

(** The record [toJSON] makes and [fromJSON] reads: [rows] and [cols]
    that are natural numbers, and an array of numbers as [data], of
    any length.  A record without one of the three, or with a [rows]
    that is no natural number (for a negative [rows * cols] the
    constructor raises [RangeError]), is not of this type. *)
Record json {F : Type} := mk_json { j_rows : nat; j_cols : nat; j_data : list F }.
Arguments json : clear implicits.

(** The constructor's optional third argument: absent, a plain array,
    or a [Float64Array]. *)
Inductive init {F : Type} :=
| NoData
| ArrayData (xs : list F)
| TypedData (l : loc).
Arguments init : clear implicits.

Section Ops.
Context {F : Type} {NF : Number F}.

Definition zero : F := of_nat 0.

(** [constructor(rows, cols, data)]: a typed array is adopted as it
    is; otherwise a buffer of [rows * cols] zeros is allocated, and
    the elements of a plain array are copied into it one by one. *)
Definition new (rows cols : nat) (d : init F) : M F t :=
  l <- match d with
       | TypedData l => ret l
       | _ => alloc (replicate (rows * cols) zero)
       end ;;
  match d with
  | ArrayData xs =>
      for_loop (length xs) 0 (fun i _ => store_at l i (default NaN (xs !! i))) tt
  | _ => ret tt
  end ;;;
  ret (mk rows cols l).

Definition zeros (rows cols : nat) : M F t := new rows cols NoData.

Definition fromArray (arr : list F) : M F t := new (length arr) 1 (ArrayData arr).

(** [fromRows(rows)]: the number of columns is the length of the first
    row, so an empty [rows] raises at [rows[0].length]; an element a
    shorter row does not have is [undefined], stored as [NaN]. *)
Definition fromRows (rows : list (list F)) : M F t :=
  let r := length rows in
  row0 <- defined (rows !! 0) ;;
  let c := length row0 in
  m <- new r c NoData ;;
  for_loop r 0 (fun i _ =>
    for_loop c 0 (fun j _ =>
      row <- defined (rows !! i) ;;
      store_at (data m) (i * c + j) (default NaN (row !! j))) tt) tt ;;;
  ret m.

Definition get (this : t) (i j : nat) : M F F :=
  load_at (data this) (i * cols this + j).

Definition set (this : t) (i j : nat) (v : F) : M F unit :=
  store_at (data this) (i * cols this + j) v.

(** [add(other)]; [other] may be [undefined] (a missing element of
    an array of matrices): reading [other.data] then raises. *)
Definition add (this : t) (other : option t) : M F t :=
  out <- new (rows this) (cols this) NoData ;;
  n <- length_at (data this) ;;
  for_loop n 0 (fun i _ =>
    x <- load_at (data this) i ;;
    o <- defined other ;;
    y <- load_at (data o) i ;;
    store_at (data out) i (fadd x y)) tt ;;;
  ret out.

Definition sub (this other : t) : M F t :=
  out <- new (rows this) (cols this) NoData ;;
  n <- length_at (data this) ;;
  for_loop n 0 (fun i _ =>
    x <- load_at (data this) i ;;
    y <- load_at (data other) i ;;
    store_at (data out) i (fsub x y)) tt ;;;
  ret out.

(** [this (m x n) * other (n x p) -> (m x p)] *)
Definition mul (this other : t) : M F t :=
  out <- new (rows this) (cols other) NoData ;;
  for_loop (rows this) 0 (fun i _ =>
    for_loop (cols other) 0 (fun j _ =>
      sum <- for_loop (cols this) 0 (fun k sum =>
               x <- load_at (data this) (i * cols this + k) ;;
               y <- load_at (data other) (k * cols other + j) ;;
               ret (fadd sum (fmul x y))) zero ;;
      store_at (data out) (i * cols other + j) sum) tt) tt ;;;
  ret out.

Definition hadamard (this other : t) : M F t :=
  out <- new (rows this) (cols this) NoData ;;
  n <- length_at (data this) ;;
  for_loop n 0 (fun i _ =>
    x <- load_at (data this) i ;;
    y <- load_at (data other) i ;;
    store_at (data out) i (fmul x y)) tt ;;;
  ret out.

Definition scale (this : t) (s : F) : M F t :=
  out <- new (rows this) (cols this) NoData ;;
  n <- length_at (data this) ;;
  for_loop n 0 (fun i _ =>
    x <- load_at (data this) i ;;
    store_at (data out) i (fmul x s)) tt ;;;
  ret out.

Definition transpose (this : t) : M F t :=
  out <- new (cols this) (rows this) NoData ;;
  for_loop (rows this) 0 (fun i _ =>
    for_loop (cols this) 0 (fun j _ =>
      x <- load_at (data this) (i * cols this + j) ;;
      store_at (data out) (j * rows this + i) x) tt) tt ;;;
  ret out.

(** [map(fn)]: [fn] is called with the element and its index; an
    [undefined] callback raises at the first call. *)
Definition map (this : t) (fn : option (F -> nat -> F)) : M F t :=
  out <- new (rows this) (cols this) NoData ;;
  n <- length_at (data this) ;;
  for_loop n 0 (fun i _ =>
    f <- defined fn ;;
    x <- load_at (data this) i ;;
    store_at (data out) i (f x i)) tt ;;;
  ret out.

(** [addVec(vec)]: adds the column vector [vec] to each column. *)
Definition addVec (this vec : t) : M F t :=
  out <- new (rows this) (cols this) NoData ;;
  for_loop (rows this) 0 (fun i _ =>
    for_loop (cols this) 0 (fun j _ =>
      x <- load_at (data this) (i * cols this + j) ;;
      y <- load_at (data vec) i ;;
      store_at (data out) (i * cols this + j) (fadd x y)) tt) tt ;;;
  ret out.

(** [Array.from(this.data)] *)
Definition toArray (this : t) : M F (list F) :=
  fun w => Ok (default [] (heap w !! data this)) w.

Definition toJSON (this : t) : M F (json F) :=
  xs <- toArray this ;;
  ret (mk_json F (rows this) (cols this) xs).

Definition fromJSON (j : json F) : M F t :=
  new (j_rows j) (j_cols j) (ArrayData (j_data j)).

(** [clone()]: [new Float64Array(this.data)] copies the buffer, and
    the constructor adopts the copy. *)
Definition clone (this : t) : M F t :=
  xs <- toArray this ;;
  l <- alloc xs ;;
  new (rows this) (cols this) (TypedData l).
End Ops.
End Matrix.

(** * Initialisation, activations, softmax and loss *)

Section Functions.
Context {F : Type} {NF : Number F} {RS : RandomSource F}.

(** [Math.random()] *)
Definition Math_random : M F F :=
  fun w => Ok (random_value (draws w)) (World (heap w) (S (draws w))).

(** [Math.floor(Math.random() * n)] *)
Definition Math_random_floor_mul (n : nat) : M F nat :=
  fun w => Ok (random_floor_mul (draws w) n) (World (heap w) (S (draws w))).

(** Xavier initialisation. *)
Definition xavierInit (rows cols : nat) : M F Matrix.t :=
  let limit := Math_sqrt (fdiv (of_nat 6) (of_nat (rows + cols))) in
  m <- Matrix.new rows cols Matrix.NoData ;;
  n <- length_at (Matrix.data m) ;;
  for_loop n 0 (fun i _ =>
    u <- Math_random ;;
    store_at (Matrix.data m) i (fmul (fsub (fmul u (of_nat 2)) (of_nat 1)) limit)) tt ;;;
  ret m.

(** An entry of the [activations] table: the properties [fn] and
    [dfn] of the object found under a name.  [Matrix.map] calls them
    with the element and its index; they use the element only. *)
Record activation := mk_activation {
  fn : option (F -> nat -> F);
  dfn : option (F -> nat -> F)
}.

Definition relu_fn (x : F) : F := Math_max (of_nat 0) x.
Definition relu_dfn (x : F) : F := if fgt x (of_nat 0) then of_nat 1 else of_nat 0.

Definition sigmoid_fn (x : F) : F :=
  fdiv (of_nat 1)
    (fadd (of_nat 1)
       (Math_exp (fneg (Math_min (Math_max x (fneg (of_nat 500))) (of_nat 500))))).
Definition sigmoid_dfn (x : F) : F :=
  let s := fdiv (of_nat 1)
             (fadd (of_nat 1)
                (Math_exp (fneg (Math_min (Math_max x (fneg (of_nat 500))) (of_nat 500))))) in
  fmul s (fsub (of_nat 1) s).

Definition tanh_fn (x : F) : F := Math_tanh x.
Definition tanh_dfn (x : F) : F := fsub (of_nat 1) (fpow (Math_tanh x) (of_nat 2)).

(** The names every object literal inherits from [Object.prototype]:
    looking one up in [activations] finds an object that has neither
    [fn] nor [dfn]. *)
Definition inherited_names : list string :=
  ["constructor"; "hasOwnProperty"; "isPrototypeOf"; "propertyIsEnumerable";
   "toLocaleString"; "toString"; "valueOf"; "__proto__";
   "__defineGetter__"; "__defineSetter__"; "__lookupGetter__";
   "__lookupSetter__"]%string.

(** [activations[name]]; [None] is [undefined]. *)
Definition activations (name : string) : option activation :=
  if String.eqb name "relu" then
    Some (mk_activation (Some (fun x _ => relu_fn x)) (Some (fun x _ => relu_dfn x)))
  else if String.eqb name "sigmoid" then
    Some (mk_activation (Some (fun x _ => sigmoid_fn x)) (Some (fun x _ => sigmoid_dfn x)))
  else if String.eqb name "tanh" then
    Some (mk_activation (Some (fun x _ => tanh_fn x)) (Some (fun x _ => tanh_dfn x)))
  else if existsb (String.eqb name) inherited_names then
    Some (mk_activation None None)
  else None.

(** Softmax on a column vector. *)
Definition softmax (vec : Matrix.t) : M F Matrix.t :=
  out <- Matrix.new (Matrix.rows vec) 1 Matrix.NoData ;;
  maxVal <- for_loop (Matrix.rows vec) 0 (fun i maxVal =>
              x <- load_at (Matrix.data vec) i ;;
              ret (if fgt x maxVal then x else maxVal)) (fneg Infinity) ;;
  sum <- for_loop (Matrix.rows vec) 0 (fun i sum =>
           x <- load_at (Matrix.data vec) i ;;
           store_at (Matrix.data out) i (Math_exp (fsub x maxVal)) ;;;
           e <- load_at (Matrix.data out) i ;;
           ret (fadd sum e)) (of_nat 0) ;;
  for_loop (Matrix.rows vec) 0 (fun i _ =>
    e <- load_at (Matrix.data out) i ;;
    store_at (Matrix.data out) i (fdiv e sum)) tt ;;;
  ret out.

(** Cross-entropy loss of a softmax output against a target. *)
Definition crossEntropyLoss (predicted target : Matrix.t) : M F F :=
  for_loop (Matrix.rows target) 0 (fun i loss =>
    t <- load_at (Matrix.data target) i ;;
    if fgt t (of_nat 0) then
      t' <- load_at (Matrix.data target) i ;;
      p <- load_at (Matrix.data predicted) i ;;
      ret (fsub loss (fmul t' (Math_log (Math_max p lit_1e_15))))
    else ret loss) (of_nat 0).
End Functions.

(** * Network *)

(** [arr[i] = v] on a plain array: [None] is a hole; writing past the
    end extends the array. *)
Definition array_set {A} (xs : list (option A)) (i : nat) (v : A) : list (option A) :=
  if i <? length xs then <[i := Some v]> xs
  else xs ++ replicate (i - length xs) None ++ [Some v].

(** [arr[i]] on a plain array that may have holes. *)
Definition array_get {A} (xs : list (option A)) (i : nat) : option A :=
  mjoin (xs !! i).

Module Network.

(** The fields of a [Network] object. *)
Record t := mk {
  layerSizes : list nat;
  hiddenActivation : string;
  weights : list Matrix.t;
  biases : list Matrix.t
}.

(** What [forward] returns. *)
Record trace := mk_trace { zs : list Matrix.t; as_ : list Matrix.t }.

(** What [backward] returns. *)
Record gradients {F : Type} := mk_gradients {
  dw : list (option Matrix.t);
  db : list (option Matrix.t);
  loss : F
}.
Arguments gradients : clear implicits.

Record sample := mk_sample { input : Matrix.t; target : Matrix.t }.

(** An entry of the history [train] returns. *)
Record epoch_stat {F : Type} := mk_epoch_stat { epoch : nat; avg_loss : F; accuracy : F }.
Arguments epoch_stat : clear implicits.

(** The options of [train]; [None] is a property left out, which takes
    its default. *)
Record options {F : Type} := mk_options {
  lr : option F;
  epochs : option nat;
  batchSize : option nat;
  shuffle : option bool;
  onEpoch : option (epoch_stat F -> M F unit)
}.
Arguments options : clear implicits.

(** The object [save] serialises and [load] reads; [None] is a
    missing property.  The sizes are natural numbers and the records
    those of [Matrix.json]: an object with properties of other kinds
    is not of this type. *)
Record snapshot {F : Type} := mk_snapshot {
  s_layerSizes : option (list nat);
  s_hiddenActivation : option string;
  s_weights : option (list (Matrix.json F));
  s_biases : option (list (Matrix.json F))
}.
Arguments snapshot : clear implicits.

(** JSON text, by what [JSON.parse] makes of it: the object of a
    snapshot, or nothing for a text that is not JSON, a file that was
    cut short for one.  A text of another JSON value, or of records
    whose [rows] and [cols] are no natural numbers, is not of this
    type. *)
Record json_text {F : Type} := mk_json_text { parsed : option (snapshot F) }.
Arguments json_text : clear implicits.

(** The argument of [load]: a string or an object. *)
Inductive load_arg {F : Type} :=
| Text (s : json_text F)
| Object (o : snapshot F).
Arguments load_arg : clear implicits.

Section Methods.
Context {F : Type} {NF : Number F} {RS : RandomSource F}.

(** [constructor(layerSizes, hiddenActivation = 'relu')] *)
Definition new (layerSizes : list nat) (hiddenActivation : option string) : M F t :=
  r <- for_loop (length layerSizes - 1) 0 (fun i r =>
         w <- xavierInit (default 0 (layerSizes !! (i + 1))) (default 0 (layerSizes !! i)) ;;
         b <- Matrix.zeros (default 0 (layerSizes !! (i + 1))) 1 ;;
         ret (r.1 ++ [w], r.2 ++ [b])) ([], []) ;;
  ret (mk layerSizes (default "relu"%string hiddenActivation) r.1 r.2).

Definition forward (this : t) (input : Matrix.t) : M F trace :=
  let act := activations (hiddenActivation this) in
  r <- for_loop (length (weights this)) 0 (fun i r =>
         let '(zs, as_, a) := r in
         w <- defined (weights this !! i) ;;
         wa <- Matrix.mul w a ;;
         z <- Matrix.add wa (biases this !! i) ;;
         a' <- (if i <? length (weights this) - 1
                then ac <- defined act ;; Matrix.map z (fn ac)
                else softmax z) ;;
         ret (zs ++ [z], as_ ++ [a'], a')) ([], [input], input) ;;
  ret (mk_trace r.1.1 r.1.2).

Definition predict (this : t) (input : Matrix.t) : M F Matrix.t :=
  tr <- forward this input ;;
  defined (as_ tr !! (length (as_ tr) - 1)).

(** Backpropagation: the weight and bias gradients. *)
Definition backward (this : t) (input target : Matrix.t) : M F (gradients F) :=
  tr <- forward this input ;;
  let act := activations (hiddenActivation this) in
  let L := length (weights this) in
  aL <- defined (as_ tr !! L) ;;
  delta <- Matrix.sub aL target ;;
  r <- for_down L (fun i r =>
         let '(dw, db, delta) := r in
         ai <- defined (as_ tr !! i) ;;
         ait <- Matrix.transpose ai ;;
         dwi <- Matrix.mul delta ait ;;
         dbi <- Matrix.clone delta ;;
         delta' <- (if 0 <? i
                    then
                      z <- defined (zs tr !! (i - 1)) ;;
                      ac <- defined act ;;
                      dAct <- Matrix.map z (dfn ac) ;;
                      w <- defined (weights this !! i) ;;
                      wt <- Matrix.transpose w ;;
                      wd <- Matrix.mul wt delta ;;
                      Matrix.hadamard wd dAct
                    else ret delta) ;;
         ret (array_set dw i dwi, array_set db i dbi, delta')) ([], [], delta) ;;
  aL' <- defined (as_ tr !! L) ;;
  l <- crossEntropyLoss aL' target ;;
  ret (mk_gradients F r.1.1 r.1.2 l).

(** The accuracy check of [train]: the first index of the largest
    prediction against the first index of the largest target. *)
Definition same_argmax (pred target : Matrix.t) : M F bool :=
  r <- for_loop (Matrix.rows pred) 0 (fun i r =>
         p <- load_at (Matrix.data pred) i ;;
         pm <- load_at (Matrix.data pred) r.1 ;;
         let predMax := if fgt p pm then i else r.1 in
         t <- load_at (Matrix.data target) i ;;
         tm <- load_at (Matrix.data target) r.2 ;;
         let targMax := if fgt t tm then i else r.2 in
         ret (predMax, targMax)) (0, 0) ;;
  ret (r.1 =? r.2).

(** The running state of an epoch: the network's fields, the total
    loss and the count of correct predictions. *)
Record progress := mk_progress { net : t; totalLoss : F; correct : nat }.

(** The accumulators of a batch. *)
Record accumulators := mk_acc { accDw : list Matrix.t; accDb : list Matrix.t }.

(** One sample of a batch: gradients by [backward], loss and
    accuracy bookkeeping, and the gradients added to the
    accumulators. *)
Definition train_sample (this : t) (samples : list sample) (idx : nat)
    (st : accumulators * F * nat) : M F (accumulators * F * nat) :=
  let '(acc, totalLoss, correct) := st in
  s <- defined (samples !! idx) ;;
  g <- backward this (input s) (target s) ;;
  let totalLoss := fadd totalLoss (loss g) in
  pred <- predict this (input s) ;;
  same <- same_argmax pred (target s) ;;
  let correct := if same then S correct else correct in
  acc <- for_loop (length (dw g)) 0 (fun i acc =>
           a <- defined (accDw acc !! i) ;;
           a' <- Matrix.add a (array_get (dw g) i) ;;
           b <- defined (accDb acc !! i) ;;
           b' <- Matrix.add b (array_get (db g) i) ;;
           ret (mk_acc (<[i := a']> (accDw acc)) (<[i := b']> (accDb acc)))) acc ;;
  ret (acc, totalLoss, correct).

(** The gradient step that ends a batch. *)
Definition apply_gradients (this : t) (acc : accumulators) (scale : F) : M F t :=
  for_loop (length (weights this)) 0 (fun i this =>
    w <- defined (weights this !! i) ;;
    a <- defined (accDw acc !! i) ;;
    sa <- Matrix.scale a scale ;;
    w' <- Matrix.sub w sa ;;
    let this := mk (layerSizes this) (hiddenActivation this)
                   (<[i := w']> (weights this)) (biases this) in
    b <- defined (biases this !! i) ;;
    ab <- defined (accDb acc !! i) ;;
    sb <- Matrix.scale ab scale ;;
    b' <- Matrix.sub b sb ;;
    ret (mk (layerSizes this) (hiddenActivation this)
            (weights this) (<[i := b']> (biases this)))) this.

(** One batch: zeroed accumulators, every sample of the batch, then
    the update scaled by [lr / batch.length]. *)
Definition train_batch (samples : list sample) (lr : F) (batch : list nat)
    (st : progress) : M F progress :=
  accDw <- map_M (fun w => Matrix.zeros (Matrix.rows w) (Matrix.cols w)) (weights (net st)) ;;
  accDb <- map_M (fun b => Matrix.zeros (Matrix.rows b) (Matrix.cols b)) (biases (net st)) ;;
  r <- for_of batch (train_sample (net st) samples)
         (mk_acc accDw accDb, totalLoss st, correct st) ;;
  let scale := fdiv lr (of_nat (length batch)) in
  this <- apply_gradients (net st) r.1.1 scale ;;
  ret (mk_progress this r.1.2 r.2).

(** [for (let b = 0; b < indices.length; b += batchSize)]: the loop
    has no bound of its own, so it runs on [fuel]. *)
Fixpoint train_batches (fuel : nat) (samples : list sample) (lr : F) (batchSize : nat)
    (indices : list nat) (b : nat) (st : progress) : M F progress :=
  match fuel with
  | O => timeout
  | S fuel' =>
      if b <? length indices then
        st' <- train_batch samples lr (take batchSize (drop b indices)) st ;;
        train_batches fuel' samples lr batchSize indices (b + batchSize) st'
      else ret st
  end.

(** [[indices[i], indices[j]] = [indices[j], indices[i]]] *)
Definition swap (indices : list nat) (i j : nat) : list nat :=
  let xi := default 0 (indices !! i) in
  let xj := default 0 (indices !! j) in
  <[j := xi]> (<[i := xj]> indices).

(** The Fisher-Yates shuffle of [train]:
    [for (let i = indices.length - 1; i > 0; i--)]. *)
Definition shuffle_indices (indices : list nat) : M F (list nat) :=
  for_down (length indices - 1) (fun k indices =>
    let i := k + 1 in
    j <- Math_random_floor_mul (i + 1) ;;
    ret (swap indices i j)) indices.

Definition train_epoch (fuel : nat) (samples : list sample) (lr : F) (batchSize : nat)
    (shuffle : bool) (onEpoch : option (epoch_stat F -> M F unit))
    (epoch : nat) (st : t * list (epoch_stat F)) : M F (t * list (epoch_stat F)) :=
  let indices := seq 0 (length samples) in
  indices <- (if shuffle then shuffle_indices indices else ret indices) ;;
  p <- train_batches fuel samples lr batchSize indices 0
         (mk_progress st.1 (of_nat 0) 0) ;;
  let avgLoss := fdiv (totalLoss p) (of_nat (length samples)) in
  let accuracy := fdiv (of_nat (correct p)) (of_nat (length samples)) in
  let stat := mk_epoch_stat F epoch avgLoss accuracy in
  match onEpoch with Some f => f stat | None => ret tt end ;;;
  ret (net p, st.2 ++ [stat]).

(** [train(samples, { lr = 0.01, epochs = 1, batchSize = 16,
    shuffle = true, onEpoch } = {})]: returns the history, and the
    fields of [this] as the updates left them. *)
Definition train (fuel : nat) (this : t) (samples : list sample) (o : options F)
    : M F (list (epoch_stat F) * t) :=
  let lr := default lit_0_01 (lr o) in
  let epochs := default 1 (epochs o) in
  let batchSize := default 16 (batchSize o) in
  let shuffle := default true (shuffle o) in
  r <- for_loop epochs 0
         (train_epoch fuel samples lr batchSize shuffle (onEpoch o)) (this, []) ;;
  ret (r.2, r.1).

(** [JSON.stringify] of a snapshot; every number goes through
    its text form. *)
Definition stringify_matrix (j : Matrix.json F) : Matrix.json F :=
  Matrix.mk_json F (Matrix.j_rows j) (Matrix.j_cols j)
    (List.map json_number (Matrix.j_data j)).

Definition JSON_stringify (o : snapshot F) : json_text F :=
  mk_json_text F
    (Some (mk_snapshot F (s_layerSizes o) (s_hiddenActivation o)
             (List.map stringify_matrix <$> s_weights o)
             (List.map stringify_matrix <$> s_biases o))).

(** [JSON.parse(text)]: a text that is not JSON raises [SyntaxError]. *)
Definition JSON_parse (s : json_text F) : M F (snapshot F) :=
  match parsed s with
  | Some o => ret o
  | None => throw SyntaxError
  end.

Definition save (this : t) : M F (json_text F) :=
  ws <- map_M Matrix.toJSON (weights this) ;;
  bs <- map_M Matrix.toJSON (biases this) ;;
  ret (JSON_stringify
         (mk_snapshot F (Some (layerSizes this)) (Some (hiddenActivation this))
            (Some ws) (Some bs))).

(** [static load(json)] *)
Definition load (json : load_arg F) : M F t :=
  data <- match json with Text s => JSON_parse s | Object o => ret o end ;;
  ls <- defined (s_layerSizes data) ;;
  net <- new ls (s_hiddenActivation data) ;;
  ws <- defined (s_weights data) ;;
  weights' <- map_M Matrix.fromJSON ws ;;
  bs <- defined (s_biases data) ;;
  biases' <- map_M Matrix.fromJSON bs ;;
  ret (mk (layerSizes net) (hiddenActivation net) weights' biases').
End Methods.
End Network.


(** * The program on IEEE-754 doubles

    [float] is the instance the JavaScript program runs on.  ECMAScript
    fixes [+], [-], [*], [/], the comparisons, [Math.max], [Math.min] and
    [Math.sqrt] exactly, and leaves [Math.exp], [Math.log], [Math.tanh]
    and [**] implementation-approximated, fixing only their values at
    special arguments ([Math.exp] is [1] at zero, [+0] at [-Infinity],
    [NaN] at [NaN], and so on).  The functions below are one such
    implementation; they serve to run the embedding on concrete inputs. *)

Module Double.
Local Open Scope float_scope.

Definition from_nat (n : nat) : float := PrimFloat.of_uint63 (Uint63.of_Z (Z.of_nat n)).

Definition from_Z (z : Z) : float :=
  if (z <? 0)%Z then - PrimFloat.of_uint63 (Uint63.of_Z (- z))
  else PrimFloat.of_uint63 (Uint63.of_Z z).

Definition gt (x y : float) : bool := PrimFloat.ltb y x.

(** [Math.max]: [NaN] if either argument is, and [+0] above [-0]. *)
Definition max (x y : float) : float :=
  if PrimFloat.is_nan x || PrimFloat.is_nan y then nan
  else if PrimFloat.ltb x y then y
  else if PrimFloat.ltb y x then x
  else match classify x with NZero => y | _ => x end.

Definition min (x y : float) : float :=
  if PrimFloat.is_nan x || PrimFloat.is_nan y then nan
  else if PrimFloat.ltb x y then x
  else if PrimFloat.ltb y x then y
  else match classify x with PZero => y | _ => x end.

(** [sum_(k < n) x^k / k!] by Horner's rule, from the highest term. *)
Fixpoint exp_series (n : nat) (x acc : float) : float :=
  match n with
  | O => acc
  | S n' => exp_series n' x (1 + x * acc / from_nat n)
  end.

Fixpoint repeat_square (n : nat) (y : float) : float :=
  match n with
  | O => y
  | S n' => repeat_square n' (y * y)
  end.

(** [Math.exp], which the language leaves to the implementation up to
    its last digits: [Infinity] above [710], where the exponential is
    beyond the largest double, [0] below [-746], where it is under the
    smallest, and between them [exp x = (exp (x / 2^10))^(2^10)], the
    inner one by its series. *)
Definition exp (x : float) : float :=
  if PrimFloat.is_nan x then nan
  else if PrimFloat.is_zero x then 1
  else if PrimFloat.ltb 710 x then infinity
  else if PrimFloat.ltb x (-746) then 0
  else repeat_square 10 (exp_series 20 (x / 1024) 1).

(** [2 * sum_(k < n) t^(2k+1) / (2k+1)], which is [ln ((1+t)/(1-t))]. *)
Fixpoint atanh_series (n : nat) (t2 acc : float) : float :=
  match n with
  | O => acc
  | S n' => atanh_series n' t2 (1 / from_nat (2 * n' + 1) + t2 * acc)
  end.

Definition ln2 : float := 0x1.62e42fefa39efp-1.

(** [ln x = e * ln 2 + ln m] for [x = m * 2^e], [m] in [[1/2, 1)]. *)
Definition log (x : float) : float :=
  if PrimFloat.is_nan x then nan
  else if PrimFloat.ltb x 0 then nan
  else if PrimFloat.is_zero x then neg_infinity
  else if PrimFloat.eqb x infinity then infinity
  else if PrimFloat.eqb x 1 then 0
  else
    let '(m, e) := Z.frexp x in
    let t := (m - 1) / (m + 1) in
    from_Z e * ln2 + 2 * t * atanh_series 20 (t * t) 0.

Definition tanh (x : float) : float :=
  if PrimFloat.is_nan x then nan
  else if PrimFloat.is_zero x then x
  else if PrimFloat.ltb 20 x then 1
  else if PrimFloat.ltb x (-20) then -1
  else let e := exp (2 * x) in (e - 1) / (e + 1).

Definition pow (x y : float) : float :=
  if PrimFloat.eqb y 2 then x * x
  else if PrimFloat.is_zero y then 1
  else if PrimFloat.eqb y 1 then x
  else exp (y * log x).

(** What [JSON.stringify] then [JSON.parse] leave of a number, once it
    is stored in a [Float64Array]. *)
Definition json_roundtrip (x : float) : float :=
  if PrimFloat.is_nan x || PrimFloat.is_infinity x then 0
  else if PrimFloat.is_zero x then 0
  else x.

#[global] Instance number : Number float := {|
  of_nat := from_nat;
  lit_1e_15 := 0x1.203af9ee75616p-50;
  lit_0_01 := 0x1.47ae147ae147bp-7;
  NaN := nan;
  Infinity := infinity;
  fneg := PrimFloat.opp;
  fadd := PrimFloat.add;
  fsub := PrimFloat.sub;
  fmul := PrimFloat.mul;
  fdiv := PrimFloat.div;
  fgt := gt;
  Math_max := max;
  Math_min := min;
  Math_exp := exp;
  Math_log := log;
  Math_tanh := tanh;
  Math_sqrt := PrimFloat.sqrt;
  fpow := pow;
  json_number := json_roundtrip
|}.

(** [Math.floor(x)] of a double that is not negative, as a natural
    number: its mantissa shifted by its exponent. *)
Definition floor_nat (x : float) : nat :=
  match Prim2SF x with
  | S754_finite false m e => Z.to_nat (Z.shiftl (Z.pos m) e)
  | _ => O
  end.

(** A source of random numbers for concrete runs: the [k]-th draw is
    the double [r / 100] with [r = (37 k + 13) mod 100], and
    [Math.floor(u * n)] is computed on doubles.  The index is kept
    below [n] by definition; for a draw below [1] and a length a double
    holds the product is below [n] by itself. *)
Definition draw (k : nat) : nat := (37 * k + 13) mod 100.

Definition draw_floor (k n : nat) : nat :=
  Nat.min (floor_nat (from_nat (draw k) / 100 * from_nat n)) (n - 1).

Lemma draw_floor_lt (k n : nat) : 0 < n -> (draw_floor k n < n)%nat.
Proof. intros Hn. unfold draw_floor. lia. Qed.

#[global] Instance random : RandomSource float := {|
  random_value k := from_nat (draw k) / 100;
  random_floor_mul := draw_floor;
  random_floor_mul_lt := draw_floor_lt
|}.
End Double.


(** * The program in exact arithmetic

    The real numbers with the two infinities and [NaN]: the arithmetic
    the program's formulas are written for, where no operation rounds.
    There is one zero, so a division of a non-zero number by zero is
    the infinity of the sign of the dividend. *)

Module Exact.
Local Open Scope R_scope.

Inductive xreal := Finite (r : R) | PosInf | NegInf | NotANumber.

Definition of_count (n : nat) : xreal := Finite (INR n).

Definition opposite (x : xreal) : xreal :=
  match x with
  | Finite r => Finite (- r)
  | PosInf => NegInf
  | NegInf => PosInf
  | NotANumber => NotANumber
  end.

Definition plus (x y : xreal) : xreal :=
  match x, y with
  | NotANumber, _ | _, NotANumber => NotANumber
  | Finite a, Finite b => Finite (a + b)
  | PosInf, NegInf | NegInf, PosInf => NotANumber
  | PosInf, _ | _, PosInf => PosInf
  | NegInf, _ | _, NegInf => NegInf
  end.

Definition minus (x y : xreal) : xreal := plus x (opposite y).

(** An infinity of the sign of [a], [NaN] for [a = 0]. *)
Definition signed (a : R) (inf : xreal) : xreal :=
  if Req_EM_T a 0 then NotANumber
  else if Rlt_dec 0 a then inf else opposite inf.

Definition times (x y : xreal) : xreal :=
  match x, y with
  | NotANumber, _ | _, NotANumber => NotANumber
  | Finite a, Finite b => Finite (a * b)
  | Finite a, inf | inf, Finite a => signed a inf
  | PosInf, PosInf | NegInf, NegInf => PosInf
  | PosInf, NegInf | NegInf, PosInf => NegInf
  end.

Definition quotient (x y : xreal) : xreal :=
  match x, y with
  | NotANumber, _ | _, NotANumber => NotANumber
  | Finite a, Finite b => if Req_EM_T b 0 then signed a PosInf else Finite (a / b)
  | Finite _, _ => Finite 0
  | inf, Finite b => if Rlt_dec b 0 then opposite inf else inf
  | _, _ => NotANumber
  end.

Definition greater (x y : xreal) : bool :=
  match x, y with
  | NotANumber, _ | _, NotANumber => false
  | Finite a, Finite b => if Rlt_dec b a then true else false
  | PosInf, PosInf | NegInf, _ | Finite _, PosInf => false
  | PosInf, _ | Finite _, NegInf => true
  end.

Definition larger (x y : xreal) : xreal :=
  match x, y with
  | NotANumber, _ | _, NotANumber => NotANumber
  | _, _ => if greater y x then y else x
  end.

Definition smaller (x y : xreal) : xreal :=
  match x, y with
  | NotANumber, _ | _, NotANumber => NotANumber
  | _, _ => if greater x y then y else x
  end.

Definition exponential (x : xreal) : xreal :=
  match x with
  | Finite r => Finite (Rtrigo_def.exp r)
  | PosInf => PosInf
  | NegInf => Finite 0
  | NotANumber => NotANumber
  end.

Definition logarithm (x : xreal) : xreal :=
  match x with
  | Finite r => if Rlt_dec 0 r then Finite (ln r)
                else if Req_EM_T r 0 then NegInf else NotANumber
  | PosInf => PosInf
  | _ => NotANumber
  end.

Definition tangent_h (x : xreal) : xreal :=
  match x with
  | Finite r => Finite (Rtrigo_def.tanh r)
  | PosInf => Finite 1
  | NegInf => Finite (- 1)
  | NotANumber => NotANumber
  end.

Definition square_root (x : xreal) : xreal :=
  match x with
  | Finite r => if Rlt_dec r 0 then NotANumber else Finite (R_sqrt.sqrt r)
  | PosInf => PosInf
  | _ => NotANumber
  end.

(** [x ** y] for a finite exponent [b <> 0]. *)
Definition pow_finite (x : xreal) (b : R) : xreal :=
  let whole := if Req_EM_T (frac_part b) 0 then true else false in
  match x with
  | NotANumber => NotANumber
  | Finite a =>
      if Rlt_dec 0 a then Finite (Rpower a b)
      else if Req_EM_T a 0 then (if Rlt_dec 0 b then Finite 0 else PosInf)
      else if whole then Finite (powerRZ a (Int_part b)) else NotANumber
  | PosInf => if Rlt_dec 0 b then PosInf else Finite 0
  | NegInf =>
      if Rlt_dec 0 b then (if whole && Z.odd (Int_part b) then NegInf else PosInf)
      else Finite 0
  end.

(** [x ** y] for an infinite exponent, [up] for [+Infinity]. *)
Definition pow_infinite (x : xreal) (up : bool) : xreal :=
  match x with
  | NotANumber => NotANumber
  | Finite a =>
      if Req_EM_T (Rabs a) 1 then NotANumber
      else if Rlt_dec 1 (Rabs a) then (if up then PosInf else Finite 0)
      else (if up then Finite 0 else PosInf)
  | _ => if up then PosInf else Finite 0
  end.

Definition power (x y : xreal) : xreal :=
  match y with
  | NotANumber => NotANumber
  | Finite b => if Req_EM_T b 0 then Finite 1 else pow_finite x b
  | PosInf => pow_infinite x true
  | NegInf => pow_infinite x false
  end.

(** [JSON.stringify] writes [null] for what is not finite. *)
Definition json_finite (x : xreal) : xreal :=
  match x with
  | Finite r => Finite r
  | _ => Finite 0
  end.

#[global] Instance arithmetic : Number xreal := {|
  of_nat := of_count;
  lit_1e_15 := Finite (/ 10 ^ 15);
  lit_0_01 := Finite (/ 100);
  NaN := NotANumber;
  Infinity := PosInf;
  fneg := opposite;
  fadd := plus;
  fsub := minus;
  fmul := times;
  fdiv := quotient;
  fgt := greater;
  Math_max := larger;
  Math_min := smaller;
  Math_exp := exponential;
  Math_log := logarithm;
  Math_tanh := tangent_h;
  Math_sqrt := square_root;
  fpow := power;
  json_number := json_finite
|}.

(** A source of random numbers in exact arithmetic: every draw is
    [1/2], and [Math.floor(n / 2)] is the index it gives. *)
Lemma half_floor_lt (k n : nat) : (0 < n)%nat -> (n / 2 < n)%nat.
Proof. intros Hn. apply Nat.div_lt; lia. Qed.

#[global] Instance half_source : RandomSource xreal := {|
  random_value _ := Finite (/ 2);
  random_floor_mul _ n := (n / 2)%nat;
  random_floor_mul_lt := half_floor_lt
|}.

End Exact.


(** * What the operations compute

    Matrices as values, and the closed forms of the operations: the
    elementwise sum, the product by [sum_k A[i,k] * B[k,j]], and so on.
    The loops of the program are proved to compute these. *)

Record mat {F : Type} := mk_mat { nrows : nat; ncols : nat; entries : list F }.
Arguments mat : clear implicits.
Arguments mk_mat {F} nrows ncols entries.

Section Values.
Context {F : Type} {NF : Number F}.

(** The matrix a handle denotes in a store. *)
Definition deref (w : world F) (m : Matrix.t) : mat F :=
  mk_mat (Matrix.rows m) (Matrix.cols m) (default [] (heap w !! Matrix.data m)).

(** [[f 0; f 1; ..; f (n-1)]] *)
Definition tabulate (n : nat) (f : nat -> F) : list F := List.map f (seq 0 n).

(** The element at a position of the row-major buffer, and at a row
    and a column. *)
Definition at_ (A : mat F) (q : nat) : F := buf_get (entries A) q.
Definition entry (A : mat F) (i j : nat) : F := at_ A (i * ncols A + j).

(** [sum_(k < n) f k], added from the left, starting from [0]. *)
Definition fsum (n : nat) (f : nat -> F) : F :=
  fold_left (fun s k => fadd s (f k)) (seq 0 n) (of_nat 0).

(** Elementwise operations run over the receiver's buffer, which has
    [rows * cols] elements in every matrix the constructor allocates;
    positions of the result beyond a shorter buffer keep their zero. *)
Definition mat_zip (op : F -> F -> F) (A B : mat F) : mat F :=
  mk_mat (nrows A) (ncols A)
    (tabulate (nrows A * ncols A)
       (fun q => if decide (q < length (entries A))
                 then op (at_ A q) (at_ B q) else of_nat 0)).

Definition mat_add : mat F -> mat F -> mat F := mat_zip fadd.
Definition mat_sub : mat F -> mat F -> mat F := mat_zip fsub.
Definition mat_hadamard : mat F -> mat F -> mat F := mat_zip fmul.

Definition mat_map (A : mat F) (f : F -> nat -> F) : mat F :=
  mk_mat (nrows A) (ncols A)
    (tabulate (nrows A * ncols A)
       (fun q => if decide (q < length (entries A)) then f (at_ A q) q else of_nat 0)).

Definition mat_scale (A : mat F) (s : F) : mat F :=
  mat_map A (fun x _ => fmul x s).

(** The product: entry [(i, j)] is [sum_k A[i,k] * B[k,j]]. *)
Definition dot (A B : mat F) (i j : nat) : F :=
  fsum (ncols A) (fun k => fmul (entry A i k) (entry B k j)).

Definition mat_mul (A B : mat F) : mat F :=
  mk_mat (nrows A) (ncols B)
    (tabulate (nrows A * ncols B) (fun q => dot A B (q / ncols B) (q mod ncols B))).

(** The transpose: entry [(j, i)] is [A[i,j]]. *)
Definition mat_transpose (A : mat F) : mat F :=
  mk_mat (ncols A) (nrows A)
    (tabulate (ncols A * nrows A) (fun q => entry A (q mod nrows A) (q / nrows A))).

Definition mat_addVec (A v : mat F) : mat F :=
  mk_mat (nrows A) (ncols A)
    (tabulate (nrows A * ncols A) (fun q => fadd (at_ A q) (at_ v (q / ncols A)))).

(** The largest element of a column, scanning from [-Infinity] and
    keeping the first of equal ones. *)
Definition vmax (v : mat F) : F :=
  fold_left (fun m i => if fgt (at_ v i) m then at_ v i else m)
    (seq 0 (nrows v)) (fneg Infinity).

(** [exp (v[i] - max v)] and the softmax it is normalised to. *)
Definition shifted_exp (v : mat F) (i : nat) : F := Math_exp (fsub (at_ v i) (vmax v)).

Definition mat_softmax (v : mat F) : mat F :=
  mk_mat (nrows v) 1
    (tabulate (nrows v) (fun i => fdiv (shifted_exp v i) (fsum (nrows v) (shifted_exp v)))).

(** [sum_i -t[i] * ln (max (p[i], 1e-15))] over the [i] with [t[i] > 0]. *)
Definition cross_entropy (p t : mat F) : F :=
  fold_left (fun loss i =>
               if fgt (at_ t i) (of_nat 0)
               then fsub loss (fmul (at_ t i) (Math_log (Math_max (at_ p i) lit_1e_15)))
               else loss)
    (seq 0 (nrows t)) (of_nat 0).

(** The constructor on a plain array: the first [rows * cols] elements
    are copied, the rest of them dropped, and a shorter array leaves
    zeros behind. *)
Definition array_buffer (r k : nat) (xs : list F) : buffer F :=
  tabulate (r * k) (fun q => if decide (q < length xs) then buf_get xs q else of_nat 0).

(** The object [load] works on: its argument, or what [JSON.parse]
    reads from the text. *)
Definition snapshot_of (json : Network.load_arg F) : option (Network.snapshot F) :=
  match json with
  | Network.Text s => Network.parsed s
  | Network.Object o => Some o
  end.

(** The matrix [Matrix.fromJSON] builds from a record, and the record
    [toJSON] makes of a matrix in a store. *)
Definition json_value (j : Matrix.json F) : mat F :=
  mk_mat (Matrix.j_rows j) (Matrix.j_cols j)
    (array_buffer (Matrix.j_rows j) (Matrix.j_cols j) (Matrix.j_data j)).

Definition json_of (w : world F) (m : Matrix.t) : Matrix.json F :=
  Matrix.mk_json F (Matrix.rows m) (Matrix.cols m) (entries (deref w m)).

(** The buffer [xavierInit] fills, from the [d]-th random draw on. *)
Definition xavier_value {RS : RandomSource F} (r k : nat) (d q : nat) : F :=
  fmul (fsub (fmul (random_value (d + q)) (of_nat 2)) (of_nat 1))
       (Math_sqrt (fdiv (of_nat 6) (of_nat (r + k)))).

Definition xavier_buffer {RS : RandomSource F} (r k : nat) (d : nat) : buffer F :=
  tabulate (r * k) (xavier_value r k d).

(** The forward pass on values: the pairs [(z_i, a_(i+1))], layer by
    layer; the last layer is the softmax one. *)
Fixpoint forward_values (fn : F -> nat -> F) (Ws bs : list (mat F)) (a : mat F)
    : list (mat F * mat F) :=
  match Ws, bs with
  | W :: Ws', b :: bs' =>
      let z := mat_add (mat_mul W a) b in
      let a' := match Ws' with [] => mat_softmax z | _ => mat_map z fn end in
      (z, a') :: forward_values fn Ws' bs' a'
  | _, _ => []
  end.

(** The deltas of the backward pass, counted from the output layer:
    [delta_from_end 0] is [a_L - target], the delta of layer [L-1], and
    one step towards the input turns the delta of layer [i = L-1-k] into
    [(W_i^T * delta) (.) dfn(z_(i-1))], the delta of layer [i-1]. *)
Fixpoint delta_from_end (dfn : F -> nat -> F) (Ws zs : list (mat F)) (aL target : mat F)
    (k : nat) : mat F :=
  match k with
  | O => mat_sub aL target
  | S k' =>
      let i := length Ws - S k' in
      mat_hadamard
        (mat_mul (mat_transpose (default (mk_mat 0 0 []) (Ws !! i)))
                 (delta_from_end dfn Ws zs aL target k'))
        (mat_map (default (mk_mat 0 0 []) (zs !! (i - 1))) dfn)
  end.

(** The hidden activation is one of the table, with its two functions. *)
Definition registered (this : Network.t) (f df : F -> nat -> F) : Prop :=
  activations (Network.hiddenActivation this) = Some (mk_activation (Some f) (Some df)).

(** The values of a forward pass of a network in a store: the pairs
    [(z_i, a_(i+1))], and the lists [z_0 ..] and [a_0 = input, a_1 ..]. *)
Definition forward_trace (f : F -> nat -> F) (w : world F) (this : Network.t)
    (input : Matrix.t) : list (mat F * mat F) :=
  forward_values f (deref w <$> Network.weights this) (deref w <$> Network.biases this)
    (deref w input).

Definition trace_zs (f : F -> nat -> F) (w : world F) (this : Network.t)
    (input : Matrix.t) : list (mat F) :=
  (forward_trace f w this input).*1.

Definition trace_as (f : F -> nat -> F) (w : world F) (this : Network.t)
    (input : Matrix.t) : list (mat F) :=
  deref w input :: (forward_trace f w this input).*2.

(** The [i]-th matrix of a list. *)
Definition nth_mat (l : list (mat F)) (i : nat) : mat F :=
  default (mk_mat 0 0 []) (l !! i).

(** The output [a_L] of the forward pass. *)
Definition output_value (f : F -> nat -> F) (w : world F) (this : Network.t)
    (input : Matrix.t) : mat F :=
  nth_mat (trace_as f w this input) (length (Network.weights this)).

(** The delta of layer [i] in the backward pass of a sample. *)
Definition delta (f df : F -> nat -> F) (w : world F) (this : Network.t)
    (input target : Matrix.t) (i : nat) : mat F :=
  delta_from_end df (deref w <$> Network.weights this) (trace_zs f w this input)
    (output_value f w this input) (deref w target)
    (length (Network.weights this) - 1 - i).

(** The gradients of layer [i]: [dW_i = delta_i * a_i^T] and
    [db_i = delta_i]. *)
Definition grad_w (f df : F -> nat -> F) (w : world F) (this : Network.t)
    (input target : Matrix.t) (i : nat) : mat F :=
  mat_mul (delta f df w this input target i)
          (mat_transpose (nth_mat (trace_as f w this input) i)).

Definition grad_b (f df : F -> nat -> F) (w : world F) (this : Network.t)
    (input target : Matrix.t) (i : nat) : mat F :=
  delta f df w this input target i.

(** ** A batch of training, on values *)

(** The first index of the largest element, as the accuracy check of
    [train] scans for it, of a prediction and of a target. *)
Definition argmax_pair (p t : mat F) : nat * nat :=
  fold_left (fun r i =>
               (if fgt (at_ p i) (at_ p r.1) then i else r.1,
                if fgt (at_ t i) (at_ t r.2) then i else r.2))
    (seq 0 (nrows p)) (0, 0).

Definition same_argmax_value (p t : mat F) : bool :=
  (argmax_pair p t).1 =? (argmax_pair p t).2.

Definition zeros_like (A : mat F) : mat F :=
  mk_mat (nrows A) (ncols A) (replicate (nrows A * ncols A) (of_nat 0)).

(** The gradients of a sample, layer by layer. *)
Definition grads_w (f df : F -> nat -> F) (w : world F) (this : Network.t)
    (s : Network.sample) : list (mat F) :=
  (fun i => grad_w f df w this (Network.input s) (Network.target s) i)
    <$> seq 0 (length (Network.weights this)).

Definition grads_b (f df : F -> nat -> F) (w : world F) (this : Network.t)
    (s : Network.sample) : list (mat F) :=
  (fun i => grad_b f df w this (Network.input s) (Network.target s) i)
    <$> seq 0 (length (Network.weights this)).

(** The accumulated gradients of a batch: the sum, sample after
    sample, from zero matrices of the shapes of the parameters. *)
Definition acc_w (f df : F -> nat -> F) (w : world F) (this : Network.t)
    (batch : list Network.sample) : list (mat F) :=
  fold_left (fun A s => zip_with mat_add A (grads_w f df w this s)) batch
    (zeros_like <$> (deref w <$> Network.weights this)).

Definition acc_b (f df : F -> nat -> F) (w : world F) (this : Network.t)
    (batch : list Network.sample) : list (mat F) :=
  fold_left (fun A s => zip_with mat_add A (grads_b f df w this s)) batch
    (zeros_like <$> (deref w <$> Network.biases this)).

(** The update [P_i - scale * acc_i] of a list of parameters. *)
Definition updated (Ps As : list (mat F)) (scale : F) : list (mat F) :=
  zip_with (fun P A => mat_sub P (mat_scale A scale)) Ps As.

(** The samples a batch of indices selects. *)
Definition batch_samples (samples : list Network.sample) (batch : list nat)
    : list Network.sample :=
  omap (fun idx => samples !! idx) batch.

(** The loss and the count of correct predictions over a batch. *)
Definition batch_loss (f : F -> nat -> F) (w : world F) (this : Network.t)
    (batch : list Network.sample) (l0 : F) : F :=
  fold_left (fun l s => fadd l (cross_entropy (output_value f w this (Network.input s))
                                  (deref w (Network.target s)))) batch l0.

Definition batch_correct (f : F -> nat -> F) (w : world F) (this : Network.t)
    (batch : list Network.sample) (c0 : nat) : nat :=
  fold_left (fun c s => if same_argmax_value (output_value f w this (Network.input s))
                             (deref w (Network.target s))
                        then S c else c) batch c0.
End Values.


(** * Loops that fill a fresh buffer

    Every matrix operation allocates its result and then writes into it
    while it reads its operands.  Run on a store whose last buffer is the
    result, such code is a function of that buffer alone: [Local h m f]
    says that [m], started on the buffers [h] followed by [c], returns
    [(f c).1] and leaves [h] followed by [(f c).2]. *)

Section Calculus.
Context {F : Type} {NF : Number F}.

Definition push (w : world F) (c : buffer F) : world F :=
  World (heap w ++ [c]) (draws w).

(** [for_loop] on the buffer alone. *)
Fixpoint bfor {S} (n i : nat) (f : nat -> S -> buffer F -> S * buffer F)
    (s : S) (c : buffer F) : S * buffer F :=
  match n with
  | O => (s, c)
  | Datatypes.S n' => let r := f i s c in bfor n' (Datatypes.S i) f r.1 r.2
  end.

Definition Local {A} (h : list (buffer F)) (m : M F A) (f : buffer F -> A * buffer F) : Prop :=
  forall c d, m (World (h ++ [c]) d) = Ok (f c).1 (World (h ++ [(f c).2]) d).

(** A specification of a run: [Q] on a returned value, [E] on an
    exception, [T] when the fuel runs out. *)
Definition run_sat {A} (m : M F A) (w : world F)
    (Q : A -> world F -> Prop) (E : error -> world F -> Prop) (T : Prop) : Prop :=
  match m w with
  | Ok a w' => Q a w'
  | Throw e w' => E e w'
  | Timeout => T
  end.

(** The store only grows: every buffer of [w] is in [w'], unchanged. *)
Definition grows (w w' : world F) : Prop := heap w `prefix_of` heap w'.

(** A handle on an allocated buffer, and one whose buffer has
    [rows * cols] elements, as every buffer the constructor allocates. *)
Definition valid (w : world F) (m : Matrix.t) : Prop :=
  Matrix.data m < length (heap w).

Definition wf (w : world F) (m : Matrix.t) : Prop :=
  exists b, heap w !! Matrix.data m = Some b /\ length b = Matrix.rows m * Matrix.cols m.

(** A run that only adds buffers to the store: it returns a value that
    satisfies [V], or raises an exception of [E], or runs out of fuel
    when [T] allows it. *)
Definition guarded {A} (E : error -> Prop) (T : Prop) (m : M F A) (w : world F)
    (V : A -> world F -> Prop) : Prop :=
  run_sat m w (fun a w' => grows w w' /\ V a w')
              (fun e w' => E e /\ grows w w') T.

(** It returns. *)
Definition returns {A} (m : M F A) (w : world F) (V : A -> world F -> Prop) : Prop :=
  guarded (fun _ => False) False m w V.

(** It returns or raises [TypeError]. *)
Definition safe {A} (m : M F A) (w : world F) (V : A -> world F -> Prop) : Prop :=
  guarded (fun e => e = TypeError) False m w V.

(** The matrix [A], freshly allocated as [m] by an operation that ran
    from [w] to [w']. *)
Definition fresh (w : world F) (A : mat F) (m : Matrix.t) (w' : world F) : Prop :=
  valid w' m /\ deref w' m = A /\ w' = push w (entries A)
  /\ Matrix.data m = length (heap w).

(** The matrices of a network are in the store. *)
Definition net_valid (w : world F) (net : Network.t) : Prop :=
  Forall (valid w) (Network.weights net) /\ Forall (valid w) (Network.biases net).

(** A trace of [n] layers whose matrices are in the store. *)
Definition trace_valid (n : nat) (tr : Network.trace) (w : world F) : Prop :=
  Forall (valid w) (Network.zs tr) /\ Forall (valid w) (Network.as_ tr)
  /\ length (Network.zs tr) = n /\ length (Network.as_ tr) = S n.

(** An array of matrices, holes apart, in the store. *)
Definition array_valid (w : world F) (xs : list (option Matrix.t)) : Prop :=
  Forall (fun o => forall m, o = Some m -> valid w m) xs.

(** What the constructor leaves at layer [i]: a weight matrix of shape
    [(n_(i+1), n_i)] whose buffer [xavierInit] filled from random
    draws, and a bias column of [n_(i+1)] zeros. *)
Definition layer_built {RS : RandomSource F} (ls : list nat) (net : Network.t)
    (w : world F) (i : nat) : Prop :=
  exists W b,
    Network.weights net !! i = Some W /\ Network.biases net !! i = Some b
    /\ valid w W /\ valid w b
    /\ Matrix.rows W = default 0 (ls !! (i + 1)) /\ Matrix.cols W = default 0 (ls !! i)
    /\ (exists d, entries (deref w W) = xavier_buffer (Matrix.rows W) (Matrix.cols W) d)
    /\ deref w b = mk_mat (default 0 (ls !! (i + 1))) 1
                     (replicate (default 0 (ls !! (i + 1))) (of_nat 0)).

(** The matrix stored at index [i] of an array of matrices has the
    value [A]. *)
Definition holds (w : world F) (xs : list (option Matrix.t)) (i : nat) (A : mat F) : Prop :=
  exists m, xs !! i = Some (Some m) /\ valid w m /\ deref w m = A.

(** A network whose matrices are in the store, with a bias per weight
    matrix. *)
Definition net_ok (w : world F) (net : Network.t) : Prop :=
  net_valid w net /\ length (Network.weights net) = length (Network.biases net).

Definition sample_valid (w : world F) (s : Network.sample) : Prop :=
  valid w (Network.input s) /\ valid w (Network.target s).

(** What a batch leaves: the parameters updated by the accumulated
    gradients scaled by [lr / batch.length], and the running loss and
    count of correct predictions. *)
Definition batch_post (f df : F -> nat -> F) (w : world F) (samples : list Network.sample)
    (lr : F) (batch : list nat) (st : Network.progress) (st' : Network.progress)
    (w' : world F) : Prop :=
  let this := Network.net st in
  let chosen := batch_samples samples batch in
  let scale := fdiv lr (of_nat (length batch)) in
  Network.layerSizes (Network.net st') = Network.layerSizes this
  /\ Network.hiddenActivation (Network.net st') = Network.hiddenActivation this
  /\ net_ok w' (Network.net st')
  /\ deref w' <$> Network.weights (Network.net st')
     = updated (deref w <$> Network.weights this) (acc_w f df w this chosen) scale
  /\ deref w' <$> Network.biases (Network.net st')
     = updated (deref w <$> Network.biases this) (acc_b f df w this chosen) scale
  /\ Network.totalLoss st' = batch_loss f w this chosen (Network.totalLoss st)
  /\ Network.correct st' = batch_correct f w this chosen (Network.correct st).

(** What the batches of an epoch leave, from the offset [b] on: as
    long as [b] is below the number of indices, the batch of the next
    [batchSize] indices from [b], and on from [b + batchSize]. *)
Inductive batches_post (f df : F -> nat -> F) (samples : list Network.sample) (lr : F)
    (batchSize : nat) (indices : list nat)
    : nat -> Network.progress -> world F -> Network.progress -> world F -> Prop :=
| batches_done b st w :
    length indices <= b -> batches_post f df samples lr batchSize indices b st w st w
| batches_step b st w st1 w1 st2 w2 :
    b < length indices ->
    batch_post f df w samples lr (take batchSize (drop b indices)) st st1 w1 ->
    batches_post f df samples lr batchSize indices (b + batchSize) st1 w1 st2 w2 ->
    batches_post f df samples lr batchSize indices b st w st2 w2.

(** What an epoch leaves: the indices of the samples in an order, the
    order [0, 1, ..] when nothing shuffles; what [batches] says the
    batches over these indices leave, from the network as the epoch
    finds it, a loss of [0] and no correct prediction; and in the
    history one record more, of the loss and the correct predictions
    divided by the number of samples. *)
Definition epoch_post
    (batches : list nat -> Network.progress -> world F -> Network.progress -> world F -> Prop)
    (samples : list Network.sample) (shuffle : bool) (epoch : nat)
    (st : Network.t * list (Network.epoch_stat F)) (w : world F)
    (st' : Network.t * list (Network.epoch_stat F)) (w' : world F) : Prop :=
  exists indices w1 p w2,
    indices ≡ₚ seq 0 (length samples)
    /\ (shuffle = false -> indices = seq 0 (length samples))
    /\ heap w1 = heap w
    /\ batches indices (Network.mk_progress st.1 (of_nat 0) 0) w1 p w2
    /\ grows w2 w'
    /\ st'.1 = Network.net p
    /\ st'.2 = st.2 ++ [Network.mk_epoch_stat F epoch
                          (fdiv (Network.totalLoss p) (of_nat (length samples)))
                          (fdiv (of_nat (Network.correct p)) (of_nat (length samples)))].

(** [n] rounds of a loop, numbered from [i]: each starts from the state
    and the store the one before it left. *)
Inductive rounds {S : Type} (step : nat -> S -> world F -> S -> world F -> Prop)
    : nat -> nat -> S -> world F -> S -> world F -> Prop :=
| rounds_done i s w : rounds step 0 i s w s w
| rounds_step n i s w s1 w1 s2 w2 :
    step i s w s1 w1 -> rounds step n (Datatypes.S i) s1 w1 s2 w2 ->
    rounds step (Datatypes.S n) i s w s2 w2.

(** An [onEpoch] callback that returns and leaves the buffers of the
    store as they are. *)
Definition callback_ok (cb : option (Network.epoch_stat F -> M F unit)) : Prop :=
  forall f, cb = Some f -> forall stat w, returns (f stat) w (fun _ _ => True).

Definition gradients_valid (g : Network.gradients F) (w : world F) : Prop :=
  array_valid w (Network.dw g) /\ array_valid w (Network.db g).

(** The value a run returns. *)
Definition value_of {A} (o : outcome F A) : option A :=
  match o with
  | Ok a _ => Some a
  | _ => None
  end.

(** What [backward] returns for a network of [L] layers: with [d i]
    the delta of layer [i], [a i] the activations and [z i] the
    pre-activations of the forward pass and [W i] the weights, the
    delta of the last layer is [a L - target], the delta of layer
    [i - 1] is [(W_i^T * d i) (.) dfn (z (i-1))], and the gradients of
    layer [i] are [d i * (a i)^T] and [d i]. *)
Definition backward_post (f df : F -> nat -> F) (w : world F) (this : Network.t)
    (input target : Matrix.t) (g : Network.gradients F) (w' : world F) : Prop :=
  let L := length (Network.weights this) in
  let d := delta f df w this input target in
  let a := nth_mat (trace_as f w this input) in
  let z := nth_mat (trace_zs f w this input) in
  let W := nth_mat (deref w <$> Network.weights this) in
  d (L - 1) = mat_sub (a L) (deref w target)
  /\ (forall i, 0 < i < L ->
        d (i - 1) = mat_hadamard (mat_mul (mat_transpose (W i)) (d i))
                                 (mat_map (z (i - 1)) df))
  /\ length (Network.dw g) = L /\ length (Network.db g) = L
  /\ (forall i, i < L ->
        holds w' (Network.dw g) i (mat_mul (d i) (mat_transpose (a i)))
        /\ holds w' (Network.db g) i (d i))
  /\ Network.loss g = cross_entropy (a L) (deref w target).

(** A matrix whose buffer has [rows * cols] numbers, each of them the
    number its JSON text reads back as. *)
Definition json_stable (w : world F) (m : Matrix.t) : Prop :=
  wf w m /\ Forall (fun x => json_number x = x) (entries (deref w m)).

(** The parameters of a network have in [w'] the values they had in
    [w]. *)
Definition unchanged (w w' : world F) (this : Network.t) : Prop :=
  Forall (fun m => deref w' m = deref w m) (Network.weights this ++ Network.biases this).

(** A run that ends, by a value or by [TypeError], with the parameters
    of [this] as they were. *)
Definition preserves {A} (m : M F A) (w : world F) (this : Network.t) : Prop :=
  run_sat m w (fun _ w' => unchanged w w' this)
              (fun e w' => e = TypeError /\ unchanged w w' this) False.

(** The result of a matrix operation: a new matrix of the given shape
    and elements, the store otherwise as it was. *)
Definition yields (w : world F) (A : mat F) (m : Matrix.t) (w' : world F) : Prop :=
  Matrix.rows m = nrows A /\ Matrix.cols m = ncols A /\ fresh w A m w'.
End Calculus.


(** * Concrete inputs *)

Module Concrete.
(** A network of two layers, [1 -> 2 -> 2], in a store that holds its
    parameters, an input and a one-hot target. *)
Definition store : world float :=
  World [[0.5; -0.5]%float; [0; 0]%float; [1; 0; 0; 1]%float; [0; 0]%float;
         [1%float]; [0; 1]%float] 0.

Definition net : Network.t :=
  Network.mk [1; 2; 2] "relu" [Matrix.mk 2 1 0; Matrix.mk 2 2 2]
    [Matrix.mk 2 1 1; Matrix.mk 2 1 3].

Definition input : Matrix.t := Matrix.mk 1 1 4.
Definition target : Matrix.t := Matrix.mk 2 1 5.

(** Its activation, as [Matrix.map] calls it, and the derivative. *)
Definition act : float -> nat -> float := fun x _ => relu_fn x.
Definition dact : float -> nat -> float := fun x _ => relu_dfn x.
Definition samples : list Network.sample := [Network.mk_sample input target].

Definition options (lr : float) (epochs batchSize : nat) : Network.options float :=
  Network.mk_options float (Some lr) (Some epochs) (Some batchSize) (Some false) None.

(** A network of one layer with a weight [-Infinity]. *)
Definition store_inf : world float :=
  World [[neg_infinity; 0%float]; [0; 0]%float; [1%float]] 0.

Definition net_inf : Network.t :=
  Network.mk [1; 2] "relu" [Matrix.mk 2 1 0] [Matrix.mk 2 1 1].

Definition input_inf : Matrix.t := Matrix.mk 1 1 2.

(** A column of two, a column of one, a column of three. *)
Definition store_shapes : world float :=
  World [[1; 2]%float; [10%float]; [10; 20; 30]%float] 0.

Definition column2 : Matrix.t := Matrix.mk 2 1 0.
Definition column1 : Matrix.t := Matrix.mk 1 1 1.
Definition column3 : Matrix.t := Matrix.mk 3 1 2.



(** The column [[5]]. *)
Definition store_five : world float := World [[5%float]] 0.
Definition column_five : Matrix.t := Matrix.mk 1 1 0.



(** A store of exact numbers. *)
Definition store_exact : world Exact.xreal :=
  World [[Exact.Finite 0; Exact.Finite 1]] 0.
End Concrete.

(** * More of the matrix, on values *)

Section MoreValues.
Context {F : Type} {NF : Number F}.

(** The buffer [fromRows] fills: element [(i, j)] is [rows[i][j]],
    [NaN] where row [i] has no element [j]. *)
Definition rows_buffer (rows : list (list F)) : buffer F :=
  let c := length (default [] (rows !! 0)) in
  tabulate (length rows * c)
    (fun q => default NaN (default [] (rows !! (q / c)) !! (q mod c))).

(** Two lists of matrices of the same shapes, one by one. *)
Definition same_shapes (ms ms' : list Matrix.t) : Prop :=
  Forall2 (fun m m' => Matrix.rows m' = Matrix.rows m /\ Matrix.cols m' = Matrix.cols m)
    ms ms'.

(** A network of the topology, the activation and the shapes of
    another. *)
Definition same_architecture (net net' : Network.t) : Prop :=
  Network.layerSizes net' = Network.layerSizes net
  /\ Network.hiddenActivation net' = Network.hiddenActivation net
  /\ same_shapes (Network.weights net) (Network.weights net')
  /\ same_shapes (Network.biases net) (Network.biases net').
End MoreValues.

(** * sentiment.js: the tokenizer and the vocabulary

    A text is a list of Latin-1 characters, one [ascii] each: on these
    [toLowerCase] maps a character to a character, and the white space
    of a regular expression is the six ASCII characters and the
    no-break space. *)

#[global] Instance ascii_eq_dec : EqDecision ascii := Ascii.ascii_dec.

Module Sentiment.

Definition word := list ascii.

Definition code (c : ascii) : nat := nat_of_ascii c.

Definition between (lo hi n : nat) : bool := (lo <=? n) && (n <=? hi).

(** [toLowerCase] of a character: [A-Z], and the capital letters
    [U+00C0] to [U+00DE] but the sign [U+00D7], move down by 32. *)
Definition lower (c : ascii) : ascii :=
  if between 65 90 (code c) || (between 192 222 (code c) && negb (code c =? 215))
  then ascii_of_nat (code c + 32)
  else c.

Definition toLowerCase (s : list ascii) : list ascii := List.map lower s.

(** [\s]: tab, line feed, vertical tab, form feed, carriage return,
    space and no-break space. *)
Definition is_space (c : ascii) : bool :=
  between 9 13 (code c) || (code c =? 32) || (code c =? 160).

(** [[a-z0-9]] *)
Definition is_word_char (c : ascii) : bool :=
  between 97 122 (code c) || between 48 57 (code c).

(** [.replace(/[^a-z0-9\s]/g, ' ')] *)
Definition strip (s : list ascii) : list ascii :=
  List.map (fun c => if is_word_char c || is_space c then c else " "%char) s.

(** [.split(/\s+/)]: the pieces between the runs of white space, the
    empty piece before a run the text starts with and after a run it
    ends with included; [cur] is the piece being read, last character
    first, and [gap] says that the last character was white space. *)
Fixpoint split_spaces (s : list ascii) (cur : list ascii) (gap : bool) : list word :=
  match s with
  | [] => [rev cur]
  | c :: s' =>
      if is_space c
      then (if gap then split_spaces s' [] true else rev cur :: split_spaces s' [] true)
      else split_spaces s' (c :: cur) false
  end.

Definition split (s : list ascii) : list word := split_spaces s [] false.

(** [tokenize(text)] *)
Definition tokenize (text : list ascii) : list word :=
  filter (fun t => 0 < length t) (split (strip (toLowerCase text))).

(** A letter or a digit, once in lower case. *)
Definition word_char (c : ascii) : Prop := is_word_char (lower c) = true.

(** What [toLowerCase] and [replace] leave of a character. *)
Definition normal (c : ascii) : ascii :=
  if is_word_char (lower c) || is_space (lower c) then lower c else " "%char.

Definition nonempty (t : word) : Prop := 0 < length t.

(** A [Map] with words as keys: the entries in the order of their
    first insertion. *)
Fixpoint map_get {V} (m : list (word * V)) (k : word) : option V :=
  match m with
  | [] => None
  | (k', v) :: m' => if decide (k' = k) then Some v else map_get m' k
  end.

Fixpoint map_set {V} (m : list (word * V)) (k : word) (v : V) : list (word * V) :=
  match m with
  | [] => [(k, v)]
  | (k', v') :: m' => if decide (k' = k) then (k, v) :: m' else (k', v') :: map_set m' k v
  end.

(** [new Map(words.map((w, i) => [w, i]))] *)
Definition index_map (words : list word) : list (word * nat) :=
  fold_left (fun m iw => map_set m iw.2 iw.1) (zip (seq 0 (length words)) words) [].

Module Vocabulary.

Record t := mk { maxSize : nat; word2idx : list (word * nat); idx2word : list word }.

(** [constructor(maxSize = 500)] *)
Definition new (maxSize : option nat) : t := mk (default 500 maxSize) [] [].

(** [freq.set(token, (freq.get(token) || 0) + 1)] *)
Definition count_token (freq : list (word * nat)) (token : word) : list (word * nat) :=
  map_set freq token (default 0 (map_get freq token) + 1).

Definition count_tokens (texts : list (list ascii)) : list (word * nat) :=
  fold_left (fun freq text => fold_left count_token (tokenize text) freq) texts [].

(** [.sort((a, b) => b[1] - a[1])]: by count, the larger first; the
    sort is stable, so entries of equal counts keep their order, which
    fixes the result.  An entry is inserted into the sorted entries
    that followed it, before the first whose count is not larger. *)
Fixpoint insert_entry (x : word * nat) (l : list (word * nat)) : list (word * nat) :=
  match l with
  | [] => [x]
  | y :: l' => if x.2 <? y.2 then y :: insert_entry x l' else x :: y :: l'
  end.

Definition sort_entries (l : list (word * nat)) : list (word * nat) :=
  fold_right insert_entry [] l.

(** [build(texts)] *)
Definition build (this : t) (texts : list (list ascii)) : t :=
  let freq := count_tokens texts in
  let sorted := sort_entries freq in
  let words := (take (maxSize this) sorted).*1 in
  mk (maxSize this) (index_map words) words.

(** [get size()] *)
Definition size (this : t) : nat := length (idx2word this).

Record json := mk_json { j_maxSize : option nat; j_words : list word }.

Definition toJSON (this : t) : json := mk_json (Some (maxSize this)) (idx2word this).

(** [static fromJSON(json)] *)
Definition fromJSON (j : json) : t :=
  let v := new (j_maxSize j) in
  mk (maxSize v) (index_map (j_words j)) (j_words j).

(** How often a word is one of a list of tokens, and of the tokens of
    the texts. *)
Definition tally (seen : list word) (w : word) : nat :=
  length (filter (fun t => t = w) seen).

Definition occurrences (texts : list (list ascii)) (w : word) : nat :=
  tally (concat (tokenize <$> texts)) w.

(** A map of counts that holds, for every token of [seen], how often
    it is there. *)
Definition counted (freq : list (word * nat)) (seen : list word) : Prop :=
  NoDup freq.*1
  /\ forall w, map_get freq w = if decide (w ∈ seen) then Some (tally seen w) else None.

(** Entries by count, no entry before one of a larger count. *)
Definition descending (l : list (word * nat)) : Prop :=
  forall i j x y, l !! i = Some x -> l !! j = Some y -> i < j -> y.2 <= x.2.

(** Whether one of the tokens has the index [i] in a map of
    indices. *)
Definition marks (m : list (word * nat)) (tokens : list word) (i : nat) : bool :=
  existsb (fun t => bool_decide (map_get m t = Some i)) tokens.

Section Encode.
Context {F : Type} {NF : Number F}.

(** [encode(text)]: the bag of words, a column with a [1] at the index
    of every token the vocabulary knows. *)
Definition encode (this : t) (text : list ascii) : M F Matrix.t :=
  let tokens := tokenize text in
  vec <- Matrix.zeros (size this) 1 ;;
  for_of tokens (fun t _ =>
    match map_get (word2idx this) t with
    | Some idx => store_at (Matrix.data vec) idx (of_nat 1)
    | None => ret tt
    end) tt ;;;
  ret vec.

(** What one round of the loop of [encode] does to the column. *)
Definition mark_token (m : list (word * nat)) (buf : buffer F) (t : word) : buffer F :=
  match map_get m t with
  | Some idx => <[idx := of_nat 1]> buf
  | None => buf
  end.
End Encode.
End Vocabulary.

Section Dominant.
Context {F : Type} {NF : Number F}.

(** [dominant(scores)], on the entries of [scores] in the order
    [Object.entries] lists them; [None] is [null]. *)
Definition dominant (scores : list (word * F)) : option word :=
  (fold_left (fun r kv => if fgt kv.2 r.2 then (Some kv.1, kv.2) else r)
     scores (None, fneg (of_nat 1))).1.
End Dominant.
End Sentiment.

(** More concrete inputs: a network whose [hiddenActivation] names no
    activation, in the store of [Concrete.net]; two texts, a
    vocabulary and scores. *)
Module Inputs.
Definition net_unknown : Network.t :=
  Network.mk [1; 2; 2] "swish" [Matrix.mk 2 1 0; Matrix.mk 2 2 2]
    [Matrix.mk 2 1 1; Matrix.mk 2 1 3].

Definition no_callback : Network.options float :=
  Network.mk_options float None (Some 2) (Some 0) None None.

Definition hello : list ascii := list_ascii_of_string "Hello".
Definition big_world : list ascii := list_ascii_of_string "big World".
Definition comma : ascii := ","%char.
Definition ok : list ascii := list_ascii_of_string "Ok2".

Definition vocabulary : Sentiment.Vocabulary.t :=
  Sentiment.Vocabulary.mk 500 []
    [list_ascii_of_string "good"; list_ascii_of_string "bad"].

Definition scores : list (Sentiment.word * R) :=
  [(list_ascii_of_string "joy", (/ 4)%R); (list_ascii_of_string "fear", (/ 2)%R);
   (list_ascii_of_string "anger", (/ 2)%R)].
End Inputs.

(** * Code that works on its last buffer *)

Section CalculusLemmas.
Context {F : Type} {NF : Number F}.
Implicit Types (h : list (buffer F)) (c : buffer F) (w : world F).

Lemma Local_ret {A} h (a : A) : Local h (ret a) (fun c => (a, c)).
Proof. by intros c d. Qed.

Lemma Local_bind {A B} h (m : M F A) (k : A -> M F B) f g :
  Local h m f -> (forall a, Local h (k a) (g a)) ->
  Local h (bind m k) (fun c => g (f c).1 (f c).2).
Proof. intros Hm Hk c d. unfold bind. rewrite Hm. apply Hk. Qed.

Lemma Local_ext {A} h (m : M F A) f g :
  Local h m f -> (forall c, f c = g c) -> Local h m g.
Proof. intros Hm Hfg c d. rewrite <- Hfg. apply Hm. Qed.

Lemma lookup_last_buffer h c : (h ++ [c]) !! length h = Some c.
Proof. by rewrite lookup_app_r, Nat.sub_diag. Qed.

Lemma Local_load_old h l i :
  l < length h ->
  Local h (load_at l i) (fun c => (buf_get (default [] (h !! l)) i, c)).
Proof. intros Hl c d. unfold load_at. simpl. by rewrite lookup_app_l. Qed.

Lemma Local_load_new h i :
  Local h (load_at (length h) i) (fun c => (buf_get c i, c)).
Proof. intros c d. unfold load_at. simpl. by rewrite lookup_last_buffer. Qed.

Lemma Local_length_old h l :
  l < length h ->
  Local h (length_at l) (fun c => (length (default [] (h !! l)), c)).
Proof. intros Hl c d. unfold length_at. simpl. by rewrite lookup_app_l. Qed.

Lemma Local_store h i v :
  Local h (store_at (length h) i v) (fun c => (tt, <[i := v]> c)).
Proof.
  intros c d. unfold store_at. simpl. do 2 f_equal.
  rewrite alter_app_r_alt, Nat.sub_diag by lia. done.
Qed.

Lemma Local_defined {A} h (a : A) : Local h (defined (Some a)) (fun c => (a, c)).
Proof. by intros c d. Qed.

Lemma Local_for {S} h (body : nat -> S -> M F S) f n :
  (forall i s, Local h (body i s) (f i s)) ->
  forall i s, Local h (for_loop n i body s) (bfor n i f s).
Proof.
  intros Hb. induction n as [|n IH]; intros i s c d; simpl; [done|].
  unfold bind. rewrite Hb. apply IH.
Qed.

Lemma Local_if {A} h (b : bool) (m1 m2 : M F A) f1 f2 :
  Local h m1 f1 -> Local h m2 f2 ->
  Local h (if b then m1 else m2) (if b then f1 else f2).
Proof. by destruct b. Qed.
End CalculusLemmas.

(** * Loops on a buffer *)

Section BufferLoops.
Context {F : Type} {NF : Number F}.
Implicit Types (h : list (buffer F)) (c : buffer F) (w : world F).

Lemma bfor_snoc {S} n i (f : nat -> S -> buffer F -> S * buffer F) s c :
  bfor (Datatypes.S n) i f s c = let r := bfor n i f s c in f (i + n) r.1 r.2.
Proof.
  revert i s c. induction n as [|n IH]; intros i s c.
  - simpl. rewrite Nat.add_0_r. by destruct (f i s c).
  - change (bfor (Datatypes.S (Datatypes.S n)) i f s c)
      with (bfor (Datatypes.S n) (Datatypes.S i) f (f i s c).1 (f i s c).2).
    rewrite IH. simpl. by rewrite Nat.add_succ_r.
Qed.

Lemma bfor_ext {S} n i (f g : nat -> S -> buffer F -> S * buffer F) s c :
  (forall k s c, i <= k < i + n -> f k s c = g k s c) ->
  bfor n i f s c = bfor n i g s c.
Proof.
  revert i s c. induction n as [|n IH]; intros i s c Hfg; simpl; [done|].
  rewrite Hfg by lia. apply IH. intros. apply Hfg. lia.
Qed.

Lemma length_tabulate n (f : nat -> F) : length (tabulate n f) = n.
Proof. unfold tabulate. by rewrite length_map, length_seq. Qed.

Lemma lookup_tabulate n (f : nat -> F) q :
  tabulate n f !! q = if decide (q < n) then Some (f q) else None.
Proof.
  unfold tabulate. rewrite list_lookup_fmap. case_decide.
  - by rewrite lookup_seq_lt.
  - by rewrite lookup_seq_ge by lia.
Qed.

Lemma tabulate_ext n (f g : nat -> F) :
  (forall q, q < n -> f q = g q) -> tabulate n f = tabulate n g.
Proof.
  intros Hfg. apply list_eq. intros q. rewrite !lookup_tabulate.
  case_decide; [|done]. by rewrite Hfg.
Qed.

Lemma replicate_tabulate n (z : F) : replicate n z = tabulate n (fun _ => z).
Proof.
  apply list_eq. intros q. rewrite lookup_tabulate. case_decide.
  - by apply lookup_replicate_2.
  - apply lookup_replicate_None. lia.
Qed.

Lemma insert_tabulate n (f : nat -> F) p v :
  <[p := v]> (tabulate n f) = tabulate n (fun q => if decide (q = p) then v else f q).
Proof.
  apply list_eq. intros q. rewrite list_lookup_insert, !lookup_tabulate, length_tabulate.
  repeat case_decide; try done; try lia. 
Qed.

Lemma buf_get_tabulate n (f : nat -> F) q :
  q < n -> buf_get (tabulate n f) q = f q.
Proof. intros Hq. unfold buf_get. rewrite lookup_tabulate. by case_decide. Qed.

Lemma buf_get_ge (b : buffer F) q : length b <= q -> buf_get b q = NaN.
Proof. intros Hq. unfold buf_get. by rewrite lookup_ge_None_2. Qed.

(** A loop that writes [g k] at [idx k], for [k < n]: with [idx]
    one-to-one, position [q] holds [g (inv q)] when it was written. *)
Lemma bfor_scatter (idx inv : nat -> nat) (g : nat -> F) N n (f0 : nat -> F) :
  (forall k, k < n -> inv (idx k) = k) ->
  bfor n 0 (fun k (_ : unit) c => (tt, <[idx k := g k]> c)) tt (tabulate N f0)
  = (tt, tabulate N (fun q => if decide (inv q < n /\ idx (inv q) = q)
                              then g (inv q) else f0 q)).
Proof.
  induction n as [|n IH]; intros Hinv.
  - done.
  - rewrite bfor_snoc. rewrite IH by (intros; apply Hinv; lia). simpl.
    f_equal. rewrite insert_tabulate. apply tabulate_ext. intros q _.
    pose proof (Hinv n ltac:(lia)) as En.
    repeat case_decide; try done; subst.
    + by rewrite En.
    + exfalso. rewrite En in *. intuition lia.
    + exfalso. intuition lia.
    + exfalso. destruct (decide (inv q = n)) as [E|]; [|intuition lia].
      rewrite E in *. intuition congruence.
Qed.
End BufferLoops.

(** * The matrix operations, run *)

Section MoreLoops.
Context {F : Type} {NF : Number F}.
Implicit Types (h : list (buffer F)) (c : buffer F) (w : world F).

Lemma bfor_add {S} a b i (f : nat -> S -> buffer F -> S * buffer F) s c :
  bfor (a + b) i f s c = let r := bfor a i f s c in bfor b (i + a) f r.1 r.2.
Proof.
  revert i s c. induction a as [|a IH]; intros i s c; simpl.
  - by rewrite Nat.add_0_r.
  - rewrite IH. simpl. by rewrite Nat.add_succ_r.
Qed.

Lemma bfor_shift {S} n i (f : nat -> S -> buffer F -> S * buffer F) s c :
  bfor n i f s c = bfor n 0 (fun k => f (i + k)) s c.
Proof.
  revert i f s c. induction n as [|n IH]; intros i f s c; simpl; [done|].
  rewrite Nat.add_0_r. rewrite (IH (Datatypes.S i)), (IH 1 (fun k => f (i + k))).
  apply bfor_ext.
  intros k s' c' _. f_equal. lia.
Qed.

(** Two nested loops are one loop over the row-major positions. *)
Lemma bfor_flatten m p (body : nat -> nat -> buffer F -> unit * buffer F) c :
  bfor m 0 (fun i (_ : unit) c => bfor p 0 (fun j _ c => body i j c) tt c) tt c
  = bfor (m * p) 0 (fun t _ c => body (t / p) (t mod p) c) tt c.
Proof.
  induction m as [|m IH]; [done|].
  rewrite bfor_snoc, IH. replace (Datatypes.S m * p) with (m * p + p) by lia.
  rewrite bfor_add. simpl.
  destruct (bfor (m * p) 0 _ tt c) as [[] c']. simpl.
  rewrite (bfor_shift p (m * p)). apply bfor_ext. intros k [] c'' Hk.
  destruct (decide (p = 0)) as [->|Hp]; [lia|].
  f_equal.
  - rewrite Nat.add_comm, Nat.div_add by done. rewrite Nat.div_small by lia. done.
  - rewrite Nat.add_comm, Nat.Div0.mod_add. rewrite Nat.mod_small by lia. done.
Qed.

(** A loop that only reads. *)
Lemma bfor_pure {S} n i (g : nat -> S -> S) (s : S) c :
  bfor n i (fun k s c => (g k s, c)) s c = (fold_left (fun s k => g k s) (seq i n) s, c).
Proof. revert i s. induction n as [|n IH]; intros i s; simpl; [done|]. apply IH. Qed.

Lemma bfor_length {S} n i (f : nat -> S -> buffer F -> S * buffer F) s c :
  (forall k s c, length (f k s c).2 = length c) ->
  length (bfor n i f s c).2 = length c.
Proof.
  intros Hf. revert i s c. induction n as [|n IH]; intros i s c; simpl; [done|].
  rewrite IH. apply Hf.
Qed.

Lemma Local_bind_ret {A B} h (a : A) (k : A -> M F B) g :
  Local h (k a) g -> Local h (bind (ret a) k) g.
Proof. intros Hk c d. apply Hk. Qed.

Lemma push_heap w c : heap (push w c) = heap w ++ [c].
Proof. done. Qed.

Lemma world_eta w : World (heap w) (draws w) = w.
Proof. by destruct w. Qed.

Lemma Local_run {A} w (m : M F A) f c :
  Local (heap w) m f -> m (push w c) = Ok (f c).1 (push w (f c).2).
Proof. intros Hm. apply Hm. Qed.

Lemma new_NoData (r k : nat) w :
  Matrix.new r k Matrix.NoData w
  = Ok (Matrix.mk r k (length (heap w))) (push w (replicate (r * k) Matrix.zero)).
Proof. done. Qed.

Lemma deref_push w c m :
  valid w m -> deref (push w c) m = deref w m.
Proof. intros Hm. unfold deref, push. simpl. by rewrite lookup_app_l. Qed.

Lemma deref_new w c r k :
  deref (push w c) (Matrix.mk r k (length (heap w))) = mk_mat r k c.
Proof. unfold deref, push. simpl. by rewrite lookup_last_buffer. Qed.
End MoreLoops.

Ltac local_step :=
  cbv beta;
  lazymatch goal with
  | |- Local _ (ret _) _ => apply Local_ret
  | |- Local _ (bind (defined (Some _)) _) _ => apply Local_bind_ret
  | |- Local _ (bind (ret _) _) _ => apply Local_bind_ret
  | |- Local _ (bind _ _) _ => eapply Local_bind; [|intros ?]
  | |- Local _ (store_at _ _ _) _ => apply Local_store
  | |- Local _ (load_at _ _) _ =>
      first [apply Local_load_new | apply Local_load_old; assumption]
  | |- Local _ (length_at _) _ => apply Local_length_old; assumption
  | |- Local _ (defined (Some _)) _ => apply Local_defined
  | |- Local _ (for_loop _ _ _ _) _ => apply Local_for; intros ? ?
  | |- Local _ (if _ then _ else _) _ => apply Local_if
  end.
Ltac local := repeat local_step.

Section MatrixRuns.
Context {F : Type} {NF : Number F}.
Implicit Types (h : list (buffer F)) (c : buffer F) (w : world F).

Lemma bfor_fill n N (g : nat -> F) (z : F) :
  (bfor n 0 (fun i (_ : unit) c => (tt, <[i := g i]> c)) tt (replicate N z)).2
  = tabulate N (fun q => if decide (q < n) then g q else z).
Proof.
  rewrite replicate_tabulate.
  rewrite (bfor_scatter (fun k => k) (fun k => k) g) by done. simpl.
  apply tabulate_ext. intros q _. repeat case_decide; try done; exfalso; intuition lia.
Qed.

Lemma bfor_fill_grid m p (g : nat -> nat -> F) (z : F) :
  (bfor m 0 (fun i (_ : unit) c =>
     bfor p 0 (fun j (_ : unit) c => (tt, <[i * p + j := g i j]> c)) tt c) tt
     (replicate (m * p) z)).2
  = tabulate (m * p) (fun q => g (q / p) (q mod p)).
Proof.
  rewrite (bfor_flatten m p (fun i j c => (tt, <[i * p + j := g i j]> c))).
  rewrite replicate_tabulate.
  rewrite (bfor_scatter (fun t => t / p * p + t mod p) (fun k => k)
             (fun t => g (t / p) (t mod p))).
  - simpl. apply tabulate_ext. intros q Hq. case_decide as H; [done|].
    exfalso. apply H. split; [done|].
    destruct (decide (p = 0)) as [->|Hp]; [lia|].
    pose proof (Nat.div_mod_eq q p). lia.
  - intros k Hk. destruct (decide (p = 0)) as [->|Hp]; [lia|].
    pose proof (Nat.div_mod_eq k p). lia.
Qed.

Lemma bfor_fill_transposed m n (g : nat -> nat -> F) (z : F) :
  (bfor m 0 (fun i (_ : unit) c =>
     bfor n 0 (fun j (_ : unit) c => (tt, <[j * m + i := g i j]> c)) tt c) tt
     (replicate (n * m) z)).2
  = tabulate (n * m) (fun q => g (q mod m) (q / m)).
Proof.
  rewrite (bfor_flatten m n (fun i j c => (tt, <[j * m + i := g i j]> c))).
  rewrite replicate_tabulate.
  rewrite (bfor_scatter (fun t => t mod n * m + t / n) (fun q => q mod m * n + q / m)
             (fun t => g (t / n) (t mod n))).
  - simpl. apply tabulate_ext. intros q Hq.
    assert (Hm : m <> 0) by lia. assert (Hn : n <> 0) by lia.
    assert (Hqm : q / m < n) by (apply Nat.Div0.div_lt_upper_bound; lia).
    assert (Hmod : q mod m < m) by (by apply Nat.mod_upper_bound).
    assert (E1 : (q mod m * n + q / m) / n = q mod m).
    { rewrite Nat.div_add_l by done. rewrite (Nat.div_small (q / m)) by done. lia. }
    assert (E2 : (q mod m * n + q / m) mod n = q / m).
    { rewrite Nat.add_comm, Nat.Div0.mod_add. by apply Nat.mod_small. }
    rewrite E1, E2. case_decide as H; [done|].
    exfalso. apply H. split.
    + apply Nat.lt_le_trans with (q mod m * n + n); [lia|]. nia.
    + pose proof (Nat.div_mod_eq q m). lia.
  - intros k Hk.
    assert (Hm : m <> 0) by lia. assert (Hn : n <> 0) by lia.
    assert (Hkn : k / n < m) by (apply Nat.Div0.div_lt_upper_bound; lia).
    assert (Hmod : k mod n < n) by (by apply Nat.mod_upper_bound).
    rewrite Nat.Div0.add_mod, Nat.Div0.mod_mul, Nat.add_0_l, Nat.Div0.mod_mod.
    rewrite (Nat.mod_small (k / n)) by done.
    rewrite Nat.div_add_l by done. rewrite (Nat.div_small (k / n)) by done.
    pose proof (Nat.div_mod_eq k n). lia.
Qed.

Lemma for_loop_reads {S} n (body : nat -> S -> M F S) (g : nat -> S -> S) w :
  (forall k s, body k s w = Ok (g k s) w) ->
  forall i s, for_loop n i body s w = Ok (fold_left (fun s k => g k s) (seq i n) s) w.
Proof.
  intros Hb. induction n as [|n IH]; intros i s; simpl; [done|].
  unfold bind. rewrite Hb. apply IH.
Qed.

Lemma add_run w this other :
  valid w this -> valid w other ->
  Matrix.add this (Some other) w
  = Ok (Matrix.mk (Matrix.rows this) (Matrix.cols this) (length (heap w)))
       (push w (entries (mat_add (deref w this) (deref w other)))).
Proof.
  intros Ht Ho. unfold Matrix.add, bind at 1. rewrite new_NoData.
  unfold valid in *. simpl.
  erewrite Local_run; [|local]. simpl. by rewrite bfor_fill.
Qed.

Lemma sub_run w this other :
  valid w this -> valid w other ->
  Matrix.sub this other w
  = Ok (Matrix.mk (Matrix.rows this) (Matrix.cols this) (length (heap w)))
       (push w (entries (mat_sub (deref w this) (deref w other)))).
Proof.
  intros Ht Ho. unfold Matrix.sub, bind at 1. rewrite new_NoData.
  unfold valid in *. simpl.
  erewrite Local_run; [|local]. simpl. by rewrite bfor_fill.
Qed.

Lemma hadamard_run w this other :
  valid w this -> valid w other ->
  Matrix.hadamard this other w
  = Ok (Matrix.mk (Matrix.rows this) (Matrix.cols this) (length (heap w)))
       (push w (entries (mat_hadamard (deref w this) (deref w other)))).
Proof.
  intros Ht Ho. unfold Matrix.hadamard, bind at 1. rewrite new_NoData.
  unfold valid in *. simpl.
  erewrite Local_run; [|local]. simpl. by rewrite bfor_fill.
Qed.

Lemma scale_run w this s :
  valid w this ->
  Matrix.scale this s w
  = Ok (Matrix.mk (Matrix.rows this) (Matrix.cols this) (length (heap w)))
       (push w (entries (mat_scale (deref w this) s))).
Proof.
  intros Ht. unfold Matrix.scale, bind at 1. rewrite new_NoData.
  unfold valid in *. simpl.
  erewrite Local_run; [|local]. simpl. by rewrite bfor_fill.
Qed.

Lemma map_run w this f :
  valid w this ->
  Matrix.map this (Some f) w
  = Ok (Matrix.mk (Matrix.rows this) (Matrix.cols this) (length (heap w)))
       (push w (entries (mat_map (deref w this) f))).
Proof.
  intros Ht. unfold Matrix.map, bind at 1. rewrite new_NoData.
  unfold valid in *. simpl.
  erewrite Local_run; [|local]. simpl.
  by rewrite (bfor_fill _ _ (fun i => f (buf_get (default [] (heap w !! Matrix.data this)) i) i)).
Qed.
End MatrixRuns.

Section MatrixRuns2.
Context {F : Type} {NF : Number F}.
Implicit Types (h : list (buffer F)) (c : buffer F) (w : world F).

Lemma bfor_ext2 m p (f g : nat -> nat -> buffer F -> unit * buffer F) c :
  (forall i j c, f i j c = g i j c) ->
  bfor m 0 (fun i (_ : unit) => bfor p 0 (fun j (_ : unit) c => f i j c) tt) tt c
  = bfor m 0 (fun i (_ : unit) => bfor p 0 (fun j (_ : unit) c => g i j c) tt) tt c.
Proof.
  intros Hfg. apply bfor_ext. intros i [] c' _. apply bfor_ext. intros j [] c'' _.
  apply Hfg.
Qed.

Lemma mul_run w this other :
  valid w this -> valid w other ->
  Matrix.mul this other w
  = Ok (Matrix.mk (Matrix.rows this) (Matrix.cols other) (length (heap w)))
       (push w (entries (mat_mul (deref w this) (deref w other)))).
Proof.
  intros Ht Ho. unfold Matrix.mul, bind at 1. rewrite new_NoData.
  unfold valid in *. simpl.
  erewrite Local_run; [|local]. simpl.
  erewrite bfor_ext2; [by rewrite (bfor_fill_grid _ _ (dot (deref w this) (deref w other)))|].
  intros i j c. simpl. rewrite bfor_pure. simpl. f_equal.
Qed.

Lemma transpose_run w this :
  valid w this ->
  Matrix.transpose this w
  = Ok (Matrix.mk (Matrix.cols this) (Matrix.rows this) (length (heap w)))
       (push w (entries (mat_transpose (deref w this)))).
Proof.
  intros Ht. unfold Matrix.transpose, bind at 1. rewrite new_NoData.
  unfold valid in *. simpl.
  erewrite Local_run; [|local]. simpl.
  erewrite bfor_ext2;
    [by rewrite (bfor_fill_transposed _ _ (entry (deref w this)))|].
  done.
Qed.

Lemma addVec_run w this vec :
  valid w this -> valid w vec ->
  Matrix.addVec this vec w
  = Ok (Matrix.mk (Matrix.rows this) (Matrix.cols this) (length (heap w)))
       (push w (entries (mat_addVec (deref w this) (deref w vec)))).
Proof.
  intros Ht Hv. unfold Matrix.addVec, bind at 1. rewrite new_NoData.
  unfold valid in *. simpl.
  erewrite Local_run; [|local]. simpl.
  erewrite bfor_ext2;
    [rewrite (bfor_fill_grid _ _
       (fun i j => fadd (entry (deref w this) i j) (at_ (deref w vec) i)))|done].
  simpl. f_equal. unfold push. do 3 f_equal. apply tabulate_ext. intros q Hq.
  assert (Matrix.cols this <> 0) by lia.
  unfold entry. simpl. do 2 f_equal.
  pose proof (Nat.div_mod_eq q (Matrix.cols this)). lia.
Qed.

Lemma toArray_run w this :
  Matrix.toArray this w = Ok (entries (deref w this)) w.
Proof. done. Qed.

Lemma toJSON_run w this :
  Matrix.toJSON this w
  = Ok (Matrix.mk_json F (Matrix.rows this) (Matrix.cols this) (entries (deref w this))) w.
Proof. done. Qed.

Lemma clone_run w this :
  Matrix.clone this w
  = Ok (Matrix.mk (Matrix.rows this) (Matrix.cols this) (length (heap w)))
       (push w (entries (deref w this))).
Proof. done. Qed.

Lemma new_ArrayData (r k : nat) (xs : list F) w :
  Matrix.new r k (Matrix.ArrayData xs) w
  = Ok (Matrix.mk r k (length (heap w))) (push w (array_buffer r k xs)).
Proof.
  unfold Matrix.new, bind at 1. unfold alloc at 1. fold (push w (replicate (r * k) Matrix.zero)).
  unfold bind at 1.
  erewrite Local_run; [|local]. simpl.
  by rewrite (bfor_fill _ _ (fun i => default NaN (xs !! i))).
Qed.

Lemma fromJSON_run (j : Matrix.json F) w :
  Matrix.fromJSON j w
  = Ok (Matrix.mk (Matrix.j_rows j) (Matrix.j_cols j) (length (heap w)))
       (push w (array_buffer (Matrix.j_rows j) (Matrix.j_cols j) (Matrix.j_data j))).
Proof. apply new_ArrayData. Qed.
End MatrixRuns2.

Section SoftmaxRuns.
Context {F : Type} {NF : Number F}.
Implicit Types (h : list (buffer F)) (c : buffer F) (w : world F).

(** The second loop of [softmax]: each exponential is written, read
    back and added to the sum. *)
Lemma bfor_write_sum n N (e : nat -> F) (z s0 : F) :
  n <= N ->
  bfor n 0 (fun i s c => (fadd s (buf_get (<[i := e i]> c) i), <[i := e i]> c))
       s0 (replicate N z)
  = (fold_left (fun s k => fadd s (e k)) (seq 0 n) s0,
     tabulate N (fun q => if decide (q < n) then e q else z)).
Proof.
  induction n as [|n IH]; intros Hn.
  - simpl. by rewrite replicate_tabulate.
  - rewrite bfor_snoc, IH by lia. rewrite seq_S, fold_left_app. simpl.
    rewrite insert_tabulate. f_equal.
    + f_equal. rewrite buf_get_tabulate by lia. by rewrite decide_True.
    + apply tabulate_ext. intros q _. repeat case_decide; subst; try done; lia.
Qed.

(** The third loop: each element is divided in place. *)
Lemma bfor_update n N (f : F -> F) (g : nat -> F) :
  n <= N ->
  bfor n 0 (fun i (_ : unit) c => (tt, <[i := f (buf_get c i)]> c)) tt (tabulate N g)
  = (tt, tabulate N (fun q => if decide (q < n) then f (g q) else g q)).
Proof.
  induction n as [|n IH]; intros Hn.
  - simpl. f_equal.
  - rewrite bfor_snoc, IH by lia. simpl.
    rewrite insert_tabulate. f_equal.
    apply tabulate_ext. intros q _. rewrite buf_get_tabulate by lia.
    repeat case_decide; subst; try done; lia.
Qed.

Lemma softmax_run w vec :
  valid w vec ->
  softmax vec w
  = Ok (Matrix.mk (Matrix.rows vec) 1 (length (heap w)))
       (push w (entries (mat_softmax (deref w vec)))).
Proof.
  intros Hv. unfold softmax, bind at 1. rewrite new_NoData.
  unfold valid in *. simpl.
  erewrite Local_run; [|local]. simpl.
  rewrite bfor_pure. simpl.
  rewrite Nat.mul_1_r.
  erewrite bfor_write_sum by done. simpl.
  erewrite (bfor_update _ _ (fun x => fdiv x _)) by done. simpl.
  unfold push. do 4 f_equal. apply tabulate_ext. intros q Hq. by rewrite !decide_True.
Qed.

Lemma crossEntropyLoss_run w predicted target :
  crossEntropyLoss predicted target w
  = Ok (cross_entropy (deref w predicted) (deref w target)) w.
Proof.
  unfold crossEntropyLoss.
  rewrite (for_loop_reads _ _
    (fun i loss =>
       if fgt (at_ (deref w target) i) (of_nat 0)
       then fsub loss (fmul (at_ (deref w target) i)
                         (Math_log (Math_max (at_ (deref w predicted) i) lit_1e_15)))
       else loss)); [done|].
  intros k s. unfold bind, load_at. simpl.
  fold (at_ (deref w target) k). by destruct (fgt _ _).
Qed.
End SoftmaxRuns.

(** * Specifications of runs *)

Section RunSat.
Context {F : Type} {NF : Number F}.
Implicit Types (h : list (buffer F)) (c : buffer F) (w : world F).

Lemma sat_ret {A} (a : A) w (Q : A -> world F -> Prop) E T :
  Q a w -> run_sat (ret a) w Q E T.
Proof. done. Qed.

Lemma sat_throw {A} e w (Q : A -> world F -> Prop) (E : error -> world F -> Prop) T :
  E e w -> run_sat (throw e) w Q E T.
Proof. done. Qed.

Lemma sat_bind {A B} (m : M F A) (k : A -> M F B) w
    (Q' : A -> world F -> Prop) (Q : B -> world F -> Prop) E T :
  run_sat m w Q' E T ->
  (forall a w', Q' a w' -> run_sat (k a) w' Q E T) ->
  run_sat (bind m k) w Q E T.
Proof.
  unfold run_sat, bind. intros Hm Hk. destruct (m w) as [a w'| |]; [|done..].
  by apply Hk.
Qed.

Lemma sat_weaken {A} (m : M F A) w (Q Q' : A -> world F -> Prop)
    (E E' : error -> world F -> Prop) (T T' : Prop) :
  run_sat m w Q E T ->
  (forall a w', Q a w' -> Q' a w') -> (forall e w', E e w' -> E' e w') -> (T -> T') ->
  run_sat m w Q' E' T'.
Proof.
  unfold run_sat. intros Hm HQ HE HT. destruct (m w); auto.
Qed.

Lemma sat_eq {A} (m : M F A) w a w' (Q : A -> world F -> Prop) E T :
  m w = Ok a w' -> Q a w' -> run_sat m w Q E T.
Proof. unfold run_sat. by intros ->. Qed.

Lemma sat_for_loop {S} (I : nat -> S -> world F -> Prop) n (body : nat -> S -> M F S) E T :
  (forall k s w, I k s w -> run_sat (body k s) w (I (Datatypes.S k)) E T) ->
  forall i s w, I i s w -> run_sat (for_loop n i body s) w (I (i + n)) E T.
Proof.
  intros Hb. induction n as [|n IH]; intros i s w HI; simpl.
  - rewrite Nat.add_0_r. by apply sat_ret.
  - eapply sat_bind; [by apply Hb|]. intros s' w' HI'.
    rewrite Nat.add_succ_r. by apply (IH (Datatypes.S i)).
Qed.

Lemma sat_for_down {S} (I : nat -> S -> world F -> Prop) n (body : nat -> S -> M F S) E T :
  (forall k s w, k < n -> I (Datatypes.S k) s w -> run_sat (body k s) w (I k) E T) ->
  forall s w, I n s w -> run_sat (for_down n body s) w (I 0) E T.
Proof.
  induction n as [|n IH]; intros Hb s w HI; simpl.
  - by apply sat_ret.
  - eapply sat_bind; [apply Hb; [lia|done]|]. intros s' w' HI'.
    apply IH; [|done]. intros. apply Hb; [lia|done].
Qed.

Lemma sat_for_of {A S} (I : list A -> S -> world F -> Prop) (xs : list A)
    (body : A -> S -> M F S) E T :
  (forall done x s w, I done s w -> x ∈ xs -> run_sat (body x s) w (I (done ++ [x])) E T) ->
  forall s w, I [] s w -> run_sat (for_of xs body s) w (I xs) E T.
Proof.
  intros Hb.
  assert (G : forall rest done s w, done ++ rest = xs -> I done s w ->
              run_sat (for_of rest body s) w (I xs) E T).
  { induction rest as [|x rest IH]; intros done s w Hxs HI; simpl.
    - rewrite app_nil_r in Hxs. subst. by apply sat_ret.
    - eapply sat_bind.
      + apply Hb; [done|]. subst. rewrite elem_of_app, elem_of_cons. auto.
      + intros s' w' HI'. apply (IH (done ++ [x])); [|done].
        by rewrite <- app_assoc. }
  intros s w HI. by apply (G xs []).
Qed.

Lemma sat_map_M {A B} (P : B -> world F -> Prop) (J : world F -> Prop)
    (f : A -> M F B) (xs : list A) E T :
  (forall x w, J w -> x ∈ xs ->
     run_sat (f x) w (fun y w' => J w' /\ P y w' /\ forall y', P y' w -> P y' w') E T) ->
  forall w, J w ->
  run_sat (map_M f xs) w
    (fun ys w' => J w' /\ length ys = length xs /\ Forall (fun y => P y w') ys
                  /\ forall y', P y' w -> P y' w') E T.
Proof.
  induction xs as [|x xs IH]; intros Hf w HJ; simpl.
  - apply sat_ret. split; [done|]. split; [done|]. split; [constructor|done].
  - eapply sat_bind; [apply Hf; [done|rewrite elem_of_cons; auto]|].
    intros y w1 (HJ1 & HP1 & Hmono1).
    eapply sat_bind.
    + apply IH; [|done]. intros. apply Hf; [done|rewrite elem_of_cons; auto].
    + intros ys w2 (HJ2 & Hlen & HP2 & Hmono2). apply sat_ret.
      split; [done|]. split; [simpl; lia|]. split; [|naive_solver].
      constructor; [naive_solver|done].
Qed.

(** ** The store grows *)

Lemma grows_refl w : grows w w.
Proof. by unfold grows. Qed.

Lemma grows_trans w1 w2 w3 : grows w1 w2 -> grows w2 w3 -> grows w1 w3.
Proof. unfold grows. by intros ? ?; etrans. Qed.

Lemma grows_push w c : grows w (push w c).
Proof. by apply prefix_app_r. Qed.

Lemma grows_valid w w' m : grows w w' -> valid w m -> valid w' m.
Proof.
  unfold grows, valid. intros Hg Hv. apply prefix_length in Hg. lia.
Qed.

Lemma grows_deref w w' m : grows w w' -> valid w m -> deref w' m = deref w m.
Proof.
  unfold grows, valid, deref. intros [ext ->] Hv. by rewrite lookup_app_l.
Qed.

Lemma valid_new w c (r k : nat) : valid (push w c) (Matrix.mk r k (length (heap w))).
Proof. unfold valid, push. simpl. rewrite length_app. simpl. lia. Qed.
End RunSat.

Section Returns.
Context {F : Type} {NF : Number F}.

Lemma returns_inv {A} (m : M F A) w (V : A -> world F -> Prop) :
  returns m w V -> exists a w', m w = Ok a w' /\ grows w w' /\ V a w'.
Proof.
  unfold returns, guarded, run_sat. destruct (m w) as [a w'| |]; [|tauto..].
  intros [Hg HV]. by exists a, w'.
Qed.

End Returns.

Section Guarded.
Context {F : Type} {NF : Number F}.
Context {E : error -> Prop} {T : Prop}.
Implicit Types (h : list (buffer F)) (c : buffer F) (w : world F).

Lemma guarded_ret {A} (a : A) w (V : A -> world F -> Prop) :
  V a w -> guarded E T (ret a) w V.
Proof. intros HV. split; [apply grows_refl|done]. Qed.

Lemma guarded_bind {A B} (m : M F A) (k : A -> M F B) w
    (V' : A -> world F -> Prop) (V : B -> world F -> Prop) :
  guarded E T m w V' ->
  (forall a w', grows w w' -> V' a w' -> guarded E T (k a) w' V) ->
  guarded E T (bind m k) w V.
Proof.
  unfold guarded, run_sat, bind. intros Hm Hk.
  destruct (m w) as [a w'|e w'|]; [|done..].
  destruct Hm as [Hg HV]. specialize (Hk a w' Hg HV).
  destruct (k a w') as [b w''|e w''|]; [|split; [tauto|]|done].
  - split; [|tauto]. eapply grows_trans; [done|tauto].
  - eapply grows_trans; [done|tauto].
Qed.

Lemma guarded_weaken {A} (m : M F A) w (V V' : A -> world F -> Prop) :
  guarded E T m w V -> (forall a w', grows w w' -> V a w' -> V' a w') ->
  guarded E T m w V'.
Proof.
  unfold guarded, run_sat. intros Hm HV. destruct (m w); [|done..].
  split; [tauto|]. apply HV; tauto.
Qed.

Lemma guarded_defined {A} (o : option A) w (V : A -> world F -> Prop) :
  E TypeError -> (forall a, o = Some a -> V a w) -> guarded E T (defined o) w V.
Proof.
  intros HE HV. destruct o as [a|]; simpl.
  - apply guarded_ret. by apply HV.
  - split; [done|apply grows_refl].
Qed.

Lemma guarded_defined_Some {A} (a : A) w (V : A -> world F -> Prop) :
  V a w -> guarded E T (defined (Some a)) w V.
Proof. apply guarded_ret. Qed.

Lemma guarded_bind_Some {A B} (a : A) (k : A -> M F B) w (V : B -> world F -> Prop) :
  guarded E T (k a) w V -> guarded E T (bind (defined (Some a)) k) w V.
Proof. done. Qed.

Lemma guarded_run {A} (m : M F A) w a c (V : A -> world F -> Prop) :
  m w = Ok a (push w c) -> V a (push w c) -> guarded E T m w V.
Proof.
  intros Hm HV. unfold guarded, run_sat. rewrite Hm. split; [apply grows_push|done].
Qed.

Lemma guarded_reads {A} (m : M F A) w a (V : A -> world F -> Prop) :
  m w = Ok a w -> V a w -> guarded E T m w V.
Proof.
  intros Hm HV. unfold guarded, run_sat. rewrite Hm. split; [apply grows_refl|done].
Qed.

Lemma guarded_if {A} (b : bool) (m1 m2 : M F A) w (V : A -> world F -> Prop) :
  (b = true -> guarded E T m1 w V) -> (b = false -> guarded E T m2 w V) ->
  guarded E T (if b then m1 else m2) w V.
Proof. destruct b; auto. Qed.

Lemma guarded_for_loop {S} (I : nat -> S -> world F -> Prop) n (body : nat -> S -> M F S) :
  forall i,
  (forall k s w, i <= k < i + n -> I k s w -> guarded E T (body k s) w (I (Datatypes.S k))) ->
  forall s w, I i s w -> guarded E T (for_loop n i body s) w (I (i + n)).
Proof.
  induction n as [|n IH]; intros i Hb s w HI; simpl.
  - rewrite Nat.add_0_r. by apply guarded_ret.
  - eapply guarded_bind; [apply Hb; [lia|done]|]. intros s' w' _ HI'.
    rewrite Nat.add_succ_r. apply (IH (Datatypes.S i)); [|done].
    intros. apply Hb; [lia|done].
Qed.

Lemma guarded_for_down {S} (I : nat -> S -> world F -> Prop) n (body : nat -> S -> M F S) :
  (forall k s w, k < n -> I (Datatypes.S k) s w -> guarded E T (body k s) w (I k)) ->
  forall s w, I n s w -> guarded E T (for_down n body s) w (I 0).
Proof.
  induction n as [|n IH]; intros Hb s w HI; simpl.
  - by apply guarded_ret.
  - eapply guarded_bind; [apply Hb; [lia|done]|]. intros s' w' _ HI'.
    apply IH; [|done]. intros. apply Hb; [lia|done].
Qed.

Lemma guarded_for_of {A S} (I : list A -> S -> world F -> Prop) (xs : list A)
    (body : A -> S -> M F S) :
  (forall pre x post s w, xs = pre ++ x :: post -> I pre s w ->
     guarded E T (body x s) w (I (pre ++ [x]))) ->
  forall s w, I [] s w -> guarded E T (for_of xs body s) w (I xs).
Proof.
  intros Hb.
  assert (G : forall rest pre s w, pre ++ rest = xs -> I pre s w ->
              guarded E T (for_of rest body s) w (I xs)).
  { induction rest as [|x rest IH]; intros pre s w Hxs HI; simpl.
    - rewrite app_nil_r in Hxs. subst. by apply guarded_ret.
    - eapply guarded_bind.
      + by eapply Hb.
      + intros s' w' _ HI'. apply (IH (pre ++ [x])); [|done].
        by rewrite <- app_assoc. }
  intros s w HI. by apply (G xs []).
Qed.

Lemma guarded_map_M {A B} (P : list B -> world F -> Prop) (f : A -> M F B) (xs : list A) :
  (forall pre x post ys w, xs = pre ++ x :: post -> P ys w ->
     guarded E T (f x) w (fun y w' => P (ys ++ [y]) w')) ->
  forall w, P [] w -> guarded E T (map_M f xs) w P.
Proof.
  intros Hf.
  assert (G : forall rest pre ys w, pre ++ rest = xs -> P ys w ->
              guarded E T (map_M f rest) w (fun zs w' => P (ys ++ zs) w')).
  { induction rest as [|x rest IH]; intros pre ys w Hxs HP; simpl.
    - apply guarded_ret. by rewrite app_nil_r.
    - eapply guarded_bind; [by eapply Hf|]. intros y w1 _ HP1.
      eapply guarded_bind.
      + apply (IH (pre ++ [x]) (ys ++ [y])); [by rewrite <- app_assoc|done].
      + intros zs w2 _ HP2. apply guarded_ret. cbv beta in HP2.
        by rewrite <- app_assoc in HP2. }
  intros w HP. by apply (G xs [] []).
Qed.

(** A run specified by [returns] meets every weaker specification. *)
Lemma returns_guarded {A} (m : M F A) w (V : A -> world F -> Prop) :
  returns m w V -> guarded E T m w V.
Proof.
  unfold returns, guarded, run_sat. destruct (m w); [done|tauto|tauto].
Qed.

(** ** What each matrix operation returns *)

Lemma fresh_intro w (r k : nat) (c : buffer F) :
  fresh w (mk_mat r k c) (Matrix.mk r k (length (heap w))) (push w c).
Proof. split; [apply valid_new|]. split; [apply deref_new|done]. Qed.

Lemma new_spec (r k : nat) w :
  guarded E T (Matrix.new r k Matrix.NoData) w
    (fresh w (mk_mat r k (replicate (r * k) (of_nat 0)))).
Proof. eapply guarded_run; [apply new_NoData|apply fresh_intro]. Qed.

Lemma zeros_spec (r k : nat) w :
  guarded E T (Matrix.zeros r k) w (fresh w (mk_mat r k (replicate (r * k) (of_nat 0)))).
Proof. apply new_spec. Qed.

Lemma fromJSON_spec (j : Matrix.json F) w :
  guarded E T (Matrix.fromJSON j) w
    (fresh w (mk_mat (Matrix.j_rows j) (Matrix.j_cols j)
                (array_buffer (Matrix.j_rows j) (Matrix.j_cols j) (Matrix.j_data j)))).
Proof. eapply guarded_run; [apply fromJSON_run|apply fresh_intro]. Qed.

Lemma add_spec w this other :
  valid w this -> valid w other ->
  guarded E T (Matrix.add this (Some other)) w
    (fresh w (mat_add (deref w this) (deref w other))).
Proof. intros. eapply guarded_run; [by apply add_run|apply fresh_intro]. Qed.

Lemma sub_spec w this other :
  valid w this -> valid w other ->
  guarded E T (Matrix.sub this other) w (fresh w (mat_sub (deref w this) (deref w other))).
Proof. intros. eapply guarded_run; [by apply sub_run|apply fresh_intro]. Qed.

Lemma mul_spec w this other :
  valid w this -> valid w other ->
  guarded E T (Matrix.mul this other) w (fresh w (mat_mul (deref w this) (deref w other))).
Proof. intros. eapply guarded_run; [by apply mul_run|apply fresh_intro]. Qed.

Lemma hadamard_spec w this other :
  valid w this -> valid w other ->
  guarded E T (Matrix.hadamard this other) w
    (fresh w (mat_hadamard (deref w this) (deref w other))).
Proof. intros. eapply guarded_run; [by apply hadamard_run|apply fresh_intro]. Qed.

Lemma scale_spec w this s :
  valid w this ->
  guarded E T (Matrix.scale this s) w (fresh w (mat_scale (deref w this) s)).
Proof. intros. eapply guarded_run; [by apply scale_run|apply fresh_intro]. Qed.

Lemma map_spec w this f :
  valid w this ->
  guarded E T (Matrix.map this (Some f)) w (fresh w (mat_map (deref w this) f)).
Proof. intros. eapply guarded_run; [by apply map_run|apply fresh_intro]. Qed.

Lemma transpose_spec w this :
  valid w this ->
  guarded E T (Matrix.transpose this) w (fresh w (mat_transpose (deref w this))).
Proof. intros. eapply guarded_run; [by apply transpose_run|apply fresh_intro]. Qed.

Lemma addVec_spec w this vec :
  valid w this -> valid w vec ->
  guarded E T (Matrix.addVec this vec) w
    (fresh w (mat_addVec (deref w this) (deref w vec))).
Proof. intros. eapply guarded_run; [by apply addVec_run|apply fresh_intro]. Qed.

Lemma clone_spec w this :
  guarded E T (Matrix.clone this) w (fresh w (deref w this)).
Proof.
  eapply guarded_run; [apply clone_run|]. destruct this. apply fresh_intro.
Qed.

Lemma softmax_spec w vec :
  valid w vec ->
  guarded E T (softmax vec) w (fresh w (mat_softmax (deref w vec))).
Proof. intros. eapply guarded_run; [by apply softmax_run|apply fresh_intro]. Qed.

Lemma crossEntropyLoss_spec w p t :
  guarded E T (crossEntropyLoss p t) w
    (fun l w' => w' = w /\ l = cross_entropy (deref w p) (deref w t)).
Proof. eapply guarded_reads; [apply crossEntropyLoss_run|done]. Qed.

(** ** Operations on an argument that may be [undefined] *)

Lemma for_loop_zero {S} n i (body : nat -> S -> M F S) s :
  n = 0 -> for_loop n i body s = ret s.
Proof. by intros ->. Qed.

Lemma for_loop_throw_first {S} n i (body : nat -> S -> M F S) s e w w' :
  n <> 0 -> body i s w = Throw e w' -> for_loop n i body s w = Throw e w'.
Proof. intros Hn Hb. destruct n; [done|]. simpl. unfold bind. by rewrite Hb. Qed.

Lemma add_undefined_run w this :
  valid w this ->
  Matrix.add this None w
  = let w' := push w (replicate (Matrix.rows this * Matrix.cols this) Matrix.zero) in
    if decide (length (entries (deref w this)) = 0)
    then Ok (Matrix.mk (Matrix.rows this) (Matrix.cols this) (length (heap w))) w'
    else Throw TypeError w'.
Proof.
  intros Ht. unfold Matrix.add, bind at 1. rewrite new_NoData. unfold bind at 1.
  unfold length_at at 1, deref. simpl.
  rewrite lookup_app_l by done.
  case_decide as E0.
  - by rewrite (for_loop_zero _ _ _ _ E0).
  - unfold bind at 1. by erewrite for_loop_throw_first; [|exact E0|].
Qed.

Lemma map_undefined_run w this :
  valid w this ->
  Matrix.map this None w
  = let w' := push w (replicate (Matrix.rows this * Matrix.cols this) Matrix.zero) in
    if decide (length (entries (deref w this)) = 0)
    then Ok (Matrix.mk (Matrix.rows this) (Matrix.cols this) (length (heap w))) w'
    else Throw TypeError w'.
Proof.
  intros Ht. unfold Matrix.map, bind at 1. rewrite new_NoData. unfold bind at 1.
  unfold length_at at 1, deref. simpl.
  rewrite lookup_app_l by done.
  case_decide as E0.
  - by rewrite (for_loop_zero _ _ _ _ E0).
  - unfold bind at 1. by erewrite for_loop_throw_first; [|exact E0|].
Qed.

Lemma safe_add w this other :
  E TypeError ->
  valid w this -> (forall o, other = Some o -> valid w o) ->
  guarded E T (Matrix.add this other) w (fun m w' => valid w' m).
Proof.
  intros HE Ht Ho. destruct other as [o|].
  - eapply guarded_weaken; [apply add_spec; auto|]. by intros m w' _ [? _].
  - unfold guarded, run_sat. rewrite add_undefined_run by done. simpl.
    case_decide; (split; [try done; apply grows_push|]);
      [apply valid_new|apply grows_push].
Qed.

Lemma safe_map w this fn :
  E TypeError ->
  valid w this -> guarded E T (Matrix.map this fn) w (fun m w' => valid w' m).
Proof.
  intros HE Ht. destruct fn as [f|].
  - eapply guarded_weaken; [by apply map_spec|]. by intros m w' _ [? _].
  - unfold guarded, run_sat. rewrite map_undefined_run by done. simpl.
    case_decide; (split; [try done; apply grows_push|]);
      [apply valid_new|apply grows_push].
Qed.
End Guarded.

(** * The network: what every call preserves *)

Ltac grows_tac :=
  lazymatch goal with
  | |- grows ?w ?w => apply grows_refl
  | |- grows ?w ?w' =>
      first [ assumption
            | match goal with
              | H : grows ?w1 w' |- _ =>
                  lazymatch w1 with w' => fail | _ => idtac end;
                  apply (grows_trans w w1 w'); [grows_tac | exact H]
              end ]
  end.

Section NetworkValid.
Context {F : Type} {NF : Number F} {RS : RandomSource F}.
Implicit Types (h : list (buffer F)) (c : buffer F) (w : world F).

Lemma Forall_valid_grows w w' (ms : list Matrix.t) :
  grows w w' -> Forall (valid w) ms -> Forall (valid w') ms.
Proof. intros Hg Hms. eapply Forall_impl; [exact Hms|]. intros m. by apply grows_valid. Qed.

Lemma net_valid_grows w w' net : grows w w' -> net_valid w net -> net_valid w' net.
Proof. intros Hg [Hw Hb]. split; by eapply Forall_valid_grows. Qed.

Lemma Forall_valid_lookup w (ms : list Matrix.t) i m :
  Forall (valid w) ms -> ms !! i = Some m -> valid w m.
Proof. intros Hms Hi. by eapply Forall_lookup_1. Qed.

Lemma Forall_valid_snoc w (ms : list Matrix.t) m :
  Forall (valid w) ms -> valid w m -> Forall (valid w) (ms ++ [m]).
Proof. intros. apply Forall_app. split; [done|]. by constructor. Qed.

Lemma array_valid_grows w w' xs :
  grows w w' -> array_valid w xs -> array_valid w' xs.
Proof.
  intros Hg Hxs. eapply Forall_impl; [exact Hxs|]. intros o Ho m Hm.
  eapply grows_valid; [done|]. by apply Ho.
Qed.

Lemma array_valid_set w xs i m :
  array_valid w xs -> valid w m -> array_valid w (array_set xs i m).
Proof.
  intros Hxs Hm. unfold array_set, array_valid. case_match.
  - apply Forall_insert; [done|]. by intros ? [= <-].
  - apply Forall_app. split; [done|]. apply Forall_app. split.
    + apply Forall_replicate. by intros.
    + constructor; [|constructor]. by intros ? [= <-].
Qed.

Lemma array_valid_get w xs i m :
  array_valid w xs -> array_get xs i = Some m -> valid w m.
Proof.
  unfold array_get, array_valid. intros Hxs Hi.
  destruct (xs !! i) as [o|] eqn:E; [|done]. cbv beta in Hi. subst.
  by eapply (Forall_lookup_1 _ _ _ _ Hxs E).
Qed.

End NetworkValid.

Ltac valid_tac :=
  cbv beta in *;
  first
    [ assumption
    | match goal with
      | H : valid ?w0 ?m |- valid ?w ?m =>
          apply (grows_valid w0 w m); [grows_tac | exact H]
      | H : Forall (valid ?w0) ?ms |- Forall (valid ?w) ?ms =>
          apply (Forall_valid_grows w0 w ms); [grows_tac | exact H]
      | H : array_valid ?w0 ?xs |- array_valid ?w ?xs =>
          apply (array_valid_grows w0 w xs); [grows_tac | exact H]
      | H : net_valid ?w0 ?n |- net_valid ?w ?n =>
          apply (net_valid_grows w0 w n); [grows_tac | exact H]
      end ].

Section NetworkSafe.
Context {F : Type} {NF : Number F} {RS : RandomSource F}.
Context {E : error -> Prop} {T : Prop} (HE : E TypeError).
Implicit Types (h : list (buffer F)) (c : buffer F) (w : world F).

Lemma safe_lookup w (ms : list Matrix.t) i :
  Forall (valid w) ms -> guarded E T (defined (ms !! i)) w (fun m w' => valid w' m).
Proof.
  intros Hms. apply guarded_defined; [done|]. intros m Hm. by eapply Forall_valid_lookup.
Qed.

Lemma safe_sub w this other :
  valid w this -> valid w other ->
  guarded E T (Matrix.sub this other) w (fun m w' => valid w' m).
Proof. intros. eapply guarded_weaken; [by apply sub_spec|]. by intros m w' _ [? _]. Qed.

Lemma safe_mul w this other :
  valid w this -> valid w other ->
  guarded E T (Matrix.mul this other) w (fun m w' => valid w' m).
Proof. intros. eapply guarded_weaken; [by apply mul_spec|]. by intros m w' _ [? _]. Qed.

Lemma safe_hadamard w this other :
  valid w this -> valid w other ->
  guarded E T (Matrix.hadamard this other) w (fun m w' => valid w' m).
Proof. intros. eapply guarded_weaken; [by apply hadamard_spec|]. by intros m w' _ [? _]. Qed.

Lemma safe_scale w this s :
  valid w this -> guarded E T (Matrix.scale this s) w (fun m w' => valid w' m).
Proof. intros. eapply guarded_weaken; [by apply scale_spec|]. by intros m w' _ [? _]. Qed.

Lemma safe_transpose w this :
  valid w this -> guarded E T (Matrix.transpose this) w (fun m w' => valid w' m).
Proof. intros. eapply guarded_weaken; [by apply transpose_spec|]. by intros m w' _ [? _]. Qed.

Lemma safe_clone w this :
  guarded E T (Matrix.clone this) w (fun m w' => valid w' m).
Proof. eapply guarded_weaken; [apply clone_spec|]. by intros m w' _ [? _]. Qed.

Lemma safe_softmax w vec :
  valid w vec -> guarded E T (softmax vec) w (fun m w' => valid w' m).
Proof. intros. eapply guarded_weaken; [by apply softmax_spec|]. by intros m w' _ [? _]. Qed.

Lemma safe_zeros (r k : nat) w :
  guarded E T (Matrix.zeros r k) w (fun m w' => valid w' m).
Proof. eapply guarded_weaken; [apply zeros_spec|]. by intros m w' _ [? _]. Qed.

Lemma safe_fromJSON (j : Matrix.json F) w :
  guarded E T (Matrix.fromJSON j) w (fun m w' => valid w' m).
Proof. eapply guarded_weaken; [apply fromJSON_spec|]. by intros m w' _ [? _]. Qed.

Lemma safe_crossEntropyLoss w p t :
  guarded E T (crossEntropyLoss p t) w (fun _ _ => True).
Proof. eapply guarded_weaken; [apply crossEntropyLoss_spec|]. done. Qed.

Lemma safe_forward w this input :
  net_valid w this -> valid w input ->
  guarded E T (Network.forward this input) w (trace_valid (length (Network.weights this))).
Proof.
  intros Hnet Hin. unfold Network.forward.
  eapply guarded_bind.
  - apply (guarded_for_loop
      (fun k (r : list Matrix.t * list Matrix.t * Matrix.t) w' =>
         grows w w' /\ Forall (valid w') r.1.1 /\ Forall (valid w') r.1.2 /\ valid w' r.2
         /\ length r.1.1 = k /\ length r.1.2 = Datatypes.S k)).
    + intros k [[zs as_] a] w1 Hk (Hg & Hzs & Has & Ha & Hlz & Hla). simpl in *.
      assert (Hnet1 : net_valid w1 this) by (by eapply net_valid_grows).
      destruct Hnet1 as [HW HB].
      eapply guarded_bind; [by apply safe_lookup|].
      intros m w2 Hg2 Hm. cbv beta in Hm.
      eapply guarded_bind; [apply safe_mul; [done|by eapply grows_valid]|].
      intros wa w3 Hg3 Hwa.
      eapply guarded_bind.
      { apply safe_add; [done|done|]. intros o Ho.
        eapply grows_valid; [|exact (Forall_valid_lookup _ _ _ _ HB Ho)].
        by eapply grows_trans. }
      intros z w4 Hg4 Hz.
      eapply guarded_bind.
      { apply guarded_if; intros _.
        - eapply guarded_bind; [apply (guarded_defined _ _ (fun _ _ => True)); done|].
          intros ac w5 Hg5 _. apply safe_map; [done|]. by eapply grows_valid.
        - by apply safe_softmax. }
      intros a' w5 Hg5 Ha'. apply guarded_ret. simpl.
      assert (Hg15 : grows w1 w5) by (repeat (eapply grows_trans; [eassumption|]); apply grows_refl).
      split; [by eapply grows_trans|].
      split; [apply Forall_valid_snoc;
                [eapply Forall_valid_grows; [exact Hg15|done]
                |eapply grows_valid; [exact Hg5|done]]|].
      split; [apply Forall_valid_snoc; [eapply Forall_valid_grows; [exact Hg15|done]|done]|].
      split; [done|]. rewrite !length_app. simpl. lia.
    + simpl. split; [apply grows_refl|]. split; [constructor|].
      split; [by constructor|]. done.
  - intros [[zs as_] a] w1 _ (Hg & Hzs & Has & Ha & Hlz & Hla). simpl in *.
    apply guarded_ret. unfold trace_valid. simpl. auto.
Qed.

Lemma safe_predict w this input :
  net_valid w this -> valid w input ->
  guarded E T (Network.predict this input) w (fun m w' => valid w' m).
Proof.
  intros Hnet Hin. unfold Network.predict.
  eapply guarded_bind; [by apply safe_forward|].
  intros tr w1 Hg1 (Hzs & Has & Hlz & Hla). by apply safe_lookup.
Qed.

Lemma safe_backward w this input target :
  net_valid w this -> valid w input -> valid w target ->
  guarded E T (Network.backward this input target) w gradients_valid.
Proof.
  intros Hnet Hin Htg. unfold Network.backward. destruct Hnet as [HW HB].
  eapply guarded_bind; [by apply safe_forward|].
  intros tr w1 Hg1 (Hzs & Has & Hlz & Hla).
  eapply guarded_bind; [by apply safe_lookup|].
  intros aL w2 Hg2 HaL. cbv beta in HaL.
  eapply guarded_bind; [apply safe_sub; valid_tac|].
  intros delta w3 Hg3 Hdelta.
  eapply guarded_bind.
  - apply (guarded_for_down
      (fun (k : nat) (r : list (option Matrix.t) * list (option Matrix.t) * Matrix.t) w' =>
         grows w3 w' /\ array_valid w' r.1.1 /\ array_valid w' r.1.2 /\ valid w' r.2)).
    + intros k [[dw db] d] w4 Hk (Hg4 & Hdw & Hdb & Hd). simpl in *.
      eapply guarded_bind; [apply safe_lookup; valid_tac|].
      intros ai w5 Hg5 Hai. cbv beta in Hai.
      eapply guarded_bind; [by apply safe_transpose|].
      intros ait w6 Hg6 Hait.
      eapply guarded_bind; [apply safe_mul; valid_tac|].
      intros dwi w7 Hg7 Hdwi.
      eapply guarded_bind; [apply safe_clone|].
      intros dbi w8 Hg8 Hdbi.
      eapply guarded_bind.
      { apply (guarded_if _ _ _ _ (fun m w' => valid w' m)); intros _.
        - eapply guarded_bind; [apply safe_lookup; valid_tac|].
          intros z w9 Hg9 Hz. cbv beta in Hz.
          eapply guarded_bind; [apply (guarded_defined _ _ (fun _ _ => True)); done|].
          intros ac w10 Hg10 _.
          eapply guarded_bind; [apply safe_map; [done|valid_tac]|].
          intros dAct w11 Hg11 HdAct.
          eapply guarded_bind; [apply safe_lookup; valid_tac|].
          intros wi w12 Hg12 Hwi. cbv beta in Hwi.
          eapply guarded_bind; [by apply safe_transpose|].
          intros wt w13 Hg13 Hwt.
          eapply guarded_bind; [apply safe_mul; valid_tac|].
          intros wd w14 Hg14 Hwd.
          apply safe_hadamard; valid_tac.
        - apply guarded_ret. valid_tac. }
      intros d' w9 Hg9 Hd'. apply guarded_ret. simpl.
      split; [grows_tac|].
      split; [apply array_valid_set; valid_tac|].
      split; [apply array_valid_set; valid_tac|done].
    + simpl. split; [apply grows_refl|]. split; [constructor|]. split; [constructor|done].
  - intros [[dw db] d] w4 _ (Hg4 & Hdw & Hdb & Hd). simpl in *.
    eapply guarded_bind; [apply (guarded_defined _ _ (fun _ _ => True)); done|].
    intros aL' w5 Hg5 _.
    eapply guarded_bind; [apply safe_crossEntropyLoss|].
    intros l w6 Hg6 _. apply guarded_ret. split; simpl; valid_tac.
Qed.
End NetworkSafe.

(** * The forward pass *)

Section DerefLists.
Context {F : Type} {NF : Number F}.
Implicit Types (w : world F).

Lemma map_deref_grows w w' (ms : list Matrix.t) :
  grows w w' -> Forall (valid w) ms -> deref w' <$> ms = deref w <$> ms.
Proof.
  intros Hg Hms. apply list_eq. intros i. rewrite !list_lookup_fmap.
  destruct (ms !! i) as [m|] eqn:Hi; [|done]. simpl. f_equal.
  apply grows_deref; [done|]. by eapply Forall_lookup_1.
Qed.

Lemma drop_lookup_cons {A} (l : list A) k x :
  l !! k = Some x -> drop k l = x :: drop (S k) l.
Proof. intros H. by apply drop_S. Qed.

Lemma take_drop_step {A} (l : list A) k x r :
  drop k l = x :: r -> take (S k) l = take k l ++ [x] /\ drop (S k) l = r.
Proof.
  intros H. assert (Hk : l !! k = Some x).
  { rewrite <- (Nat.add_0_r k), <- lookup_drop, H. done. }
  split; [by apply take_S_r|]. rewrite (drop_S _ _ _ Hk) in H. by injection H.
Qed.
End DerefLists.

Ltac deref_back :=
  repeat match goal with
  | Hv : valid ?w0 ?m |- context [deref ?w1 ?m] =>
      lazymatch w1 with w0 => fail | _ => idtac end;
      rewrite (grows_deref w0 w1 m ltac:(grows_tac) Hv)
  | Hv : Forall (valid ?w0) ?ms |- context [deref ?w1 <$> ?ms] =>
      lazymatch w1 with w0 => fail | _ => idtac end;
      rewrite (map_deref_grows w0 w1 ms ltac:(grows_tac) Hv)
  end.

Ltac deref_norm :=
  cbv beta in *;
  repeat first
    [ progress deref_back
    | match goal with
      | H : deref ?w ?m = _ |- context [deref ?w ?m] => rewrite H
      end ].

(** Destructs the postcondition [fresh] of an operation. *)
Ltac fresh_intro m w' Hg Hv Hd :=
  intros m w' Hg (Hv & Hd & _ & _).

Section ForwardValues.
Context {F : Type} {NF : Number F} {RS : RandomSource F}.
Implicit Types (w : world F).

Lemma length_forward_values f (Ws bs : list (mat F)) x :
  length (forward_values f Ws bs x) = length Ws `min` length bs.
Proof.
  revert bs x. induction Ws as [|W Ws IH]; intros [|b bs] x; simpl; try done.
  by rewrite IH.
Qed.

Lemma forward_spec w this input f df :
  net_valid w this -> length (Network.weights this) = length (Network.biases this) ->
  valid w input -> registered this f df ->
  returns (Network.forward this input) w
    (fun tr w' =>
       trace_valid (length (Network.weights this)) tr w'
       /\ deref w' <$> Network.zs tr = (forward_trace f w this input).*1
       /\ deref w' <$> Network.as_ tr = deref w input :: (forward_trace f w this input).*2).
Proof.
  intros [HW HB] Hlen Hin Hreg. unfold Network.forward, returns.
  set (fv := forward_trace f w this input).
  set (Ws := deref w <$> Network.weights this).
  set (bs := deref w <$> Network.biases this).
  set (L := length (Network.weights this)).
  eapply guarded_bind.
  - apply (guarded_for_loop
      (fun k (r : list Matrix.t * list Matrix.t * Matrix.t) w' =>
         grows w w' /\ Forall (valid w') r.1.1 /\ Forall (valid w') r.1.2 /\ valid w' r.2
         /\ length r.1.1 = k /\ length r.1.2 = Datatypes.S k
         /\ deref w' <$> r.1.1 = (take k fv).*1
         /\ deref w' <$> r.1.2 = deref w input :: (take k fv).*2
         /\ forward_values f (drop k Ws) (drop k bs) (deref w' r.2) = drop k fv) _ _ 0).
    + intros k [[zs as_] a] w1 Hk (Hg & Hzs & Has & Ha & Hlz & Hla & Ez & Ea & Efv).
      simpl in Hk, Hzs, Has, Ha, Hlz, Hla, Ez, Ea, Efv. cbv beta iota.
      destruct (lookup_lt_is_Some_2 (Network.weights this) k ltac:(lia)) as [Wk HWk].
      destruct (lookup_lt_is_Some_2 (Network.biases this) k ltac:(lia)) as [bk Hbk].
      assert (HvW : valid w Wk) by exact (Forall_valid_lookup _ _ _ _ HW HWk).
      assert (Hvb : valid w bk) by exact (Forall_valid_lookup _ _ _ _ HB Hbk).
      rewrite HWk, Hbk.
      apply guarded_bind_Some.
      eapply guarded_bind; [apply mul_spec; valid_tac|].
      fresh_intro wa w2 Hg2 Hvwa Hdwa.
      eapply guarded_bind; [apply add_spec; valid_tac|].
      fresh_intro z w3 Hg3 Hvz Hdz.
      assert (HdW : drop k Ws = deref w Wk :: drop (Datatypes.S k) Ws).
      { apply drop_lookup_cons. unfold Ws. by rewrite list_lookup_fmap, HWk. }
      assert (Hdb : drop k bs = deref w bk :: drop (Datatypes.S k) bs).
      { apply drop_lookup_cons. unfold bs. by rewrite list_lookup_fmap, Hbk. }
      rewrite HdW, Hdb in Efv. simpl in Efv. symmetry in Efv.
      apply take_drop_step in Efv as [Etake Edrop].
      rewrite Hreg. 
      eapply guarded_bind.
      { apply (guarded_if _ _ _ _
          (fun a' w' => valid w' a' /\
             deref w' a' = match drop (Datatypes.S k) Ws with
                           | [] => mat_softmax (deref w3 z)
                           | _ => mat_map (deref w3 z) f
                           end)).
        - intros Hlt. apply Nat.ltb_lt in Hlt.
          apply guarded_bind_Some. simpl.
          eapply guarded_weaken; [apply map_spec; valid_tac|].
          intros a' w5 Hg5 (Hva' & Hda' & _ & _). split; [done|].
          destruct (drop (Datatypes.S k) Ws) eqn:Ed.
          + apply (f_equal length) in Ed. rewrite length_drop in Ed.
            unfold Ws in Ed. rewrite length_fmap in Ed. simpl in Ed. lia.
          + rewrite Hda'. by deref_norm.
        - intros Hlt. apply Nat.ltb_ge in Hlt.
          eapply guarded_weaken; [apply softmax_spec; valid_tac|].
          intros a' w5 Hg5 (Hva' & Hda' & _ & _). split; [done|].
          rewrite drop_ge; [done|]. unfold Ws. rewrite length_fmap. lia. }
      intros a' w4 Hg4 [Hva' Hda']. apply guarded_ret. simpl.
      split; [grows_tac|].
      split; [apply Forall_valid_snoc; valid_tac|].
      split; [apply Forall_valid_snoc; valid_tac|].
      split; [done|]. split; [rewrite length_app; simpl; lia|].
      split; [rewrite length_app; simpl; lia|].
      rewrite Etake, !fmap_app. simpl.
      split; [|split].
      * deref_norm. by rewrite Ez.
      * deref_norm. by rewrite Ea.
      * rewrite Edrop. deref_norm. done.
    + simpl. split; [apply grows_refl|]. split; [constructor|].
      split; [by constructor|]. split; [done|]. split; [done|]. split; [done|].
      split; [done|]. split; [done|]. by rewrite !drop_0.
  - intros [[zs as_] a] w1 _ (Hg & Hzs & Has & Ha & Hlz & Hla & Ez & Ea & Efv).
    simpl in *. apply guarded_ret. unfold trace_valid. simpl.
    assert (Hfv : length fv <= L).
    { unfold fv, forward_trace. rewrite length_forward_values, !length_fmap. lia. }
    rewrite take_ge in Ez, Ea by lia. auto 10.
Qed.
End ForwardValues.

(** * The backward pass *)

Section BackwardValues.
Context {F : Type} {NF : Number F} {RS : RandomSource F}.
Implicit Types (w : world F).

Lemma holds_grows w w' xs i A : grows w w' -> holds w xs i A -> holds w' xs i A.
Proof.
  intros Hg (m & Hm & Hv & Hd). exists m. split; [done|].
  split; [by eapply grows_valid|]. by rewrite (grows_deref w w').
Qed.

Lemma holds_set_eq w xs i m A :
  valid w m -> deref w m = A -> holds w (array_set xs i m) i A.
Proof.
  intros Hv Hd. exists m. split; [|done]. unfold array_set. case_match eqn:Hi.
  - apply Nat.ltb_lt in Hi. by apply list_lookup_insert_eq.
  - apply Nat.ltb_ge in Hi. rewrite lookup_app_r by done.
    rewrite lookup_app_r; rewrite length_replicate; [|lia].
    by replace (i - length xs - (i - length xs)) with 0 by lia.
Qed.

Lemma holds_set_ne w xs i j m A :
  i <> j -> j < length xs -> holds w xs j A -> holds w (array_set xs i m) j A.
Proof.
  intros Hij Hj (m' & Hm' & Hv & Hd). exists m'. split; [|done].
  unfold array_set. case_match.
  - by rewrite list_lookup_insert_ne.
  - by rewrite lookup_app_l.
Qed.

Lemma length_array_set {A} (xs : list (option A)) i m :
  length (array_set xs i m) = length xs `max` S i.
Proof.
  unfold array_set. case_match eqn:Hi.
  - apply Nat.ltb_lt in Hi. rewrite length_insert. lia.
  - apply Nat.ltb_ge in Hi. rewrite !length_app, length_replicate. simpl. lia.
Qed.

Lemma lookup_deref_fmap w (ms : list Matrix.t) (vs : list (mat F)) i m :
  deref w <$> ms = vs -> ms !! i = Some m -> deref w m = nth_mat vs i.
Proof.
  intros <- Hm. unfold nth_mat. by rewrite list_lookup_fmap, Hm.
Qed.

Lemma backward_spec w this input target f df :
  net_valid w this -> length (Network.weights this) = length (Network.biases this) ->
  valid w input -> valid w target -> registered this f df ->
  returns (Network.backward this input target) w
    (fun g w' =>
       let L := length (Network.weights this) in
       length (Network.dw g) = L /\ length (Network.db g) = L
       /\ (forall i, i < L ->
             holds w' (Network.dw g) i (grad_w f df w this input target i)
             /\ holds w' (Network.db g) i (grad_b f df w this input target i))
       /\ Network.loss g
          = cross_entropy (output_value f w this input) (deref w target)).
Proof.
  intros Hnet Hlen Hin Htg Hreg. unfold Network.backward, returns.
  pose proof Hnet as [HW HB].
  set (L := length (Network.weights this)).
  eapply guarded_bind; [apply (forward_spec _ _ _ f df); done|].
  intros tr w1 Hg1 ((Hzs & Has & Hlz & Hla) & Ez & Ea).
  fold (trace_zs f w this input) in Ez. fold (trace_as f w this input) in Ea.
  destruct (lookup_lt_is_Some_2 (Network.as_ tr) L ltac:(lia)) as [aL HaL].
  assert (HvaL : valid w1 aL) by exact (Forall_valid_lookup _ _ _ _ Has HaL).
  assert (HdaL : deref w1 aL = output_value f w this input)
    by exact (lookup_deref_fmap _ _ _ _ _ Ea HaL).
  rewrite HaL. apply guarded_bind_Some.
  eapply guarded_bind; [apply sub_spec; valid_tac|].
  fresh_intro d0 w2 Hg2 Hvd0 Hdd0.
  assert (Ed0 : deref w2 d0 = delta_from_end df (deref w <$> Network.weights this)
                  (trace_zs f w this input) (output_value f w this input)
                  (deref w target) 0).
  { rewrite Hdd0. simpl. by deref_norm. }
  clear Hdd0.
  set (D := delta_from_end df (deref w <$> Network.weights this)
              (trace_zs f w this input) (output_value f w this input)
              (deref w target)) in *.
  assert (EGW : forall i, grad_w f df w this input target i
                = mat_mul (D (L - 1 - i)) (mat_transpose (nth_mat (trace_as f w this input) i)))
    by done.
  assert (EGB : forall i, grad_b f df w this input target i = D (L - 1 - i)) by done.
  eapply guarded_bind.
  - apply (guarded_for_down
      (fun (k : nat) (r : list (option Matrix.t) * list (option Matrix.t) * Matrix.t) w' =>
         grows w2 w' /\ valid w' r.2
         /\ (0 < k -> deref w' r.2 = D (L - k))
         /\ (if decide (k = L) then r.1.1 = [] /\ r.1.2 = []
             else length r.1.1 = L /\ length r.1.2 = L)
         /\ (forall i, k <= i < L ->
               holds w' r.1.1 i (grad_w f df w this input target i)
               /\ holds w' r.1.2 i (grad_b f df w this input target i)))).
    + intros k [[dw db] d] w3 Hk (Hg3 & Hvd & Hdd & Hshape & Hent).
      simpl in Hvd, Hdd, Hshape, Hent. cbv beta iota.
      specialize (Hdd ltac:(lia)).
      replace (L - Datatypes.S k) with (L - 1 - k) in Hdd by lia.
      destruct (lookup_lt_is_Some_2 (Network.as_ tr) k ltac:(lia)) as [ai Hai].
      assert (Hvai : valid w1 ai) by exact (Forall_valid_lookup _ _ _ _ Has Hai).
      assert (Hdai : deref w1 ai = nth_mat (trace_as f w this input) k)
        by exact (lookup_deref_fmap _ _ _ _ _ Ea Hai).
      rewrite Hai. apply guarded_bind_Some.
      eapply guarded_bind; [apply transpose_spec; valid_tac|].
      fresh_intro ait w4 Hg4 Hvait Hdait.
      eapply guarded_bind; [apply mul_spec; valid_tac|].
      fresh_intro dwi w5 Hg5 Hvdwi Hddwi.
      eapply guarded_bind; [apply clone_spec|].
      fresh_intro dbi w6 Hg6 Hvdbi Hddbi.
      eapply guarded_bind.
      { apply (guarded_if _ _ _ _
          (fun d' w' => valid w' d' /\ (0 < k -> deref w' d' = D (L - k)))).
        - intros Hlt. apply Nat.ltb_lt in Hlt.
          destruct (lookup_lt_is_Some_2 (Network.zs tr) (k - 1) ltac:(lia)) as [z Hz].
          assert (Hvz : valid w1 z) by exact (Forall_valid_lookup _ _ _ _ Hzs Hz).
          assert (Hdz : deref w1 z = nth_mat (trace_zs f w this input) (k - 1))
            by exact (lookup_deref_fmap _ _ _ _ _ Ez Hz).
          rewrite Hz. apply guarded_bind_Some.
          rewrite Hreg. apply guarded_bind_Some. simpl.
          eapply guarded_bind; [apply map_spec; valid_tac|].
          fresh_intro dAct w7 Hg7 HvdAct HddAct.
          destruct (lookup_lt_is_Some_2 (Network.weights this) k ltac:(lia)) as [Wk HWk].
          assert (HvWk : valid w Wk) by exact (Forall_valid_lookup _ _ _ _ HW HWk).
          rewrite HWk. apply guarded_bind_Some.
          eapply guarded_bind; [apply transpose_spec; valid_tac|].
          fresh_intro wt w8 Hg8 Hvwt Hdwt.
          eapply guarded_bind; [apply mul_spec; valid_tac|].
          fresh_intro wd w9 Hg9 Hvwd Hdwd.
          eapply guarded_weaken; [apply hadamard_spec; valid_tac|].
          intros d' w10 Hg10 (Hvd' & Hdd' & _ & _). split; [done|]. intros _.
          rewrite Hdd'. deref_norm.
          replace (L - k) with (Datatypes.S (L - 1 - k)) by lia.
          unfold D at 2. simpl. fold D.
          rewrite length_fmap. fold L.
          replace (L - Datatypes.S (L - 1 - k)) with k by lia.
          unfold nth_mat. rewrite list_lookup_fmap, HWk. done.
        - intros Hlt. apply Nat.ltb_ge in Hlt. apply guarded_ret.
          split; [valid_tac|]. intros; lia. }
      intros d' w7 Hg7 [Hvd' Hdd']. apply guarded_ret. simpl.
      split; [grows_tac|]. split; [done|]. split; [done|].
      assert (Hdwi : deref w7 dwi = grad_w f df w this input target k).
      { rewrite EGW. by deref_norm. }
      assert (Hdbi : deref w7 dbi = grad_b f df w this input target k).
      { rewrite EGB. by deref_norm. }
      assert (Hv7 : valid w7 dwi /\ valid w7 dbi) by (split; valid_tac).
      destruct Hv7 as [Hv7w Hv7b].
      assert (Hlen' : length (array_set dw k dwi) = L /\ length (array_set db k dbi) = L).
      { rewrite !length_array_set. case_decide as HkL.
        - destruct Hshape as [-> ->]. simpl. lia.
        - destruct Hshape as [-> ->]. lia. }
      split; [by rewrite decide_False by lia|].
      intros i Hi. destruct (decide (i = k)) as [->|Hik].
      * split; by apply holds_set_eq.
      * assert (Hi' : Datatypes.S k <= i < L) by lia.
        destruct (Hent i Hi') as [Hw Hb].
        case_decide as HkL; [lia|]. destruct Hshape as [Hlw Hlb].
        split; apply holds_set_ne; try done; try lia.
        all: eapply holds_grows; [|eassumption]; grows_tac.
    + simpl. split; [apply grows_refl|]. split; [done|].
      split; [intros _; by rewrite Nat.sub_diag|].
      split; [by rewrite decide_True|]. intros; lia.
  - intros [[dw db] d] w3 _ (Hg3 & Hvd & Hdd & Hshape & Hent).
    simpl in Hvd, Hdd, Hshape, Hent. cbv beta iota.
    apply guarded_bind_Some.
    eapply guarded_bind; [apply crossEntropyLoss_spec|].
    intros l w4 Hg4 [-> ->]. apply guarded_ret. simpl.
    split; [|split; [|split]].
    + case_decide as HL; [|tauto]. destruct Hshape as [-> _]. simpl. lia.
    + case_decide as HL; [|tauto]. destruct Hshape as [_ ->]. simpl. lia.
    + intros i Hi. apply Hent. lia.
    + by deref_norm.
Qed.
End BackwardValues.

(** * The constructor *)

Section Constructor.
Context {F : Type} {NF : Number F} {RS : RandomSource F}.
Implicit Types (w : world F).

Lemma for_loop_snoc {S} n i (body : nat -> S -> M F S) s w :
  for_loop (Datatypes.S n) i body s w
  = bind (for_loop n i body s) (body (i + n)) w.
Proof.
  revert i s w. induction n as [|n IH]; intros i s w.
  - simpl. unfold bind, ret. rewrite Nat.add_0_r. destruct (body i s w); reflexivity.
  - change (for_loop (Datatypes.S (Datatypes.S n)) i body s w)
      with (bind (body i s) (for_loop (Datatypes.S n) (Datatypes.S i) body) w).
    change (for_loop (Datatypes.S n) i body s)
      with (bind (body i s) (for_loop n (Datatypes.S i) body)).
    unfold bind.
    destruct (body i s w) as [s' w'| |]; [|reflexivity..].
    rewrite IH. unfold bind. by rewrite Nat.add_succ_comm.
Qed.

Lemma xavier_loop (h : list (buffer F)) n N d (g : F -> F) (z : F) :
  n <= N ->
  for_loop n 0 (fun i (_ : unit) => u <- Math_random ;; store_at (length h) i (g u)) tt
    (World (h ++ [replicate N z]) d)
  = Ok tt (World (h ++ [tabulate N (fun q => if decide (q < n)
                                            then g (random_value (d + q)) else z)])
             (d + n)).
Proof.
  induction n as [|n IH]; intros Hn.
  - simpl. unfold ret. by rewrite replicate_tabulate, Nat.add_0_r.
  - rewrite for_loop_snoc. unfold bind at 1. rewrite IH by lia.
    unfold bind, Math_random, store_at. simpl. f_equal. f_equal; [|lia].
    rewrite alter_app_r_alt, Nat.sub_diag by lia. simpl. do 2 f_equal.
    rewrite insert_tabulate. apply tabulate_ext. intros q _.
    repeat case_decide; subst; try done; lia.
Qed.

Lemma xavierInit_run (r k : nat) w :
  xavierInit r k w
  = Ok (Matrix.mk r k (length (heap w)))
       (World (heap w ++ [xavier_buffer r k (draws w)]) (draws w + r * k)).
Proof.
  unfold xavierInit, bind at 1. rewrite new_NoData. unfold bind at 1.
  unfold length_at at 1. simpl. rewrite lookup_last_buffer. simpl.
  rewrite length_replicate. unfold bind at 1. unfold push.
  rewrite xavier_loop by done. simpl. unfold ret. do 4 f_equal.
  apply tabulate_ext. intros q Hq. by rewrite decide_True.
Qed.

Lemma xavierInit_spec {E T} (r k : nat) w :
  guarded E T (xavierInit r k) w
    (fun m w' => valid w' m /\ Matrix.rows m = r /\ Matrix.cols m = k
                 /\ deref w' m = mk_mat r k (xavier_buffer r k (draws w))).
Proof.
  unfold guarded, run_sat. rewrite xavierInit_run.
  split; [by apply prefix_app_r|].
  split; [unfold valid; simpl; rewrite length_app; simpl; lia|].
  split; [done|]. split; [done|]. unfold deref. simpl. by rewrite lookup_last_buffer.
Qed.

Lemma layer_built_grows ls ws bs ws' bs' n1 n2 a1 a2 w w' i :
  grows w w' -> i < length ws -> i < length bs ->
  layer_built ls (Network.mk n1 a1 ws bs) w i ->
  layer_built ls (Network.mk n2 a2 (ws ++ ws') (bs ++ bs')) w' i.
Proof.
  intros Hg Hi Hi' (W & b & HW & Hb & HvW & Hvb & Hr & Hc & Hlen & Hd).
  cbn [Network.weights Network.biases] in *.
  exists W, b. cbn [Network.weights Network.biases]. rewrite !lookup_app_l by done.
  split; [done|]. split; [done|]. split; [by eapply grows_valid|].
  split; [by eapply grows_valid|]. split; [done|]. split; [done|].
  rewrite (grows_deref w w' W), (grows_deref w w' b) by done. by split.
Qed.

Lemma new_spec_network {E T} (ls : list nat) (act : option string) w :
  guarded E T (Network.new ls act) w
    (fun net w' =>
       Network.layerSizes net = ls
       /\ Network.hiddenActivation net = default "relu"%string act
       /\ length (Network.weights net) = length ls - 1
       /\ length (Network.biases net) = length ls - 1
       /\ net_valid w' net
       /\ forall i, i < length ls - 1 -> layer_built ls net w' i).
Proof.
  unfold Network.new.
  eapply guarded_bind.
  - apply (guarded_for_loop
      (fun k (r : list Matrix.t * list Matrix.t) w' =>
         length r.1 = k /\ length r.2 = k
         /\ Forall (valid w') r.1 /\ Forall (valid w') r.2
         /\ forall i, i < k ->
              layer_built ls (Network.mk ls (default "relu"%string act) r.1 r.2) w' i)
      _ _ 0).
    + intros k [ws bs] w1 Hk (Hlw & Hlb & Hvw & Hvb & Hbuilt). simpl in Hlw, Hlb, Hvw, Hvb.
      cbv beta.
      eapply guarded_bind; [apply xavierInit_spec|].
      intros W w2 Hg2 (HvW & HrW & HcW & HdW).
      eapply guarded_bind; [apply zeros_spec|].
      fresh_intro b w3 Hg3 Hvb' Hdb'.
      apply guarded_ret. simpl.
      split; [rewrite length_app; simpl; lia|].
      split; [rewrite length_app; simpl; lia|].
      split; [apply Forall_valid_snoc; valid_tac|].
      split; [apply Forall_valid_snoc; valid_tac|].
      intros i Hi. destruct (decide (i = k)) as [->|Hik].
      * exists W, b. cbn [Network.weights Network.biases fst snd].
        rewrite !lookup_app_r by lia. rewrite Hlw, Hlb, Nat.sub_diag.
        cbn [lookup list_lookup].
        split; [done|]. split; [done|]. split; [valid_tac|]. split; [done|].
        split; [done|]. split; [done|].
        rewrite (grows_deref w2 w3 W) by done. rewrite HdW, Hdb'.
        cbn [entries]. split; [|by rewrite Nat.mul_1_r].
        exists (draws w1). by rewrite HrW, HcW.
      * eapply (layer_built_grows ls ws bs [W] [b] ls ls _ _ w1 w3);
          [grows_tac|lia|lia|]. apply Hbuilt. lia.
    + simpl. split; [done|]. split; [done|]. split; [constructor|].
      split; [constructor|]. intros; lia.
  - intros [ws bs] w1 _ (Hlw & Hlb & Hvw & Hvb & Hbuilt). simpl in *.
    apply guarded_ret. simpl.
    split; [done|]. split; [done|]. split; [lia|]. split; [lia|].
    split; [by split|]. intros i Hi. apply Hbuilt. lia.
Qed.
End Constructor.

(** * A sample of a batch *)

Section ListUpdates.
Context {A : Type}.

Lemma insert_take_drop_step (new old : list A) k x :
  length new = length old -> new !! k = Some x ->
  <[k := x]> (take k new ++ drop k old) = take (S k) new ++ drop (S k) old.
Proof.
  intros Hlen Hk. assert (Hlt : k < length new) by (by eapply lookup_lt_Some).
  destruct (lookup_lt_is_Some_2 old k ltac:(lia)) as [y Hy].
  rewrite (drop_S old y k Hy).
  replace k with (length (take k new) + 0) at 1 by (rewrite length_take; lia).
  rewrite insert_app_r. simpl. rewrite (take_S_r new k x Hk), <- app_assoc. done.
Qed.

Lemma lookup_take_drop (new old : list A) k :
  length new = length old -> k < length old ->
  (take k new ++ drop k old) !! k = old !! k.
Proof.
  intros Hlen Hk. rewrite lookup_app_r; rewrite length_take; [|lia].
  rewrite lookup_drop. f_equal. lia.
Qed.
End ListUpdates.

Section TrainSample.
Context {F : Type} {NF : Number F} {RS : RandomSource F}.
Implicit Types (w : world F).

Lemma forward_trace_grows f w w' this input :
  grows w w' -> net_valid w this -> valid w input ->
  forward_trace f w' this input = forward_trace f w this input.
Proof.
  intros Hg [HW HB] Hin. unfold forward_trace.
  by rewrite (map_deref_grows w w'), (map_deref_grows w w'), (grows_deref w w').
Qed.

Lemma output_value_grows f w w' this input :
  grows w w' -> net_valid w this -> valid w input ->
  output_value f w' this input = output_value f w this input.
Proof.
  intros Hg Hnet Hin. unfold output_value, trace_as.
  by rewrite (forward_trace_grows f w w'), (grows_deref w w').
Qed.

Lemma predict_spec w this input f df :
  net_ok w this -> valid w input -> registered this f df ->
  returns (Network.predict this input) w
    (fun m w' => valid w' m /\ deref w' m = output_value f w this input).
Proof.
  intros [Hnet Hlen] Hin Hreg. unfold Network.predict, returns.
  eapply guarded_bind; [apply (forward_spec _ _ _ f df); done|].
  intros tr w1 Hg1 ((Hzs & Has & Hlz & Hla) & Ez & Ea).
  rewrite Hla. simpl. rewrite Nat.sub_0_r.
  destruct (lookup_lt_is_Some_2 (Network.as_ tr) (length (Network.weights this))
              ltac:(lia)) as [aL HaL].
  rewrite HaL. apply guarded_ret. split.
  - exact (Forall_valid_lookup _ _ _ _ Has HaL).
  - exact (lookup_deref_fmap _ _ _ _ _ Ea HaL).
Qed.

Lemma same_argmax_run w pred target :
  Network.same_argmax pred target w
  = Ok (same_argmax_value (deref w pred) (deref w target)) w.
Proof.
  unfold Network.same_argmax, bind.
  rewrite (for_loop_reads _ _
    (fun i (r : nat * nat) =>
       (if fgt (at_ (deref w pred) i) (at_ (deref w pred) r.1) then i else r.1,
        if fgt (at_ (deref w target) i) (at_ (deref w target) r.2) then i else r.2)));
    [done|].
  intros k [p t]. done.
Qed.

Lemma same_argmax_spec {E T} w pred target :
  guarded E T (Network.same_argmax pred target) w
    (fun b w' => w' = w /\ b = same_argmax_value (deref w pred) (deref w target)).
Proof. eapply guarded_reads; [apply same_argmax_run|done]. Qed.

Lemma holds_array_get w xs i A :
  holds w xs i A -> exists m, array_get xs i = Some m /\ valid w m /\ deref w m = A.
Proof.
  intros (m & Hm & Hv & Hd). exists m. unfold array_get. by rewrite Hm.
Qed.

Lemma lookup_fmap_deref w (ms : list Matrix.t) (vs : list (mat F)) k m :
  deref w <$> ms = vs -> ms !! k = Some m -> vs !! k = Some (deref w m).
Proof. intros <- Hm. by rewrite list_lookup_fmap, Hm. Qed.

(** The accumulation loop of a sample. *)
Lemma accumulate_spec w (g : Network.gradients F) (acc : Network.accumulators)
    (AW AB GW GB : list (mat F)) L :
  length (Network.dw g) = L ->
  length (Network.accDw acc) = L -> length (Network.accDb acc) = L ->
  length GW = L -> length GB = L ->
  Forall (valid w) (Network.accDw acc) -> Forall (valid w) (Network.accDb acc) ->
  deref w <$> Network.accDw acc = AW -> deref w <$> Network.accDb acc = AB ->
  (forall i, i < L -> holds w (Network.dw g) i (default (mk_mat 0 0 []) (GW !! i))
                      /\ holds w (Network.db g) i (default (mk_mat 0 0 []) (GB !! i))) ->
  returns
    (for_loop (length (Network.dw g)) 0 (fun i acc =>
       a <- defined (Network.accDw acc !! i) ;;
       a' <- Matrix.add a (array_get (Network.dw g) i) ;;
       b <- defined (Network.accDb acc !! i) ;;
       b' <- Matrix.add b (array_get (Network.db g) i) ;;
       ret (Network.mk_acc (<[i := a']> (Network.accDw acc))
                           (<[i := b']> (Network.accDb acc)))) acc) w
    (fun acc' w' =>
       length (Network.accDw acc') = L /\ length (Network.accDb acc') = L
       /\ Forall (valid w') (Network.accDw acc') /\ Forall (valid w') (Network.accDb acc')
       /\ deref w' <$> Network.accDw acc' = zip_with mat_add AW GW
       /\ deref w' <$> Network.accDb acc' = zip_with mat_add AB GB).
Proof.
  intros Hldw Hlw Hlb HlGW HlGB Hvw Hvb EAW EAB Hg. unfold returns.
  assert (HlAW : length AW = L) by (by rewrite <- EAW, length_fmap).
  assert (HlAB : length AB = L) by (by rewrite <- EAB, length_fmap).
  set (NW := zip_with mat_add AW GW). set (NB := zip_with mat_add AB GB).
  assert (HlNW : length NW = L) by (unfold NW; rewrite length_zip_with; lia).
  assert (HlNB : length NB = L) by (unfold NB; rewrite length_zip_with; lia).
  rewrite Hldw.
  eapply guarded_weaken.
  - apply (guarded_for_loop
      (fun k (acc' : Network.accumulators) w' =>
         grows w w'
         /\ length (Network.accDw acc') = L /\ length (Network.accDb acc') = L
         /\ Forall (valid w') (Network.accDw acc') /\ Forall (valid w') (Network.accDb acc')
         /\ deref w' <$> Network.accDw acc' = take k NW ++ drop k AW
         /\ deref w' <$> Network.accDb acc' = take k NB ++ drop k AB) _ _ 0).
    + intros k [aw ab] w1 Hk (Hg1 & Hlw1 & Hlb1 & Hvw1 & Hvb1 & Ew1 & Eb1).
      cbn [Network.accDw Network.accDb] in *.
      destruct (lookup_lt_is_Some_2 aw k ltac:(lia)) as [a Ha].
      destruct (lookup_lt_is_Some_2 ab k ltac:(lia)) as [b Hb].
      assert (Hva : valid w1 a) by exact (Forall_valid_lookup _ _ _ _ Hvw1 Ha).
      assert (Hvb0 : valid w1 b) by exact (Forall_valid_lookup _ _ _ _ Hvb1 Hb).
      destruct (lookup_lt_is_Some_2 AW k ltac:(lia)) as [Ak HAk].
      destruct (lookup_lt_is_Some_2 AB k ltac:(lia)) as [Bk HBk].
      destruct (lookup_lt_is_Some_2 GW k ltac:(lia)) as [Gk HGk].
      destruct (lookup_lt_is_Some_2 GB k ltac:(lia)) as [Hk' HHk].
      assert (Hda : deref w1 a = Ak).
      { pose proof (lookup_fmap_deref _ _ _ _ _ Ew1 Ha) as H1.
        rewrite lookup_take_drop, HAk in H1 by lia. by injection H1. }
      assert (Hdb : deref w1 b = Bk).
      { pose proof (lookup_fmap_deref _ _ _ _ _ Eb1 Hb) as H1.
        rewrite lookup_take_drop, HBk in H1 by lia. by injection H1. }
      destruct (Hg k ltac:(lia)) as [Hgw Hgb]. rewrite HGk in Hgw. rewrite HHk in Hgb.
      simpl in Hgw, Hgb.
      apply holds_array_get in Hgw as (mw & Hmw & Hvmw & Hdmw).
      apply holds_array_get in Hgb as (mb & Hmb & Hvmb & Hdmb).
      rewrite Ha, Hb, Hmw, Hmb.
      apply guarded_bind_Some.
      eapply guarded_bind; [apply add_spec; valid_tac|].
      fresh_intro a' w2 Hg2 Hva' Hda'.
      apply guarded_bind_Some.
      eapply guarded_bind; [apply add_spec; valid_tac|].
      fresh_intro b' w3 Hg3 Hvb' Hdb'.
      apply guarded_ret. cbn [Network.accDw Network.accDb].
      split; [grows_tac|]. rewrite !length_insert.
      split; [done|]. split; [done|].
      split; [apply Forall_insert; valid_tac|].
      split; [apply Forall_insert; valid_tac|].
      rewrite !list_fmap_insert.
      assert (ENk : NW !! k = Some (mat_add Ak Gk)).
      { unfold NW. rewrite lookup_zip_with, HAk, HGk. done. }
      assert (ENBk : NB !! k = Some (mat_add Bk Hk')).
      { unfold NB. rewrite lookup_zip_with, HBk, HHk. done. }
      split.
      * rewrite <- (insert_take_drop_step NW AW k _ ltac:(lia) ENk).
        deref_norm. rewrite Ew1. done.
      * rewrite <- (insert_take_drop_step NB AB k _ ltac:(lia) ENBk).
        deref_norm. rewrite Eb1. done.
    + cbn [Network.accDw Network.accDb].
      split; [apply grows_refl|]. rewrite !take_0, !drop_0. simpl. auto 10.
  - intros acc' w' _ (Hg1 & Hlw1 & Hlb1 & Hvw1 & Hvb1 & Ew1 & Eb1). simpl in Ew1, Eb1.
    rewrite !take_ge, !drop_ge, !app_nil_r in * by lia. auto 10.
Qed.
End TrainSample.

Section TrainBatch.
Context {F : Type} {NF : Number F} {RS : RandomSource F}.
Implicit Types (w : world F).

Lemma trace_zs_grows f w w' this input :
  grows w w' -> net_valid w this -> valid w input ->
  trace_zs f w' this input = trace_zs f w this input.
Proof. intros. unfold trace_zs. by rewrite (forward_trace_grows f w w'). Qed.

Lemma trace_as_grows f w w' this input :
  grows w w' -> net_valid w this -> valid w input ->
  trace_as f w' this input = trace_as f w this input.
Proof.
  intros. unfold trace_as. by rewrite (forward_trace_grows f w w'), (grows_deref w w').
Qed.

Lemma delta_grows f df w w' this input target i :
  grows w w' -> net_valid w this -> valid w input -> valid w target ->
  delta f df w' this input target i = delta f df w this input target i.
Proof.
  intros Hg Hnet Hin Htg. unfold delta.
  rewrite (trace_zs_grows f w w'), (output_value_grows f w w'), (grows_deref w w' target)
    by done.
  destruct Hnet as [HW _]. by rewrite (map_deref_grows w w').
Qed.

Lemma grad_w_grows f df w w' this input target i :
  grows w w' -> net_valid w this -> valid w input -> valid w target ->
  grad_w f df w' this input target i = grad_w f df w this input target i.
Proof.
  intros. unfold grad_w. by rewrite (delta_grows f df w w'), (trace_as_grows f w w').
Qed.

Lemma grad_b_grows f df w w' this input target i :
  grows w w' -> net_valid w this -> valid w input -> valid w target ->
  grad_b f df w' this input target i = grad_b f df w this input target i.
Proof. intros. unfold grad_b. by rewrite (delta_grows f df w w'). Qed.

Lemma net_ok_grows w w' this : grows w w' -> net_ok w this -> net_ok w' this.
Proof. intros Hg [Hv Hl]. split; [by eapply net_valid_grows|done]. Qed.

Lemma lookup_grads_w f df w this s i :
  i < length (Network.weights this) ->
  default (mk_mat 0 0 []) (grads_w f df w this s !! i)
  = grad_w f df w this (Network.input s) (Network.target s) i.
Proof.
  intros Hi. unfold grads_w. rewrite list_lookup_fmap, lookup_seq_lt by done. done.
Qed.

Lemma lookup_grads_b f df w this s i :
  i < length (Network.weights this) ->
  default (mk_mat 0 0 []) (grads_b f df w this s !! i)
  = grad_b f df w this (Network.input s) (Network.target s) i.
Proof.
  intros Hi. unfold grads_b. rewrite list_lookup_fmap, lookup_seq_lt by done. done.
Qed.

Lemma train_sample_spec w0 w this samples idx s acc (tl : F) (c : nat) f df AW AB :
  let L := length (Network.weights this) in
  net_ok w0 this -> registered this f df -> grows w0 w ->
  samples !! idx = Some s -> sample_valid w0 s ->
  length (Network.accDw acc) = L -> length (Network.accDb acc) = L ->
  Forall (valid w) (Network.accDw acc) -> Forall (valid w) (Network.accDb acc) ->
  deref w <$> Network.accDw acc = AW -> deref w <$> Network.accDb acc = AB ->
  returns (Network.train_sample this samples idx (acc, tl, c)) w
    (fun r w' =>
       length (Network.accDw r.1.1) = L /\ length (Network.accDb r.1.1) = L
       /\ Forall (valid w') (Network.accDw r.1.1)
       /\ Forall (valid w') (Network.accDb r.1.1)
       /\ deref w' <$> Network.accDw r.1.1 = zip_with mat_add AW (grads_w f df w0 this s)
       /\ deref w' <$> Network.accDb r.1.1 = zip_with mat_add AB (grads_b f df w0 this s)
       /\ r.1.2 = fadd tl (cross_entropy (output_value f w0 this (Network.input s))
                             (deref w0 (Network.target s)))
       /\ r.2 = if same_argmax_value (output_value f w0 this (Network.input s))
                     (deref w0 (Network.target s))
                then S c else c).
Proof.
  intros L Hok Hreg Hg0 Hs [Hvi Hvt] Hlw Hlb Hvw Hvb EAW EAB.
  unfold Network.train_sample, returns. rewrite Hs. apply guarded_bind_Some.
  assert (Hok1 : net_ok w this) by (by eapply net_ok_grows).
  pose proof Hok as [Hnet0 Hlen]. pose proof Hok1 as [Hnet1 _].
  eapply guarded_bind;
    [apply (backward_spec _ _ _ _ f df); [done|done|valid_tac|valid_tac|done]|].
  intros g w1 Hg1 (Hldw & Hldb & Hgrads & Hloss). cbv zeta in Hldw, Hldb, Hgrads.
  eapply guarded_bind.
  { apply (predict_spec _ _ _ f df); [by eapply net_ok_grows|valid_tac|done]. }
  intros pred w2 Hg2 [Hvp Hdp].
  eapply guarded_bind; [apply same_argmax_spec|].
  intros same w3 Hg3 [-> ->].
  eapply guarded_bind.
  { apply (accumulate_spec w2 g acc AW AB (grads_w f df w0 this s) (grads_b f df w0 this s) L);
      try done.
    - unfold grads_w. by rewrite length_fmap, length_seq.
    - unfold grads_b. by rewrite length_fmap, length_seq.
    - valid_tac.
    - valid_tac.
    - by deref_norm.
    - by deref_norm.
    - intros i Hi. rewrite lookup_grads_w, lookup_grads_b by done.
      destruct (Hgrads i Hi) as [Hw Hb].
      rewrite (grad_w_grows f df w0 w), (grad_b_grows f df w0 w) in * by done.
      split; (eapply holds_grows; [|eassumption]); grows_tac. }
  intros acc' w4 Hg4 (Hlw' & Hlb' & Hvw' & Hvb' & Ew' & Eb').
  apply guarded_ret. cbn [fst snd].
  split; [done|]. split; [done|]. split; [done|]. split; [done|].
  split; [done|]. split; [done|]. split.
  - rewrite Hloss. f_equal. rewrite (output_value_grows f w0 w) by (done || valid_tac).
    by rewrite (grows_deref w0 w).
  - rewrite Hdp. rewrite (output_value_grows f w0 w1) by (done || grows_tac).
    rewrite (grows_deref w0 w2 (Network.target s)) by (done || grows_tac). done.
Qed.

Lemma zeros_map_spec {E T} (ms : list Matrix.t) w :
  guarded E T (map_M (fun m => Matrix.zeros (Matrix.rows m) (Matrix.cols m)) ms) w
    (fun ys w' => Forall (valid w') ys /\ length ys = length ms
                  /\ deref w' <$> ys = zeros_like <$> (deref w <$> ms)).
Proof.
  revert w. induction ms as [|m ms IH]; intros w; simpl.
  - apply guarded_ret. split; [constructor|done].
  - eapply guarded_bind; [apply zeros_spec|].
    fresh_intro y w1 Hg1 Hvy Hdy.
    eapply guarded_bind; [apply IH|].
    intros ys w2 Hg2 (Hvys & Hlys & Eys). apply guarded_ret.
    split; [constructor; [valid_tac|done]|]. split; [simpl; lia|].
    rewrite !fmap_cons, Eys. deref_norm. f_equal.
    apply list_eq. intros i. rewrite !list_lookup_fmap.
    by destruct (ms !! i).
Qed.

Lemma apply_gradients_spec w this acc (scale : F) AW AB :
  let L := length (Network.weights this) in
  net_ok w this ->
  length (Network.accDw acc) = L -> length (Network.accDb acc) = L ->
  Forall (valid w) (Network.accDw acc) -> Forall (valid w) (Network.accDb acc) ->
  deref w <$> Network.accDw acc = AW -> deref w <$> Network.accDb acc = AB ->
  returns (Network.apply_gradients this acc scale) w
    (fun this' w' =>
       Network.layerSizes this' = Network.layerSizes this
       /\ Network.hiddenActivation this' = Network.hiddenActivation this
       /\ net_ok w' this'
       /\ length (Network.weights this') = L
       /\ deref w' <$> Network.weights this'
          = updated (deref w <$> Network.weights this) AW scale
       /\ deref w' <$> Network.biases this'
          = updated (deref w <$> Network.biases this) AB scale).
Proof.
  intros L [[HW HB] Hlen] Hlw Hlb Hvw Hvb EAW EAB.
  unfold Network.apply_gradients, returns. fold L.
  set (OW := deref w <$> Network.weights this).
  set (OB := deref w <$> Network.biases this).
  set (NW := updated OW AW scale). set (NB := updated OB AB scale).
  assert (HlOW : length OW = L) by (unfold OW; by rewrite length_fmap).
  assert (HlOB : length OB = L) by (unfold OB; rewrite length_fmap; lia).
  assert (HlAW : length AW = L) by (by rewrite <- EAW, length_fmap).
  assert (HlAB : length AB = L) by (by rewrite <- EAB, length_fmap).
  assert (HlNW : length NW = L) by (unfold NW, updated; rewrite length_zip_with; lia).
  assert (HlNB : length NB = L) by (unfold NB, updated; rewrite length_zip_with; lia).
  eapply guarded_weaken.
  - apply (guarded_for_loop
      (fun k (t : Network.t) w' =>
         grows w w'
         /\ Network.layerSizes t = Network.layerSizes this
         /\ Network.hiddenActivation t = Network.hiddenActivation this
         /\ length (Network.weights t) = L /\ length (Network.biases t) = L
         /\ Forall (valid w') (Network.weights t) /\ Forall (valid w') (Network.biases t)
         /\ deref w' <$> Network.weights t = take k NW ++ drop k OW
         /\ deref w' <$> Network.biases t = take k NB ++ drop k OB) _ _ 0).
    + intros k [ls act ws bs] w1 Hk (Hg1 & Els & Eact & Hlws & Hlbs & Hvws & Hvbs & Ews & Ebs).
      cbn [Network.layerSizes Network.hiddenActivation Network.weights Network.biases] in *.
      destruct (lookup_lt_is_Some_2 ws k ltac:(lia)) as [Wk HWk].
      destruct (lookup_lt_is_Some_2 bs k ltac:(lia)) as [bk Hbk].
      destruct (lookup_lt_is_Some_2 (Network.accDw acc) k ltac:(lia)) as [a Ha].
      destruct (lookup_lt_is_Some_2 (Network.accDb acc) k ltac:(lia)) as [ab Hab].
      destruct (lookup_lt_is_Some_2 OW k ltac:(lia)) as [Ok HOk].
      destruct (lookup_lt_is_Some_2 OB k ltac:(lia)) as [Obk HObk].
      destruct (lookup_lt_is_Some_2 AW k ltac:(lia)) as [Ak HAk].
      destruct (lookup_lt_is_Some_2 AB k ltac:(lia)) as [Abk HAbk].
      assert (HvWk : valid w1 Wk) by exact (Forall_valid_lookup _ _ _ _ Hvws HWk).
      assert (Hvbk : valid w1 bk) by exact (Forall_valid_lookup _ _ _ _ Hvbs Hbk).
      assert (Hva : valid w a) by exact (Forall_valid_lookup _ _ _ _ Hvw Ha).
      assert (Hvab : valid w ab) by exact (Forall_valid_lookup _ _ _ _ Hvb Hab).
      assert (HdWk : deref w1 Wk = Ok).
      { pose proof (lookup_fmap_deref _ _ _ _ _ Ews HWk) as H1.
        rewrite lookup_take_drop, HOk in H1 by lia. by injection H1. }
      assert (Hdbk : deref w1 bk = Obk).
      { pose proof (lookup_fmap_deref _ _ _ _ _ Ebs Hbk) as H1.
        rewrite lookup_take_drop, HObk in H1 by lia. by injection H1. }
      assert (Hda : deref w a = Ak).
      { pose proof (lookup_fmap_deref _ _ _ _ _ EAW Ha) as H1.
        rewrite HAk in H1. by injection H1. }
      assert (Hdab : deref w ab = Abk).
      { pose proof (lookup_fmap_deref _ _ _ _ _ EAB Hab) as H1.
        rewrite HAbk in H1. by injection H1. }
      rewrite HWk, Ha. apply guarded_bind_Some. apply guarded_bind_Some.
      eapply guarded_bind; [apply scale_spec; valid_tac|].
      fresh_intro sa w2 Hg2 Hvsa Hdsa.
      eapply guarded_bind; [apply sub_spec; valid_tac|].
      fresh_intro W' w3 Hg3 HvW' HdW'.
      cbn [Network.layerSizes Network.hiddenActivation Network.weights Network.biases].
      rewrite Hbk, Hab. apply guarded_bind_Some. apply guarded_bind_Some.
      eapply guarded_bind; [apply scale_spec; valid_tac|].
      fresh_intro sb w4 Hg4 Hvsb Hdsb.
      eapply guarded_bind; [apply sub_spec; valid_tac|].
      fresh_intro b' w5 Hg5 Hvb' Hdb'.
      apply guarded_ret.
      cbn [Network.layerSizes Network.hiddenActivation Network.weights Network.biases].
      split; [grows_tac|]. split; [done|]. split; [done|].
      rewrite !length_insert. split; [done|]. split; [done|].
      split; [apply Forall_insert; valid_tac|].
      split; [apply Forall_insert; valid_tac|].
      rewrite !list_fmap_insert.
      assert (ENk : NW !! k = Some (mat_sub Ok (mat_scale Ak scale))).
      { unfold NW, updated. rewrite lookup_zip_with, HOk, HAk. done. }
      assert (ENBk : NB !! k = Some (mat_sub Obk (mat_scale Abk scale))).
      { unfold NB, updated. rewrite lookup_zip_with, HObk, HAbk. done. }
      split.
      * rewrite <- (insert_take_drop_step NW OW k _ ltac:(lia) ENk).
        deref_norm. by rewrite Ews.
      * rewrite <- (insert_take_drop_step NB OB k _ ltac:(lia) ENBk).
        deref_norm. by rewrite Ebs.
    + split; [apply grows_refl|]. rewrite !take_0, !drop_0. simpl.
      split; [done|]. split; [done|]. split; [done|]. split; [lia|]. auto.
  - intros t w' _ (Hg1 & Els & Eact & Hlws & Hlbs & Hvws & Hvbs & Ews & Ebs).
    simpl in Ews, Ebs.
    rewrite !take_ge, !drop_ge, !app_nil_r in * by lia.
    split; [done|]. split; [done|]. split; [|auto].
    split; [by split|lia].
Qed.
End TrainBatch.

Section TrainBatchSpec.
Context {F : Type} {NF : Number F} {RS : RandomSource F}.
Implicit Types (w : world F).

Lemma batch_samples_snoc samples pre x s :
  samples !! x = Some s ->
  batch_samples samples (pre ++ [x]) = batch_samples samples pre ++ [s].
Proof. intros Hs. unfold batch_samples. rewrite omap_app. simpl. by rewrite Hs. Qed.

Lemma train_batch_spec w samples (lr : F) batch st f df :
  net_ok w (Network.net st) -> (batch <> [] -> registered (Network.net st) f df) ->
  Forall (sample_valid w) samples ->
  Forall (fun idx => idx < length samples) batch ->
  returns (Network.train_batch samples lr batch st) w
    (batch_post f df w samples lr batch st).
Proof.
  intros Hok Hreg Hsv Hbatch. unfold Network.train_batch, returns.
  set (this := Network.net st) in *.
  set (L := length (Network.weights this)).
  pose proof Hok as [[HW HB] Hlen].
  eapply guarded_bind; [apply zeros_map_spec|].
  intros aw w1 Hg1 (Hvaw & Hlaw & Eaw).
  eapply guarded_bind; [apply zeros_map_spec|].
  intros ab w2 Hg2 (Hvab & Hlab & Eab).
  assert (Eab' : deref w2 <$> ab = zeros_like <$> (deref w <$> Network.biases this)).
  { rewrite Eab. by deref_norm. }
  clear Eab.
  eapply guarded_bind.
  - apply (guarded_for_of
      (fun (pre : list nat) (r : Network.accumulators * F * nat) w' =>
         grows w2 w'
         /\ length (Network.accDw r.1.1) = L /\ length (Network.accDb r.1.1) = L
         /\ Forall (valid w') (Network.accDw r.1.1)
         /\ Forall (valid w') (Network.accDb r.1.1)
         /\ deref w' <$> Network.accDw r.1.1 = acc_w f df w this (batch_samples samples pre)
         /\ deref w' <$> Network.accDb r.1.1 = acc_b f df w this (batch_samples samples pre)
         /\ r.1.2 = batch_loss f w this (batch_samples samples pre) (Network.totalLoss st)
         /\ r.2 = batch_correct f w this (batch_samples samples pre) (Network.correct st))).
    + intros pre x post [[acc tl] c] w3 Hb (Hg3 & Hlw & Hlb & Hvw & Hvb & Ew & Eb & Etl & Ec).
      cbn [fst snd] in *.
      assert (Hx : x < length samples).
      { rewrite Forall_forall in Hbatch. apply Hbatch. rewrite Hb.
        rewrite elem_of_app, elem_of_cons. auto. }
      destruct (lookup_lt_is_Some_2 samples x Hx) as [s Hs].
      assert (Hvs : sample_valid w s) by (by eapply Forall_lookup_1).
      assert (Hreg' : registered this f df).
      { apply Hreg. rewrite Hb. by destruct pre. }
      eapply guarded_weaken.
      { eapply (train_sample_spec w w3 this samples x s acc tl c f df); try done.
        grows_tac. }
      intros [[acc' tl'] c'] w4 Hg4 (Hlw' & Hlb' & Hvw' & Hvb' & Ew' & Eb' & Etl' & Ec').
      cbn [fst snd] in *.
      rewrite (batch_samples_snoc _ _ _ _ Hs).
      unfold acc_w, acc_b, batch_loss, batch_correct. rewrite !fold_left_app. simpl.
      fold (acc_w f df w this (batch_samples samples pre)).
      fold (acc_b f df w this (batch_samples samples pre)).
      fold (batch_loss f w this (batch_samples samples pre) (Network.totalLoss st)).
      fold (batch_correct f w this (batch_samples samples pre) (Network.correct st)).
      rewrite Ew', Eb', Etl', Ec', Etl, Ec.
      split; [grows_tac|]. auto 10.
    + cbn [fst snd Network.accDw Network.accDb].
      split; [apply grows_refl|]. split; [lia|]. split; [lia|].
      split; [valid_tac|]. split; [done|].
      split; [by deref_norm|]. split; [done|]. done.
  - intros [[acc tl] c] w3 _ (Hg3 & Hlw & Hlb & Hvw & Hvb & Ew & Eb & Etl & Ec).
    cbn [fst snd] in *.
    eapply guarded_bind.
    { eapply (apply_gradients_spec w3 this acc); try done.
      eapply net_ok_grows; [|exact Hok]. grows_tac. }
    intros this' w4 Hg4 (Els & Eact & Hok' & Hl' & Ews' & Ebs').
    apply guarded_ret. unfold batch_post. cbn [Network.net Network.totalLoss Network.correct].
    fold this. split; [done|]. split; [done|]. split; [done|].
    rewrite Ews', Ebs'. deref_norm. auto.
Qed.
End TrainBatchSpec.

(** * The shuffle and the loops of [train] *)

Section Shuffle.
Context {F : Type} {NF : Number F} {RS : RandomSource F}.
Implicit Types (w : world F).

Lemma swap_same (l : list nat) i : i < length l -> Network.swap l i i = l.
Proof.
  intros Hi. unfold Network.swap.
  destruct (lookup_lt_is_Some_2 l i Hi) as [x Hx]. rewrite Hx. simpl.
  rewrite list_insert_insert_eq. by apply list_insert_id.
Qed.

Lemma swap_decomposed (l1 r1 r2 : list nat) xi xj :
  Network.swap (l1 ++ xi :: r1 ++ xj :: r2) (length l1) (length l1 + S (length r1))
  = l1 ++ xj :: r1 ++ xi :: r2.
Proof.
  unfold Network.swap.
  rewrite (list_lookup_middle l1 _ xi (length l1)) by done.
  assert (H2 : (l1 ++ xi :: r1 ++ xj :: r2) !! (length l1 + S (length r1)) = Some xj).
  { rewrite lookup_app_r by lia.
    replace (length l1 + S (length r1) - length l1) with (S (length r1)) by lia.
    simpl. by rewrite (list_lookup_middle r1 _ xj (length r1)). }
  rewrite H2. simpl.
  replace (length l1) with (length l1 + 0) at 2 by lia.
  rewrite insert_app_r. simpl. rewrite insert_app_r. simpl.
  replace (length r1) with (length r1 + 0) at 1 by lia.
  by rewrite insert_app_r.
Qed.

Lemma swap_lt_perm (l : list nat) i j :
  i < j -> j < length l -> Network.swap l i j ≡ₚ l.
Proof.
  intros Hij Hj.
  destruct (lookup_lt_is_Some_2 l i ltac:(lia)) as [xi Hxi].
  destruct (lookup_lt_is_Some_2 l j ltac:(lia)) as [xj Hxj].
  pose proof (take_drop_middle l i xi Hxi) as Hl.
  assert (Hr : drop (S i) l !! (j - S i) = Some xj).
  { rewrite lookup_drop. rewrite <- Hxj. f_equal. lia. }
  pose proof (take_drop_middle _ _ _ Hr) as Hrr.
  rewrite <- Hrr in Hl.
  assert (Hl1 : length (take i l) = i) by (rewrite length_take; lia).
  assert (Hr1 : length (take (j - S i) (drop (S i) l)) = j - S i).
  { rewrite length_take. apply lookup_lt_Some in Hr. lia. }
  set (l1 := take i l) in *. set (r1 := take (j - S i) (drop (S i) l)) in *.
  set (r2 := drop (S (j - S i)) (drop (S i) l)) in *.
  assert (Ei : i = length l1) by done.
  assert (Ej : j = length l1 + S (length r1)) by lia.
  clearbody l1 r1 r2. clear Hxi Hxj Hr Hrr Hl1 Hr1 Hij Hj.
  rewrite Ei, Ej. clear Ei Ej. subst l.
  rewrite swap_decomposed.
  apply Permutation_app_head.
  rewrite <- !Permutation_middle. by rewrite (Permutation_swap xi xj).
Qed.

Lemma swap_comm (l : list nat) i j :
  i <> j -> Network.swap l i j = Network.swap l j i.
Proof. intros Hij. unfold Network.swap. simpl. by rewrite list_insert_insert_ne. Qed.

Lemma swap_perm (l : list nat) i j :
  i < length l -> j < length l -> Network.swap l i j ≡ₚ l.
Proof.
  intros Hi Hj. destruct (lt_eq_lt_dec i j) as [[H| ->]|H].
  - by apply swap_lt_perm.
  - by rewrite swap_same.
  - rewrite swap_comm by lia. by apply swap_lt_perm.
Qed.

Lemma shuffle_indices_spec {E T} (l : list nat) w :
  guarded E T (Network.shuffle_indices l) w
    (fun l' w' => l' ≡ₚ l /\ heap w' = heap w).
Proof.
  unfold Network.shuffle_indices.
  eapply guarded_weaken.
  - apply (guarded_for_down
      (fun (k : nat) (ind : list nat) w' => ind ≡ₚ l /\ heap w' = heap w)).
    + intros k ind w1 Hk [Hperm Hheap]. cbv zeta.
      unfold guarded, run_sat, bind, Math_random_floor_mul, ret. simpl.
      split; [unfold grows; simpl; done|]. split; [|done].
      rewrite swap_perm; [done| |].
      * rewrite (Permutation_length Hperm). lia.
      * pose proof (random_floor_mul_lt (draws w1) (k + 1 + 1) ltac:(lia)).
        rewrite (Permutation_length Hperm). lia.
    + done.
  - by intros l' w' _ [? ?].
Qed.
End Shuffle.

Section TrainLoops.
Context {F : Type} {NF : Number F} {RS : RandomSource F}.
Implicit Types (w : world F).

Lemma sample_valid_grows w w' (samples : list Network.sample) :
  grows w w' -> Forall (sample_valid w) samples -> Forall (sample_valid w') samples.
Proof.
  intros Hg Hsv. eapply Forall_impl; [exact Hsv|]. intros s [Hi Ht].
  split; by eapply grows_valid.
Qed.

Lemma registered_same (this this' : Network.t) (f df : F -> nat -> F) :
  Network.hiddenActivation this' = Network.hiddenActivation this ->
  registered this f df -> registered this' f df.
Proof. unfold registered. by intros ->. Qed.

Lemma Forall_take_drop {A} (P : A -> Prop) (l : list A) n b :
  Forall P l -> Forall P (take n (drop b l)).
Proof. intros H. by apply Forall_take, Forall_drop. Qed.

(** With a positive batch size and fuel for every index, the loop over
    the batches returns what its batches leave one after the other. *)
Lemma train_batches_returns samples (lr : F) batchSize indices f df :
  0 < batchSize ->
  Forall (fun idx => idx < length samples) indices ->
  forall fuel b st w,
  length indices - b < fuel ->
  net_ok w (Network.net st) -> registered (Network.net st) f df ->
  Forall (sample_valid w) samples ->
  returns (Network.train_batches fuel samples lr batchSize indices b st) w
    (fun st' w' => batches_post f df samples lr batchSize indices b st w st' w'
                   /\ net_ok w' (Network.net st')
                   /\ Network.hiddenActivation (Network.net st')
                      = Network.hiddenActivation (Network.net st)).
Proof.
  intros Hbs Hidx. induction fuel as [|fuel IH]; intros b st w Hfuel Hok Hreg Hsv; [lia|].
  simpl. destruct (Nat.ltb_spec b (length indices)) as [Hb|Hb].
  - eapply guarded_bind.
    + apply (train_batch_spec w samples lr _ st f df); [done|done|done|].
      by apply Forall_take_drop.
    + intros st1 w1 Hg1 Hpost. cbv beta in Hpost.
      pose proof Hpost as (_ & Hact & Hok1 & _).
      eapply guarded_weaken.
      * apply IH; [lia|done|by eapply registered_same|by eapply sample_valid_grows].
      * intros st2 w2 Hg2 (Hrun & Hok2 & Hact2). cbv beta.
        split; [by eapply batches_step|]. split; [done|]. by rewrite Hact2.
  - apply guarded_ret. split; [by apply batches_done|]. done.
Qed.

(** A batch size at least the number of indices: one batch, of all
    the indices. *)
Lemma batches_post_single f df samples (lr : F) batchSize indices st w st' w' :
  0 < length indices <= batchSize ->
  batches_post f df samples lr batchSize indices 0 st w st' w' ->
  batch_post f df w samples lr indices st st' w'.
Proof.
  intros Hlen Hrun. inversion Hrun as [|b0 st0 w0 st1 w1 st2 w2 Hb Hpost Hrest]; subst; [lia|].
  rewrite drop_0, take_ge in Hpost by lia.
  inversion Hrest; subst; [done|lia].
Qed.

(** With a batch size of zero the loop never advances: no fuel is
    enough. *)
Lemma train_batches_zero samples (lr : F) indices b :
  b < length indices ->
  forall fuel st w,
  net_ok w (Network.net st) -> Forall (sample_valid w) samples ->
  Network.train_batches fuel samples lr 0 indices b st w = Timeout.
Proof.
  intros Hb. induction fuel as [|fuel IH]; intros st w Hok Hsv; [done|].
  simpl. destruct (Nat.ltb_spec b (length indices)) as [_|?]; [|lia].
  pose proof (train_batch_spec w samples lr [] st (fun x _ => x) (fun x _ => x) Hok
                ltac:(done) Hsv ltac:(constructor)) as Hret.
  apply returns_inv in Hret as (st1 & w1 & Erun & Hg & Hpost).
  rewrite take_0. unfold bind. rewrite Erun. rewrite Nat.add_0_r.
  destruct Hpost as (_ & _ & Hok1 & _).
  apply IH; [done|by eapply sample_valid_grows].
Qed.

Lemma seq_lt_length n : Forall (fun idx => idx < n) (seq 0 n).
Proof. apply Forall_forall. intros x Hx. apply elem_of_seq in Hx. lia. Qed.

(** An epoch returns, with the parameters in the store and a record
    more in the history. *)
Lemma train_epoch_returns fuel samples (lr : F) batchSize shuffle onEpoch epoch st w f df :
  0 < batchSize -> length samples < fuel ->
  net_ok w st.1 -> registered st.1 f df -> Forall (sample_valid w) samples ->
  callback_ok onEpoch ->
  returns (Network.train_epoch fuel samples lr batchSize shuffle onEpoch epoch st) w
    (fun st' w' => net_ok w' st'.1
                   /\ Network.hiddenActivation st'.1 = Network.hiddenActivation st.1
                   /\ length st'.2 = S (length st.2)).
Proof.
  intros Hbs Hfuel Hok Hreg Hsv Hcb. unfold Network.train_epoch.
  eapply guarded_bind.
  - instantiate (1 := fun l' w' => l' ≡ₚ seq 0 (length samples)).
    destruct shuffle.
    + eapply guarded_weaken; [apply shuffle_indices_spec|]. by intros l' w' _ [? _].
    + by apply guarded_ret.
  - intros ind w1 Hg1 Hperm. cbv beta in Hperm.
    eapply guarded_bind.
    + apply (train_batches_returns samples lr batchSize ind f df); try done.
      * rewrite Hperm. apply seq_lt_length.
      * rewrite (Permutation_length Hperm), length_seq. lia.
      * by eapply net_ok_grows.
      * by eapply sample_valid_grows.
    + intros p w2 Hg2 (_ & Hok2 & Hact2). simpl in Hact2.
      eapply guarded_bind.
      * instantiate (1 := fun _ _ => True).
        destruct onEpoch as [cb|]; [|by apply guarded_ret].
        by apply (Hcb cb).
      * intros _ w3 Hg3 _. apply guarded_ret. simpl.
        split; [by eapply net_ok_grows|]. split; [done|].
        rewrite length_app. simpl. lia.
Qed.

(** [train] returns one record per epoch. *)
Lemma train_returns fuel this samples (o : Network.options F) w f df :
  0 < default 16 (Network.batchSize o) -> length samples < fuel ->
  net_ok w this -> registered this f df -> Forall (sample_valid w) samples ->
  callback_ok (Network.onEpoch o) ->
  returns (Network.train fuel this samples o) w
    (fun r w' => length r.1 = default 1 (Network.epochs o) /\ net_ok w' r.2
                 /\ Network.hiddenActivation r.2 = Network.hiddenActivation this).
Proof.
  intros Hbs Hfuel Hok Hreg Hsv Hcb. unfold Network.train.
  eapply guarded_bind.
  - apply (guarded_for_loop
      (fun k (st : Network.t * list (Network.epoch_stat F)) w' =>
         grows w w' /\ net_ok w' st.1
         /\ Network.hiddenActivation st.1 = Network.hiddenActivation this
         /\ length st.2 = k)).
    + intros k st w1 Hk (Hg1 & Hok1 & Hact1 & Hlen1).
      eapply guarded_weaken.
      * apply (train_epoch_returns fuel samples _ _ _ _ k st w1 f df); try done.
        -- by eapply registered_same.
        -- by eapply sample_valid_grows.
      * intros st' w2 Hg2 (Hok2 & Hact2 & Hlen2). cbv beta.
        split; [by eapply grows_trans|]. split; [done|].
        split; [by rewrite Hact2|]. by rewrite Hlen2, Hlen1.
    + split; [apply grows_refl|]. done.
  - intros r w1 Hg1 (_ & Hok1 & Hact1 & Hlen1). apply guarded_ret. simpl.
    by rewrite Hlen1.
Qed.

(** No epoch: [train] returns the empty history at once, and nothing
    has changed. *)
Lemma train_no_epoch fuel this samples (o : Network.options F) w :
  Network.epochs o = Some 0 -> Network.train fuel this samples o w = Ok ([], this) w.
Proof. intros Ho. unfold Network.train. by rewrite Ho. Qed.

Lemma for_loop_timeout_first {S} n i (body : nat -> S -> M F S) s w :
  body i s w = Timeout -> for_loop (Datatypes.S n) i body s w = Timeout.
Proof. intros Hb. simpl. unfold bind. by rewrite Hb. Qed.

(** A batch size of zero on a non-empty list of samples: the first
    epoch never ends, whatever the fuel. *)
Lemma train_zero_batch fuel this samples (o : Network.options F) w :
  Network.batchSize o = Some 0 -> 0 < default 1 (Network.epochs o) -> samples <> [] ->
  net_ok w this -> Forall (sample_valid w) samples ->
  Network.train fuel this samples o w = Timeout.
Proof.
  intros Hbs Hep Hne Hok Hsv. unfold Network.train. rewrite Hbs. simpl.
  destruct (default 1 (Network.epochs o)) as [|n]; [lia|].
  unfold bind at 1. rewrite for_loop_timeout_first; [done|].
  unfold Network.train_epoch.
  pose proof (shuffle_indices_spec (E := fun _ => False) (T := False)
                (seq 0 (length samples)) w) as Hsh.
  apply returns_inv in Hsh as (ind & w1 & Esh & Hg1 & Hperm & _).
  assert (Hind : exists ind' w', (if default true (Network.shuffle o)
                      then Network.shuffle_indices (seq 0 (length samples))
                      else ret (seq 0 (length samples))) w = Ok ind' w'
                   /\ grows w w' /\ ind' ≡ₚ seq 0 (length samples)).
  { destruct (default true (Network.shuffle o)).
    - by exists ind, w1.
    - exists (seq 0 (length samples)), w. split; [done|]. split; [apply grows_refl|done]. }
  destruct Hind as (ind' & w' & Eind & Hg & Hp).
  unfold bind at 1. rewrite Eind.
  unfold bind at 1. rewrite train_batches_zero; [done| | |].
  - rewrite (Permutation_length Hp), length_seq. destruct samples; [done|simpl; lia].
  - simpl. by eapply net_ok_grows.
  - by eapply sample_valid_grows.
Qed.

(** Rounds of a loop: one more at the end, and a weaker step. *)
Lemma rounds_snoc {S} (step : nat -> S -> world F -> S -> world F -> Prop)
    n i s w s1 w1 s2 w2 :
  rounds step n i s w s1 w1 -> step (i + n) s1 w1 s2 w2 ->
  rounds step (Datatypes.S n) i s w s2 w2.
Proof.
  intros Hr. revert s2 w2. induction Hr as [i s w|n i s w sa wa sb wb Hstep Hr IH];
    intros s2 w2 Hlast.
  - rewrite Nat.add_0_r in Hlast. eapply rounds_step; [exact Hlast|apply rounds_done].
  - eapply rounds_step; [exact Hstep|]. apply IH.
    by replace (Datatypes.S i + n) with (i + Datatypes.S n) by lia.
Qed.

Lemma rounds_impl {S} (step step' : nat -> S -> world F -> S -> world F -> Prop)
    n i s w s' w' :
  (forall k a u b v, step k a u b v -> step' k a u b v) ->
  rounds step n i s w s' w' -> rounds step' n i s w s' w'.
Proof.
  intros Himp Hr. induction Hr as [|n i s w sa wa sb wb Hstep Hr IH]; [apply rounds_done|].
  eapply rounds_step; [by apply Himp|done].
Qed.

(** An epoch of a batch size that is at least the number of samples
    is one batch, of all the samples. *)
Lemma epoch_post_single f df samples (lr : F) batchSize shuffle epoch st w st' w' :
  0 < length samples <= batchSize ->
  epoch_post (fun indices => batches_post f df samples lr batchSize indices 0)
    samples shuffle epoch st w st' w' ->
  epoch_post (fun indices p u => batch_post f df u samples lr indices p)
    samples shuffle epoch st w st' w'.
Proof.
  intros Hlen (indices & w1 & p & w2 & Hperm & Hid & Hheap & Hrun & Hrest).
  exists indices, w1, p, w2. repeat (split; [done|]). split; [|done].
  apply (batches_post_single f df samples lr batchSize); [|done].
  by rewrite (Permutation_length Hperm), length_seq.
Qed.

(** An epoch returns what its batches leave: the batches of
    [batchSize] indices, one after the other, over the samples in the
    order of the epoch. *)
Lemma train_epoch_post fuel samples (lr : F) batchSize shuffle onEpoch epoch st w f df :
  0 < batchSize -> length samples < fuel ->
  net_ok w st.1 -> registered st.1 f df -> Forall (sample_valid w) samples ->
  callback_ok onEpoch ->
  returns (Network.train_epoch fuel samples lr batchSize shuffle onEpoch epoch st) w
    (fun st' w' =>
       epoch_post (fun indices => batches_post f df samples lr batchSize indices 0)
         samples shuffle epoch st w st' w'
       /\ net_ok w' st'.1
       /\ Network.hiddenActivation st'.1 = Network.hiddenActivation st.1).
Proof.
  intros Hbs Hfuel Hok Hreg Hsv Hcb. unfold Network.train_epoch.
  eapply guarded_bind.
  - instantiate (1 := fun l' w' => l' ≡ₚ seq 0 (length samples) /\ heap w' = heap w
                                   /\ (shuffle = false -> l' = seq 0 (length samples))).
    destruct shuffle.
    + eapply guarded_weaken; [apply shuffle_indices_spec|].
      intros l' w' _ [? ?]. by repeat split.
    + by apply guarded_ret.
  - intros ind w1 Hg1 (Hperm & Hheap & Hid).
    eapply guarded_bind.
    + apply (train_batches_returns samples lr batchSize ind f df); try done.
      * rewrite Hperm. apply seq_lt_length.
      * rewrite (Permutation_length Hperm), length_seq. lia.
      * by eapply net_ok_grows.
      * by eapply sample_valid_grows.
    + intros p w2 Hg2 (Hrun & Hok2 & Hact2). simpl in Hact2.
      eapply guarded_bind.
      * instantiate (1 := fun _ _ => True).
        destruct onEpoch as [cb|]; [|by apply guarded_ret].
        by apply (Hcb cb).
      * intros _ w3 Hg3 _. apply guarded_ret. cbn [fst snd].
        split; [|split; [by eapply net_ok_grows|done]].
        exists ind, w1, p, w2. by repeat split.
Qed.

(** [train] returns what its epochs leave, one after the other: the
    history, and the network of the last update. *)
Lemma train_rounds fuel this samples (o : Network.options F) w f df :
  0 < default 16 (Network.batchSize o) -> length samples < fuel ->
  net_ok w this -> registered this f df -> Forall (sample_valid w) samples ->
  callback_ok (Network.onEpoch o) ->
  returns (Network.train fuel this samples o) w
    (fun r w' =>
       rounds (epoch_post (fun indices =>
                             batches_post f df samples (default lit_0_01 (Network.lr o))
                               (default 16 (Network.batchSize o)) indices 0)
                 samples (default true (Network.shuffle o)))
         (default 1 (Network.epochs o)) 0 (this, []) w (r.2, r.1) w').
Proof.
  intros Hbs Hfuel Hok Hreg Hsv Hcb. unfold Network.train.
  set (step := epoch_post _ samples _).
  eapply guarded_bind.
  - apply (guarded_for_loop
      (fun k (st : Network.t * list (Network.epoch_stat F)) w' =>
         grows w w' /\ net_ok w' st.1
         /\ Network.hiddenActivation st.1 = Network.hiddenActivation this
         /\ rounds step k 0 (this, []) w st w')).
    + intros k st w1 Hk (Hg1 & Hok1 & Hact1 & Hr1).
      eapply guarded_weaken.
      * apply (train_epoch_post fuel samples _ _ _ _ k st w1 f df); try done.
        -- by eapply registered_same.
        -- by eapply sample_valid_grows.
      * intros st' w2 Hg2 (Hpost & Hok2 & Hact2). cbv beta.
        split; [by eapply grows_trans|]. split; [done|].
        split; [by rewrite Hact2|]. eapply rounds_snoc; [exact Hr1|exact Hpost].
    + split; [apply grows_refl|]. split; [done|]. split; [done|]. apply rounds_done.
  - intros r w1 Hg1 (_ & _ & _ & Hr). apply guarded_ret. cbn [fst snd].
    by destruct r.
Qed.
End TrainLoops.

(** * Snapshots *)

Section SaveLoad.
Context {F : Type} {NF : Number F} {RS : RandomSource F}.
Implicit Types (w : world F).

Lemma map_M_reads {A B} (f : A -> M F B) (g : A -> B) (xs : list A) w :
  (forall x, f x w = Ok (g x) w) -> map_M f xs w = Ok (g <$> xs) w.
Proof.
  intros Hf. induction xs as [|x xs IH]; simpl; [done|].
  unfold bind at 1. rewrite Hf. unfold bind at 1. by rewrite IH.
Qed.

(** [save] reads the store and leaves it as it is. *)
Lemma save_run this w :
  Network.save this w
  = Ok (Network.JSON_stringify
          (Network.mk_snapshot F (Some (Network.layerSizes this))
             (Some (Network.hiddenActivation this))
             (Some (json_of w <$> Network.weights this))
             (Some (json_of w <$> Network.biases this)))) w.
Proof.
  unfold Network.save.
  unfold bind at 1. rewrite (map_M_reads _ (json_of w)) by apply toJSON_run.
  unfold bind at 1. by rewrite (map_M_reads _ (json_of w)) by apply toJSON_run.
Qed.

Lemma fromJSON_map_spec {E T} (js : list (Matrix.json F)) w :
  guarded E T (map_M Matrix.fromJSON js) w
    (fun ms w' => Forall (valid w') ms /\ deref w' <$> ms = json_value <$> js).
Proof.
  revert w. induction js as [|j js IH]; intros w; simpl.
  - apply guarded_ret. split; [constructor|done].
  - eapply guarded_bind; [apply fromJSON_spec|].
    fresh_intro m w1 Hg1 Hvm Hdm.
    eapply guarded_bind; [apply IH|].
    intros ms w2 Hg2 (Hvms & Ems). apply guarded_ret.
    split; [constructor; [valid_tac|done]|].
    rewrite !fmap_cons, Ems. by deref_norm.
Qed.

(** [load] on the object of a snapshot is the code that follows the
    [JSON.parse]; on a text that is not JSON it raises [SyntaxError]
    at once. *)
Lemma load_object (data : Network.snapshot F) :
  Network.load (Network.Object data)
  = (ls <- defined (Network.s_layerSizes data) ;;
     net <- Network.new ls (Network.s_hiddenActivation data) ;;
     ws <- defined (Network.s_weights data) ;;
     weights' <- map_M Matrix.fromJSON ws ;;
     bs <- defined (Network.s_biases data) ;;
     biases' <- map_M Matrix.fromJSON bs ;;
     ret (Network.mk (Network.layerSizes net) (Network.hiddenActivation net)
            weights' biases')).
Proof. reflexivity. Qed.

Lemma load_parsed (json : Network.load_arg F) data :
  snapshot_of json = Some data -> Network.load json = Network.load (Network.Object data).
Proof.
  intros Hd. destruct json as [s|o]; simpl in Hd.
  - unfold Network.load, Network.JSON_parse. rewrite Hd. reflexivity.
  - by injection Hd as ->.
Qed.


(** [load] returns the network of the snapshot's records, each matrix
    with the buffer the constructor makes of its [data], or raises
    [TypeError] at a missing property. *)
Lemma load_spec {E : error -> Prop} {T} (HE : E TypeError) (json : Network.load_arg F)
    data w :
  snapshot_of json = Some data ->
  guarded E T (Network.load json) w
    (fun net w' =>
       exists ls ws bs,
         Network.s_layerSizes data = Some ls /\ Network.s_weights data = Some ws
         /\ Network.s_biases data = Some bs
         /\ Network.layerSizes net = ls
         /\ Network.hiddenActivation net
            = default "relu"%string (Network.s_hiddenActivation data)
         /\ net_valid w' net
         /\ deref w' <$> Network.weights net = json_value <$> ws
         /\ deref w' <$> Network.biases net = json_value <$> bs).
Proof.
  intros Hdata. rewrite (load_parsed json data Hdata), load_object.
  eapply guarded_bind; [by apply (guarded_defined _ _ (fun ls w' => Network.s_layerSizes data = Some ls))|].
  intros ls w0 Hg0 Hls. cbv beta in Hls.
  eapply guarded_bind; [apply new_spec_network|].
  intros net w1 Hg1 (Els & Eact & _).
  eapply guarded_bind; [by apply (guarded_defined _ _ (fun ws w' => Network.s_weights data = Some ws))|].
  intros ws w2 Hg2 Hws. cbv beta in Hws.
  eapply guarded_bind; [apply fromJSON_map_spec|].
  intros Ws w3 Hg3 (HvW & EW).
  eapply guarded_bind; [by apply (guarded_defined _ _ (fun bs w' => Network.s_biases data = Some bs))|].
  intros bs w4 Hg4 Hbs. cbv beta in Hbs.
  eapply guarded_bind; [apply fromJSON_map_spec|].
  intros Bs w5 Hg5 (HvB & EB).
  apply guarded_ret. exists ls, ws, bs. simpl.
  repeat (split; [done|]). split; [split; simpl; valid_tac|].
  split; [by deref_norm|done].
Qed.




(** A buffer of [rows * cols] numbers that their text form gives back
    is the buffer [fromJSON] makes of the record [toJSON] wrote. *)
Lemma array_buffer_id (r k : nat) (xs : list F) :
  length xs = r * k -> array_buffer r k xs = xs.
Proof.
  intros Hlen. unfold array_buffer. apply list_eq. intros q.
  rewrite lookup_tabulate. destruct (decide (q < r * k)) as [Hq|Hq].
  - case_decide; [|lia].
    unfold buf_get, buffer in *.
    destruct (lookup_lt_is_Some_2 xs q ltac:(lia)) as [x Hx].
    by rewrite Hx.
  - symmetry. apply lookup_ge_None_2. lia.
Qed.

Lemma map_fixed (g : F -> F) (xs : list F) :
  Forall (fun x => g x = x) xs -> List.map g xs = xs.
Proof. induction 1 as [|x xs Hx _ IH]; simpl; [done|]. by rewrite Hx, IH. Qed.

Lemma json_value_roundtrip w m :
  wf w m -> Forall (fun x => json_number x = x) (entries (deref w m)) ->
  json_value (Network.stringify_matrix (json_of w m)) = deref w m.
Proof.
  intros (b & Hb & Hlen) Hnum. unfold json_value, json_of, Network.stringify_matrix.
  cbn [Matrix.j_rows Matrix.j_cols Matrix.j_data].
  rewrite (map_fixed _ _ Hnum). unfold deref in *. simpl in *.
  unfold buffer in *. rewrite Hb in *. simpl in *. f_equal. by apply array_buffer_id.
Qed.

Lemma json_values_roundtrip w (ms : list Matrix.t) :
  Forall (fun m => wf w m /\ Forall (fun x => json_number x = x) (entries (deref w m))) ms ->
  json_value <$> (List.map Network.stringify_matrix (json_of w <$> ms)) = deref w <$> ms.
Proof.
  induction 1 as [|m ms [Hwf Hnum] _ IH]; [done|].
  rewrite !fmap_cons. simpl.
  f_equal; [by apply json_value_roundtrip|done].
Qed.

(** The output of the forward pass is a function of the values of the
    parameters and of the input. *)
Lemma output_value_ext f w w' this this' input input' :
  deref w' <$> Network.weights this' = deref w <$> Network.weights this ->
  deref w' <$> Network.biases this' = deref w <$> Network.biases this ->
  deref w' input' = deref w input ->
  output_value f w' this' input' = output_value f w this input.
Proof.
  intros EW EB Ex. unfold output_value, trace_as, forward_trace.
  rewrite EW, EB, Ex. f_equal.
  apply (f_equal length) in EW. by rewrite !length_fmap in EW.
Qed.
End SaveLoad.

(** * The properties of the specification *)

Section Claims.
Context {F : Type} {NF : Number F} {RS : RandomSource F}.
Implicit Types (w : world F).

Lemma delta_last f df w this input target :
  delta f df w this input target (length (Network.weights this) - 1)
  = mat_sub (output_value f w this input) (deref w target).
Proof. unfold delta. by rewrite Nat.sub_diag. Qed.

Lemma delta_step f df w this input target i :
  0 < i < length (Network.weights this) ->
  delta f df w this input target (i - 1)
  = mat_hadamard
      (mat_mul (mat_transpose (nth_mat (deref w <$> Network.weights this) i))
               (delta f df w this input target i))
      (mat_map (nth_mat (trace_zs f w this input) (i - 1)) df).
Proof.
  intros Hi. unfold delta.
  replace (length (Network.weights this) - 1 - (i - 1))
    with (S (length (Network.weights this) - 1 - i)) by lia.
  simpl. rewrite length_fmap.
  replace (length (Network.weights this) - S (length (Network.weights this) - 1 - i))
    with i by lia.
  done.
Qed.

(** C1: for a network of [L] layers whose hidden activation is one of
    the table, [backward] returns; the delta of the output layer is the
    forward output minus the target, [a_L - target]; the delta of layer
    [i - 1] is [(W_i^T * delta_i) (.) dfn(z_(i-1))] for [0 < i < L]; the
    gradients it returns at every layer [i < L] are
    [dW_i = delta_i * a_i^T] and [db_i = delta_i]; and its loss is
    [crossEntropyLoss(a_L, target)]. *)
Theorem backward_computes_gradients w this input target f df :
  net_ok w this -> valid w input -> valid w target -> registered this f df ->
  returns (Network.backward this input target) w
    (backward_post f df w this input target).
Proof.
  intros [Hnet Hlen] Hin Htg Hreg.
  eapply guarded_weaken; [by apply (backward_spec w this input target f df)|].
  intros g w' _ (Hdw & Hdb & Hgrads & Hloss). unfold backward_post.
  split; [apply delta_last|]. split; [intros i Hi; by apply delta_step|].
  split; [done|]. split; [done|]. split; [|done].
  intros i Hi. apply Hgrads, Hi.
Qed.
End Claims.

(** On the two-layer network of [Concrete], its input and its target. *)
Lemma backward_computes_gradients_witness :
  returns (Network.backward Concrete.net Concrete.input Concrete.target) Concrete.store
    (backward_post Concrete.act Concrete.dact Concrete.store Concrete.net
       Concrete.input Concrete.target).
Proof.
  apply (backward_computes_gradients Concrete.store Concrete.net Concrete.input
           Concrete.target Concrete.act Concrete.dact).
  - split; [split; repeat constructor; unfold valid; simpl; lia|reflexivity].
  - unfold valid; simpl; lia.
  - unfold valid; simpl; lia.
  - reflexivity.
Defined.

Section MatrixClaims.
Context {F : Type} {NF : Number F} {RS : RandomSource F}.
Implicit Types (w : world F).

Lemma entry_mat_mul (A B : mat F) i j :
  i < nrows A -> j < ncols B -> entry (mat_mul A B) i j = dot A B i j.
Proof.
  intros Hi Hj. unfold entry, at_, mat_mul. cbn [entries ncols].
  rewrite buf_get_tabulate by nia.
  rewrite Nat.div_add_l, Nat.div_small, Nat.add_0_r by lia.
  by rewrite Nat.add_comm, Nat.Div0.mod_add, Nat.mod_small by lia.
Qed.

(** C8: the product of [A] ([m x n]) and [B] ([n x p]) has [m] rows and
    [p] columns, and its entry [(i, j)] is the sum over [k < n] of
    [A[i,k] * B[k,j]], added from [0] in the order of [k]. *)
Theorem mul_is_matrix_product w (A B : Matrix.t) :
  valid w A -> valid w B -> Matrix.cols A = Matrix.rows B ->
  returns (Matrix.mul A B) w
    (fun C w' =>
       Matrix.rows C = Matrix.rows A /\ Matrix.cols C = Matrix.cols B
       /\ forall i j, i < Matrix.rows A -> j < Matrix.cols B ->
            entry (deref w' C) i j
            = fsum (Matrix.cols A)
                (fun k => fmul (entry (deref w A) i k) (entry (deref w B) k j))).
Proof.
  intros HA HB _. eapply guarded_weaken; [by apply mul_spec|].
  intros C w' _ (_ & HC & _ & _). cbv beta.
  apply (f_equal nrows) in HC as Hr. apply (f_equal ncols) in HC as Hc.
  split; [done|]. split; [done|]. intros i j Hi Hj.
  rewrite HC. by apply entry_mat_mul.
Qed.

Lemma fresh_yields w (A : mat F) m w' : fresh w A m w' -> yields w A m w'.
Proof.
  intros Hf. pose proof Hf as (_ & HA & _).
  split; [by rewrite <- HA|]. split; [by rewrite <- HA|done].
Qed.

(** C2, as the code has it: no operation compares the shapes of its
    operands and none raises an error.  On operands of any shapes
    [add], [sub] and [hadamard] return a new matrix of the shape of
    [this] whose element [q] combines [this.data[q]] and
    [other.data[q]], [NaN] where [other] has no such element; [mul]
    returns a new [this.rows x other.cols] matrix of the sums over
    [k < this.cols]; [addVec] returns a new matrix of the shape of
    [this] with [vec.data[i]] added along row [i]. *)
Theorem operations_check_no_shape w (this other : Matrix.t) :
  valid w this -> valid w other ->
  returns (Matrix.add this (Some other)) w
    (yields w (mat_add (deref w this) (deref w other)))
  /\ returns (Matrix.sub this other) w
       (yields w (mat_sub (deref w this) (deref w other)))
  /\ returns (Matrix.mul this other) w
       (yields w (mat_mul (deref w this) (deref w other)))
  /\ returns (Matrix.hadamard this other) w
       (yields w (mat_hadamard (deref w this) (deref w other)))
  /\ returns (Matrix.addVec this other) w
       (yields w (mat_addVec (deref w this) (deref w other))).
Proof.
  intros Ht Ho.
  split; [|split; [|split; [|split]]];
    (eapply guarded_weaken; [|intros m w' _ Hf; apply fresh_yields, Hf]).
  - by apply add_spec.
  - by apply sub_spec.
  - by apply mul_spec.
  - by apply hadamard_spec.
  - by apply addVec_spec.
Qed.

(** C9: the constructor returns a network with a bias per transition,
    each the column of [layerSizes[i+1]] zeros, and a weight matrix per
    transition of shape [(layerSizes[i+1], layerSizes[i])] whose buffer
    [xavierInit] filled from the random draws. *)
Theorem constructor_zero_biases (ls : list nat) (act : option string) w :
  returns (Network.new ls act) w
    (fun net w' =>
       Network.layerSizes net = ls
       /\ Network.hiddenActivation net = default "relu"%string act
       /\ length (Network.weights net) = length ls - 1
       /\ length (Network.biases net) = length ls - 1
       /\ forall i, i < length ls - 1 -> layer_built ls net w' i).
Proof.
  eapply guarded_weaken; [apply new_spec_network|].
  intros net w' _ (Hls & Hact & Hlw & Hlb & _ & Hbuilt). done.
Qed.

Lemma grows_unchanged w w' this : net_valid w this -> grows w w' -> unchanged w w' this.
Proof.
  intros [HW HB] Hg. unfold unchanged. apply Forall_app. split.
  - eapply Forall_impl; [exact HW|]. intros m Hm. by apply grows_deref.
  - eapply Forall_impl; [exact HB|]. intros m Hm. by apply grows_deref.
Qed.

Lemma safe_preserves {A} (m : M F A) w this (V : A -> world F -> Prop) :
  net_valid w this -> safe m w V -> preserves m w this.
Proof.
  intros Hnet. unfold safe, guarded, preserves, run_sat.
  destruct (m w) as [a w'|e w'|]; [| |done].
  - intros [Hg _]. by apply grows_unchanged.
  - intros [-> Hg]. split; [done|]. by apply grows_unchanged.
Qed.

(** C10: [forward], [predict] and [backward] take the network and
    return a trace, a matrix and gradients, no network: they assign
    none of [layerSizes], [hiddenActivation], [weights] and [biases].
    Each of them ends, by its result or by a [TypeError], in a store
    where every weight matrix and every bias vector has the shape and
    the elements it had before the call. *)
Theorem inference_leaves_parameters w this input target :
  net_valid w this -> valid w input -> valid w target ->
  preserves (Network.forward this input) w this
  /\ preserves (Network.predict this input) w this
  /\ preserves (Network.backward this input target) w this.
Proof.
  intros Hnet Hin Htg. split; [|split].
  - eapply safe_preserves; [done|]. by apply (safe_forward (E := fun e => e = TypeError) eq_refl).
  - eapply safe_preserves; [done|]. by apply (safe_predict (E := fun e => e = TypeError) eq_refl).
  - eapply safe_preserves; [done|]. by apply (safe_backward (E := fun e => e = TypeError) eq_refl).
Qed.
End MatrixClaims.

(** The [2 x 2] weights of [Concrete] times its [2 x 1] weights. *)
Lemma mul_is_matrix_product_witness :
  returns (Matrix.mul (Matrix.mk 2 2 2) (Matrix.mk 2 1 0)) Concrete.store
    (fun C w' =>
       Matrix.rows C = 2 /\ Matrix.cols C = 1
       /\ forall i j, i < 2 -> j < 1 ->
            entry (deref w' C) i j
            = fsum 2 (fun k => fmul (entry (deref Concrete.store (Matrix.mk 2 2 2)) i k)
                                    (entry (deref Concrete.store (Matrix.mk 2 1 0)) k j))).
Proof.
  apply (mul_is_matrix_product Concrete.store (Matrix.mk 2 2 2) (Matrix.mk 2 1 0)).
  - unfold valid; simpl; lia.
  - unfold valid; simpl; lia.
  - reflexivity.
Defined.

(** On a column of two and a column of one. *)
Lemma operations_check_no_shape_witness :
  returns (Matrix.add Concrete.column2 (Some Concrete.column1)) Concrete.store_shapes
    (yields Concrete.store_shapes
       (mat_add (deref Concrete.store_shapes Concrete.column2)
                (deref Concrete.store_shapes Concrete.column1))).
Proof.
  apply (operations_check_no_shape Concrete.store_shapes Concrete.column2 Concrete.column1).
  - unfold valid; simpl; lia.
  - unfold valid; simpl; lia.
Defined.

(** On the two-layer network of [Concrete]. *)
Lemma inference_leaves_parameters_witness :
  preserves (Network.forward Concrete.net Concrete.input) Concrete.store Concrete.net
  /\ preserves (Network.predict Concrete.net Concrete.input) Concrete.store Concrete.net
  /\ preserves (Network.backward Concrete.net Concrete.input Concrete.target)
       Concrete.store Concrete.net.
Proof.
  apply (inference_leaves_parameters Concrete.store Concrete.net Concrete.input
           Concrete.target).
  - split; repeat constructor; unfold valid; simpl; lia.
  - unfold valid; simpl; lia.
  - unfold valid; simpl; lia.
Defined.

Section TrainClaims.
Context {F : Type} {NF : Number F} {RS : RandomSource F}.
Implicit Types (w : world F).

(** C3: [train] returns what its epochs leave one after the other,
    and every epoch what its batches leave: over the indices of the
    samples in the order of the epoch, each batch is the next
    [batchSize] indices from the offset [b], fewer for a last batch
    cut short, and it replaces the parameters by
    [W_i - (lr / |batch|) * accDW_i] and [b_i - (lr / |batch|) * accDB_i],
    where [|batch|] is the number of indices the batch has and
    [accDW_i], [accDB_i] are the gradients of its samples added up;
    the next batch, and the next epoch, start from these parameters,
    and the network [train] leaves is the one of the last update.
    The record of an epoch holds the loss and the correct predictions
    of its batches divided by the number of samples.  With [batchSize]
    at least the number of samples, every epoch is one batch of all
    the samples. *)
Theorem train_divides_by_batch_length fuel this samples (o : Network.options F) w f df :
  0 < default 16 (Network.batchSize o) -> length samples < fuel ->
  net_ok w this -> registered this f df -> Forall (sample_valid w) samples ->
  callback_ok (Network.onEpoch o) ->
  let lr := default lit_0_01 (Network.lr o) in
  let batchSize := default 16 (Network.batchSize o) in
  let shuffle := default true (Network.shuffle o) in
  returns (Network.train fuel this samples o) w
    (fun r w' =>
       rounds (epoch_post (fun indices => batches_post f df samples lr batchSize indices 0)
                 samples shuffle)
         (default 1 (Network.epochs o)) 0 (this, []) w (r.2, r.1) w'
       /\ (0 < length samples <= batchSize ->
           rounds (epoch_post (fun indices p u => batch_post f df u samples lr indices p)
                     samples shuffle)
             (default 1 (Network.epochs o)) 0 (this, []) w (r.2, r.1) w')).
Proof.
  intros Hbs Hfuel Hok Hreg Hsv Hcb lr batchSize shuffle.
  eapply guarded_weaken; [by apply (train_rounds fuel this samples o w f df)|].
  intros r w' _ Hr. cbv beta. split; [exact Hr|].
  intros Hlen. eapply rounds_impl; [|exact Hr].
  intros k a u b v. by apply epoch_post_single.
Qed.

(** C4, as the code has it: [train] checks none of [epochs],
    [batchSize] and [lr] and never raises [InvalidConfig].  With
    [epochs = 0] it returns the empty history at once and the network
    as it was; with [batchSize = 0], an epoch to run and a sample to
    train on, the loop over the batches never advances and no fuel
    lets [train] answer; with any [lr], positive or not, and a positive
    [batchSize], it returns a record per epoch. *)
Theorem train_checks_no_configuration fuel this samples (o : Network.options F) w f df :
  net_ok w this -> registered this f df -> Forall (sample_valid w) samples ->
  callback_ok (Network.onEpoch o) ->
  (Network.epochs o = Some 0 -> Network.train fuel this samples o w = Ok ([], this) w)
  /\ (Network.batchSize o = Some 0 -> 0 < default 1 (Network.epochs o) ->
      samples <> [] -> Network.train fuel this samples o w = Timeout)
  /\ (0 < default 16 (Network.batchSize o) -> length samples < fuel ->
      returns (Network.train fuel this samples o) w
        (fun r w' => length r.1 = default 1 (Network.epochs o) /\ net_ok w' r.2)).
Proof.
  intros Hok Hreg Hsv Hcb. split; [|split].
  - apply train_no_epoch.
  - intros Hbs Hep Hne. by apply train_zero_batch.
  - intros Hbs Hfuel.
    eapply guarded_weaken; [by apply (train_returns fuel this samples o w f df)|].
    intros r w' _ (Hlen & Hok' & _). done.
Qed.
End TrainClaims.

(** One sample, three epochs and a batch size of [16]: every epoch is
    one batch, of one index. *)
Lemma train_divides_by_batch_length_witness :
  let lr := default lit_0_01 (Network.lr (Concrete.options 0.5%float 3 16)) in
  let batchSize := default 16 (Network.batchSize (Concrete.options 0.5%float 3 16)) in
  let shuffle := default true (Network.shuffle (Concrete.options 0.5%float 3 16)) in
  returns (Network.train 2 Concrete.net Concrete.samples (Concrete.options 0.5%float 3 16))
    Concrete.store
    (fun r w' =>
       rounds (epoch_post (fun indices =>
                             batches_post Concrete.act Concrete.dact Concrete.samples lr
                               batchSize indices 0)
                 Concrete.samples shuffle)
         (default 1 (Network.epochs (Concrete.options 0.5%float 3 16))) 0
         (Concrete.net, []) Concrete.store (r.2, r.1) w'
       /\ (0 < length Concrete.samples <= batchSize ->
           rounds (epoch_post (fun indices p u =>
                                 batch_post Concrete.act Concrete.dact u Concrete.samples lr
                                   indices p)
                     Concrete.samples shuffle)
             (default 1 (Network.epochs (Concrete.options 0.5%float 3 16))) 0
             (Concrete.net, []) Concrete.store (r.2, r.1) w')).
Proof.
  apply (train_divides_by_batch_length 2 Concrete.net Concrete.samples
           (Concrete.options 0.5%float 3 16) Concrete.store Concrete.act Concrete.dact).
  - simpl; lia.
  - simpl; lia.
  - split; [split; repeat constructor; unfold valid; simpl; lia|reflexivity].
  - reflexivity.
  - repeat constructor; unfold valid; simpl; lia.
  - intros cb Hcb. discriminate Hcb.
Defined.

(** On the network of [Concrete], with [epochs = 0] and [batchSize = 0]. *)
Lemma train_checks_no_configuration_witness :
  (Network.epochs (Concrete.options 0%float 0 0) = Some 0 ->
   Network.train 3 Concrete.net Concrete.samples (Concrete.options 0%float 0 0)
     Concrete.store = Ok ([], Concrete.net) Concrete.store)
  /\ (Network.batchSize (Concrete.options 0%float 0 0) = Some 0 ->
      0 < default 1 (Network.epochs (Concrete.options 0%float 0 0)) ->
      Concrete.samples <> [] ->
      Network.train 3 Concrete.net Concrete.samples (Concrete.options 0%float 0 0)
        Concrete.store = Timeout)
  /\ (0 < default 16 (Network.batchSize (Concrete.options 0%float 0 0)) ->
      length Concrete.samples < 3 ->
      returns (Network.train 3 Concrete.net Concrete.samples
                 (Concrete.options 0%float 0 0)) Concrete.store
        (fun r w' => length r.1 = default 1 (Network.epochs (Concrete.options 0%float 0 0))
                     /\ net_ok w' r.2)).
Proof.
  apply (train_checks_no_configuration 3 Concrete.net Concrete.samples
           (Concrete.options 0%float 0 0) Concrete.store Concrete.act Concrete.dact).
  - split; [split; repeat constructor; unfold valid; simpl; lia|reflexivity].
  - reflexivity.
  - repeat constructor; unfold valid; simpl; lia.
  - intros cb Hcb. discriminate Hcb.
Defined.

Section SoftmaxClaim.
Context {F : Type} {NF : Number F}.
Implicit Types (w : world F).

End SoftmaxClaim.



(** C2 fails as stated: a column of two and a column of one are added,
    subtracted and multiplied elementwise, the column of one is
    broadcast over the two rows, and a column of two is multiplied by a
    column of three; every call returns a matrix, [NaN] where an
    operand had no element. *)
Lemma mismatched_shapes_return :
  value_of ((m <- Matrix.add Concrete.column2 (Some Concrete.column1) ;; Matrix.toArray m)
              Concrete.store_shapes) = Some [11%float; nan]
  /\ value_of ((m <- Matrix.sub Concrete.column2 Concrete.column1 ;; Matrix.toArray m)
                 Concrete.store_shapes) = Some [(-9)%float; nan]
  /\ value_of ((m <- Matrix.hadamard Concrete.column2 Concrete.column1 ;; Matrix.toArray m)
                 Concrete.store_shapes) = Some [10%float; nan]
  /\ value_of ((m <- Matrix.addVec Concrete.column2 Concrete.column1 ;; Matrix.toArray m)
                 Concrete.store_shapes) = Some [11%float; nan]
  /\ value_of ((m <- Matrix.mul Concrete.column2 Concrete.column3 ;; Matrix.toArray m)
                 Concrete.store_shapes) = Some [10%float; 20%float].
Proof. repeat split; vm_compute; reflexivity. Qed.

(** C4 fails as stated: [train] with [epochs = 0] returns the empty
    history, with [lr = -1] it returns the record of its epoch, and
    with [batchSize = 0] it is still in its first epoch when the fuel
    is spent; none of them raises [InvalidConfig]. *)
Lemma degenerate_configurations_run :
  value_of (Network.train 3 Concrete.net Concrete.samples (Concrete.options 0.5%float 0 16)
              Concrete.store) = Some ([], Concrete.net)
  /\ length <$> (fst <$> value_of (Network.train 3 Concrete.net Concrete.samples
                           (Concrete.options (-1)%float 1 16) Concrete.store)) = Some 1
  /\ Network.train 50 Concrete.net Concrete.samples (Concrete.options 0.5%float 1 0)
       Concrete.store = Timeout.
Proof. repeat split; vm_compute; reflexivity. Qed.

Section SnapshotLoad.
Context {F : Type} {NF : Number F} {RS : RandomSource F}.
Implicit Types (w : world F).

(** [load] of a snapshot that has its three required properties
    returns. *)
Lemma load_returns (json : Network.load_arg F) data w ls ws bs :
  snapshot_of json = Some data ->
  Network.s_layerSizes data = Some ls -> Network.s_weights data = Some ws ->
  Network.s_biases data = Some bs ->
  returns (Network.load json) w
    (fun net w' =>
       Network.layerSizes net = ls
       /\ Network.hiddenActivation net
          = default "relu"%string (Network.s_hiddenActivation data)
       /\ net_valid w' net
       /\ deref w' <$> Network.weights net = json_value <$> ws
       /\ deref w' <$> Network.biases net = json_value <$> bs).
Proof.
  intros Hdata Hls Hws Hbs.
  pose proof (load_spec (E := fun e => e = TypeError) (T := False) eq_refl json data w
                Hdata) as Hsafe.
  rewrite (load_parsed json data Hdata) in *.
  unfold returns, guarded, run_sat in *.
  destruct (Network.load (Network.Object data) w) as [net w'|e w'|] eqn:Erun; [| |done].
  - destruct Hsafe as (Hg & ls' & ws' & bs' & Hls' & Hws' & Hbs' & Hrest).
    rewrite Hls in Hls'. rewrite Hws in Hws'. rewrite Hbs in Hbs'.
    injection Hls' as <-. injection Hws' as <-. injection Hbs' as <-. by split.
  - exfalso. rewrite load_object in Erun.
    rewrite Hls, Hws, Hbs in Erun. simpl in Erun. unfold bind at 1 in Erun.
    unfold ret at 1 in Erun. unfold bind at 1 in Erun.
    pose proof (new_spec_network (E := fun _ => False) (T := False) ls
                  (Network.s_hiddenActivation data) w) as Hnew.
    apply returns_inv in Hnew as (n0 & w1 & Enew & _). rewrite Enew in Erun.
    unfold bind at 1 in Erun. unfold ret at 1 in Erun. unfold bind at 1 in Erun.
    pose proof (fromJSON_map_spec (E := fun _ => False) (T := False) ws w1) as HW.
    apply returns_inv in HW as (Ws & w2 & EW & _). rewrite EW in Erun.
    unfold bind at 1 in Erun. unfold ret at 1 in Erun. unfold bind at 1 in Erun.
    pose proof (fromJSON_map_spec (E := fun _ => False) (T := False) bs w2) as HB.
    apply returns_inv in HB as (Bs & w3 & EB & _). rewrite EB in Erun. done.
Qed.



End SnapshotLoad.


Section SnapshotClaims.
Context {F : Type} {NF : Number F} {RS : RandomSource F}.
Implicit Types (w : world F).

(** C6, as the code has it: for a network whose matrices have buffers
    of [rows * cols] numbers, each the number its JSON text reads back
    as (every finite number but [-0]), [save] then [load] return a
    network of the same [layerSizes] and [hiddenActivation] whose
    weights and biases have the shapes and the elements of the
    original, and [predict] returns on both the same matrix, element
    for element. *)
Theorem save_load_same_prediction w (N : Network.t) (x : Matrix.t) f df :
  net_ok w N -> registered N f df -> valid w x ->
  Forall (json_stable w) (Network.weights N ++ Network.biases N) ->
  returns (s <- Network.save N ;; N' <- Network.load (Network.Text s) ;;
           p' <- Network.predict N' x ;; p <- Network.predict N x ;;
           ret (N', p', p)) w
    (fun r w' =>
       Network.layerSizes r.1.1 = Network.layerSizes N
       /\ Network.hiddenActivation r.1.1 = Network.hiddenActivation N
       /\ deref w' <$> Network.weights r.1.1 = deref w <$> Network.weights N
       /\ deref w' <$> Network.biases r.1.1 = deref w <$> Network.biases N
       /\ deref w' r.1.2 = deref w' r.2).
Proof.
  intros Hok Hreg Hx Hst. pose proof Hok as [[HW HB] Hlen].
  apply Forall_app in Hst as [HstW HstB].
  set (text := Network.JSON_stringify
                 (Network.mk_snapshot F (Some (Network.layerSizes N))
                    (Some (Network.hiddenActivation N))
                    (Some (json_of w <$> Network.weights N))
                    (Some (json_of w <$> Network.biases N)))).
  eapply guarded_bind.
  { apply (guarded_reads _ _ text (fun s w' => s = text /\ w' = w)); [apply save_run|done]. }
  intros s w0 _ [-> ->].
  eapply guarded_bind.
  { eapply (load_returns (Network.Text text) _ w (Network.layerSizes N)
              (List.map Network.stringify_matrix (json_of w <$> Network.weights N))
              (List.map Network.stringify_matrix (json_of w <$> Network.biases N)));
      reflexivity. }
  intros N' w1 Hg1 (Els & Eact & Hnet' & EW & EB). simpl in Eact.
  rewrite json_values_roundtrip in EW by done.
  rewrite json_values_roundtrip in EB by done.
  assert (Hok' : net_ok w1 N').
  { split; [done|]. apply (f_equal length) in EW, EB.
    rewrite !length_fmap in EW, EB. lia. }
  assert (Hreg' : registered N' f df) by (by eapply registered_same).
  eapply guarded_bind.
  { apply (predict_spec w1 N' x f df); [done|by eapply grows_valid|done]. }
  intros p' w2 Hg2 [Hvp' Ep'].
  eapply guarded_bind.
  { apply (predict_spec w2 N x f df);
      [eapply net_ok_grows; [|exact Hok]; grows_tac|valid_tac|done]. }
  intros p w3 Hg3 [Hvp Ep].
  apply guarded_ret. simpl.
  split; [done|]. split; [done|].
  assert (HvW' : Forall (valid w1) (Network.weights N')) by apply Hnet'.
  assert (HvB' : Forall (valid w1) (Network.biases N')) by apply Hnet'.
  split; [by rewrite (map_deref_grows w1 w3) by (grows_tac || done)|].
  split; [by rewrite (map_deref_grows w1 w3) by (grows_tac || done)|].
  rewrite Ep, (grows_deref w2 w3 p') by done. rewrite Ep'.
  rewrite (output_value_grows f w w2 N x) by (grows_tac || done).
  apply output_value_ext; [done|done|]. by apply grows_deref.
Qed.
End SnapshotClaims.

(** On the two-layer network of [Concrete], whose numbers are finite. *)
Lemma save_load_same_prediction_witness :
  returns (s <- Network.save Concrete.net ;; N' <- Network.load (Network.Text s) ;;
           p' <- Network.predict N' Concrete.input ;;
           p <- Network.predict Concrete.net Concrete.input ;;
           ret (N', p', p)) Concrete.store
    (fun r w' =>
       Network.layerSizes r.1.1 = Network.layerSizes Concrete.net
       /\ Network.hiddenActivation r.1.1 = Network.hiddenActivation Concrete.net
       /\ deref w' <$> Network.weights r.1.1
          = deref Concrete.store <$> Network.weights Concrete.net
       /\ deref w' <$> Network.biases r.1.1
          = deref Concrete.store <$> Network.biases Concrete.net
       /\ deref w' r.1.2 = deref w' r.2).
Proof.
  apply (save_load_same_prediction Concrete.store Concrete.net Concrete.input
           Concrete.act Concrete.dact).
  - split; [split; repeat constructor; unfold valid; simpl; lia|reflexivity].
  - reflexivity.
  - unfold valid; simpl; lia.
  - repeat constructor; try (eexists; split; reflexivity); vm_compute; reflexivity.
Defined.

(** C6 fails as stated: a network with the weights [-Infinity] and [0]
    predicts [[0; 1]] for the input [[1]]; [save] writes [null] for
    [-Infinity], [load] reads it as [0], and the network that is loaded
    predicts [[0.5; 0.5]]. *)
Lemma infinite_weight_is_not_restored :
  value_of ((p <- Network.predict Concrete.net_inf Concrete.input_inf ;; Matrix.toArray p)
              Concrete.store_inf) = Some [0%float; 1%float]
  /\ value_of ((s <- Network.save Concrete.net_inf ;;
                N' <- Network.load (Network.Text s) ;;
                p <- Network.predict N' Concrete.input_inf ;; Matrix.toArray p)
                 Concrete.store_inf) = Some [0.5%float; 0.5%float]
  /\ fgt (fsub 0.5%float 0%float) 0x1.b7cdfd9d7bdbbp-34%float = true.
Proof. repeat split; vm_compute; reflexivity. Qed.


(** * Further properties of the code *)

Section Further.
Context {F : Type} {NF : Number F} {RS : RandomSource F}.
Implicit Types (w : world F).

Lemma nth_mat_cons (x : mat F) (l : list (mat F)) i :
  nth_mat (x :: l) (S i) = nth_mat l i.
Proof. done. Qed.

(** Layer [i] of the forward pass on values. *)
Lemma forward_values_layer fn (Ws bs : list (mat F)) (a : mat F) i :
  length Ws = length bs -> i < length Ws ->
  let tr := forward_values fn Ws bs a in
  let z := nth_mat tr.*1 i in
  z = mat_add (mat_mul (nth_mat Ws i) (nth_mat (a :: tr.*2) i)) (nth_mat bs i)
  /\ nth_mat (a :: tr.*2) (S i)
     = if decide (S i = length Ws) then mat_softmax z else mat_map z fn.
Proof.
  revert bs a i. induction Ws as [|W Ws IH]; intros bs a i Hlen Hi; [simpl in Hi; lia|].
  destruct bs as [|b bs]; [simpl in Hlen; lia|]. simpl in Hlen, Hi.
  set (a' := match Ws with
             | [] => mat_softmax (mat_add (mat_mul W a) b)
             | _ => mat_map (mat_add (mat_mul W a) b) fn
             end).
  change (forward_values fn (W :: Ws) (b :: bs) a)
    with ((mat_add (mat_mul W a) b, a') :: forward_values fn Ws bs a').
  cbv zeta. rewrite !fmap_cons. cbn [fst snd].
  destruct i as [|i].
  - split; [done|]. rewrite nth_mat_cons. unfold nth_mat at 1. cbn [lookup list_lookup default].
    unfold nth_mat. cbn [lookup list_lookup default from_option id].
    unfold a'. destruct Ws; simpl; repeat case_decide; first [done | simpl in *; lia].
  - rewrite !nth_mat_cons.
    destruct (IH bs a' i ltac:(lia) ltac:(lia)) as [IHz IHa]. cbv zeta in IHz, IHa.
    split; [exact IHz|]. rewrite nth_mat_cons in IHa. rewrite IHa.
    simpl length. repeat case_decide; first [done | lia].
Qed.

(** The forward pass: with [a_0] the input, layer [i] computes
    [z_i = W_i * a_i + b_i] and [a_(i+1)], the hidden activation of
    [z_i] element by element below the last layer and the softmax of
    [z_i] at the last one; [forward] returns the [z_i] and the [a_i]. *)
Theorem forward_computes_layers w this input f df :
  net_ok w this -> valid w input -> registered this f df ->
  returns (Network.forward this input) w
    (fun tr w' =>
       let L := length (Network.weights this) in
       let z := nth_mat (deref w' <$> Network.zs tr) in
       let a := nth_mat (deref w' <$> Network.as_ tr) in
       length (Network.zs tr) = L /\ length (Network.as_ tr) = S L
       /\ a 0 = deref w input
       /\ forall i, i < L ->
            z i = mat_add (mat_mul (nth_mat (deref w <$> Network.weights this) i) (a i))
                          (nth_mat (deref w <$> Network.biases this) i)
            /\ a (S i) = if decide (S i = L) then mat_softmax (z i) else mat_map (z i) f).
Proof.
  intros [Hnet Hlen] Hin Hreg.
  eapply guarded_weaken; [by apply (forward_spec w this input f df)|].
  intros tr w' _ ((_ & _ & Hlz & Hla) & Ez & Ea). cbv zeta.
  split; [done|]. split; [done|]. rewrite Ez, Ea. split; [done|].
  intros i Hi.
  pose proof (forward_values_layer f (deref w <$> Network.weights this)
                (deref w <$> Network.biases this) (deref w input) i) as Hlayer.
  rewrite !length_fmap in Hlayer. by apply Hlayer.
Qed.

(** [predict] returns the last activation of the forward pass. *)
Theorem predict_returns_output w this input f df :
  net_ok w this -> valid w input -> registered this f df ->
  returns (Network.predict this input) w
    (fun m w' => deref w' m = output_value f w this input).
Proof.
  intros Hok Hin Hreg.
  eapply guarded_weaken; [by apply (predict_spec w this input f df)|].
  by intros m w' _ [_ Hm].
Qed.

(** [softmax] on any column, in the arithmetic of the machine: entry
    [i] of the result is [exp (v[i] - max) / sum], with [max] the
    largest element found by scanning from [-Infinity] and [sum] the
    exponentials added from [0] in the order of the rows. *)
Theorem softmax_subtracts_max w vec :
  valid w vec ->
  returns (softmax vec) w
    (fun m w' =>
       Matrix.rows m = Matrix.rows vec /\ Matrix.cols m = 1
       /\ forall i, i < Matrix.rows vec ->
            at_ (deref w' m) i
            = fdiv (Math_exp (fsub (at_ (deref w vec) i) (vmax (deref w vec))))
                   (fsum (Matrix.rows vec)
                      (fun j => Math_exp (fsub (at_ (deref w vec) j) (vmax (deref w vec)))))).
Proof.
  intros Hv. eapply guarded_weaken; [by apply softmax_spec|].
  intros m w' _ (_ & Hm & _). cbv beta.
  apply (f_equal nrows) in Hm as Hr. apply (f_equal ncols) in Hm as Hc.
  split; [done|]. split; [done|]. intros i Hi.
  rewrite Hm. unfold at_ at 1, mat_softmax. cbn [entries].
  by rewrite buf_get_tabulate.
Qed.

(** The shuffle of [train] returns a permutation of the indices and
    leaves every buffer as it is. *)
Theorem shuffle_permutes (indices : list nat) w :
  returns (Network.shuffle_indices indices) w
    (fun l w' => l ≡ₚ indices /\ heap w' = heap w).
Proof. apply shuffle_indices_spec. Qed.

(** [save] leaves the store as it is, and its text holds the fields of
    the network, every number in its JSON form. *)
Theorem save_reads_only this w :
  Network.save this w
  = Ok (Network.JSON_stringify
          (Network.mk_snapshot F (Some (Network.layerSizes this))
             (Some (Network.hiddenActivation this))
             (Some (json_of w <$> Network.weights this))
             (Some (json_of w <$> Network.biases this)))) w.
Proof. apply save_run. Qed.
End Further.

(** On the two-layer network of [Concrete]. *)
Lemma forward_computes_layers_witness :
  returns (Network.forward Concrete.net Concrete.input) Concrete.store
    (fun tr w' =>
       let L := length (Network.weights Concrete.net) in
       let z := nth_mat (deref w' <$> Network.zs tr) in
       let a := nth_mat (deref w' <$> Network.as_ tr) in
       length (Network.zs tr) = L /\ length (Network.as_ tr) = S L
       /\ a 0 = deref Concrete.store Concrete.input
       /\ forall i, i < L ->
            z i = mat_add (mat_mul (nth_mat (deref Concrete.store
                                               <$> Network.weights Concrete.net) i) (a i))
                          (nth_mat (deref Concrete.store <$> Network.biases Concrete.net) i)
            /\ a (S i) = if decide (S i = L) then mat_softmax (z i)
                         else mat_map (z i) Concrete.act).
Proof.
  apply (forward_computes_layers Concrete.store Concrete.net Concrete.input
           Concrete.act Concrete.dact).
  - split; [split; repeat constructor; unfold valid; simpl; lia|reflexivity].
  - unfold valid; simpl; lia.
  - reflexivity.
Defined.

Lemma predict_returns_output_witness :
  returns (Network.predict Concrete.net Concrete.input) Concrete.store
    (fun m w' => deref w' m
                 = output_value Concrete.act Concrete.store Concrete.net Concrete.input).
Proof.
  apply (predict_returns_output Concrete.store Concrete.net Concrete.input
           Concrete.act Concrete.dact).
  - split; [split; repeat constructor; unfold valid; simpl; lia|reflexivity].
  - unfold valid; simpl; lia.
  - reflexivity.
Defined.

Lemma softmax_subtracts_max_witness :
  returns (softmax Concrete.column_five) Concrete.store_five
    (fun m w' =>
       Matrix.rows m = 1 /\ Matrix.cols m = 1
       /\ forall i, i < 1 ->
            at_ (deref w' m) i
            = fdiv (Math_exp (fsub (at_ (deref Concrete.store_five Concrete.column_five) i)
                                   (vmax (deref Concrete.store_five Concrete.column_five))))
                   (fsum 1
                      (fun j => Math_exp
                                  (fsub (at_ (deref Concrete.store_five Concrete.column_five) j)
                                        (vmax (deref Concrete.store_five
                                                 Concrete.column_five)))))).
Proof.
  apply (softmax_subtracts_max Concrete.store_five Concrete.column_five).
  unfold valid; simpl; lia.
Defined.

(** * The matrix: element access, construction, copies *)

Section MatrixAccess.
Context {F : Type} {NF : Number F}.
Implicit Types (w : world F).

Lemma alter_insert_ge (h : list (buffer F)) (l q : nat) (v : F) :
  length (default [] (h !! l)) <= q -> alter (fun b => <[q := v]> b) l h = h.
Proof.
  unfold buffer in *. intros Hq. apply list_eq. intros k.
  destruct (decide (k = l)) as [->|Hk].
  - rewrite list_lookup_alter_eq. destruct (h !! l) as [b|] eqn:Hb; [|done].
    rewrite ?Hb in Hq. simpl in *. by rewrite list_insert_ge.
  - by rewrite list_lookup_alter_ne.
Qed.

(** [set(i, j, v)] at a position the buffer has, then [get(i, j)]:
    the value that was written is read; the element at that position
    is the only one of the store that has changed. *)
Theorem set_then_get w (this : Matrix.t) (i j : nat) (v : F) :
  i * Matrix.cols this + j < length (entries (deref w this)) ->
  exists w',
    Matrix.set this i j v w = Ok tt w'
    /\ Matrix.get this i j w' = Ok v w'
    /\ entries (deref w' this)
       = <[i * Matrix.cols this + j := v]> (entries (deref w this))
    /\ forall m, Matrix.data m <> Matrix.data this -> deref w' m = deref w m.
Proof.
  intros Hq. unfold Matrix.set, Matrix.get, store_at, load_at, deref in *. simpl in *.
  unfold buffer in *.
  destruct (heap w !! Matrix.data this) as [b|] eqn:Hb;
    unfold buffer in *; rewrite ?Hb in Hq; simpl in Hq; [|lia].
  eexists. split; [done|]. simpl.
  unfold buffer, loc in *. rewrite !list_lookup_alter_eq, !Hb. simpl.
  split; [|split; [done|]].
  - unfold buf_get. by rewrite list_lookup_insert_eq.
  - intros m Hm. by rewrite list_lookup_alter_ne by done.
Qed.

(** [set] at a position past the end of the buffer writes nothing,
    and [get] there reads no element: [undefined], [NaN] as a
    number. *)
Theorem set_past_the_end w (this : Matrix.t) (i j : nat) (v : F) :
  length (entries (deref w this)) <= i * Matrix.cols this + j ->
  Matrix.set this i j v w = Ok tt w /\ Matrix.get this i j w = Ok NaN w.
Proof.
  intros Hq. unfold Matrix.set, Matrix.get, store_at, load_at, deref in *. simpl in *.
  split.
  - rewrite alter_insert_ge by done. by rewrite world_eta.
  - f_equal. by apply buf_get_ge.
Qed.

(** [fromArray(arr)] returns a new column of [arr.length] rows whose
    elements are those of [arr], in order. *)
Theorem fromArray_is_column (arr : list F) w :
  returns (Matrix.fromArray arr) w
    (fun m w' =>
       Matrix.rows m = length arr /\ Matrix.cols m = 1
       /\ Matrix.toArray m w' = Ok arr w').
Proof.
  unfold Matrix.fromArray.
  eapply guarded_run; [apply new_ArrayData|].
  split; [done|]. split; [done|].
  unfold Matrix.toArray. simpl. rewrite lookup_last_buffer. simpl.
  by rewrite array_buffer_id by lia.
Qed.

Lemma Local_for_bounded {S} h (body : nat -> S -> M F S) f n :
  forall i, (forall k s, i <= k < i + n -> Local h (body k s) (f k s)) ->
  forall s, Local h (for_loop n i body s) (bfor n i f s).
Proof.
  induction n as [|n IH]; intros i Hb s c d; simpl; [done|].
  unfold bind. rewrite Hb by lia. apply IH. intros. apply Hb. lia.
Qed.

Lemma fromRows_run (row0 : list F) (rest : list (list F)) w :
  Matrix.fromRows (row0 :: rest) w
  = Ok (Matrix.mk (S (length rest)) (length row0) (length (heap w)))
       (push w (rows_buffer (row0 :: rest))).
Proof.
  set (rows := row0 :: rest). unfold Matrix.fromRows.
  change (rows !! 0) with (Some row0). unfold defined at 1.
  unfold bind at 1. unfold ret at 1.
  unfold bind at 1. rewrite new_NoData. cbn [Matrix.data].
  set (g := fun i j : nat => default NaN (default [] (rows !! i) !! j)).
  assert (HL : Local (heap w)
            (for_loop (length rows) 0 (fun i _ =>
               for_loop (length row0) 0 (fun j _ =>
                 row <- defined (rows !! i) ;;
                 store_at (length (heap w)) (i * length row0 + j)
                   (default NaN (row !! j))) tt) tt)
            (bfor (length rows) 0 (fun i (_ : unit) =>
               bfor (length row0) 0 (fun j (_ : unit) b =>
                 (tt, <[i * length row0 + j := g i j]> b)) tt) tt)).
  { apply Local_for_bounded. intros i [] Hi.
    destruct (lookup_lt_is_Some_2 rows i ltac:(lia)) as [row Hrow].
    unfold g. rewrite Hrow. apply Local_for. intros j [].
    apply Local_bind_ret. apply Local_store. }
  unfold bind at 1. rewrite (Local_run w _ _ _ HL). unfold ret. do 2 f_equal.
  rewrite (bfor_fill_grid (length rows) (length row0) g). done.
Qed.

(** [fromRows] of no row raises [TypeError], at [rows[0].length];
    of rows it returns a new matrix with as many rows and the columns
    of the first row, whose element [(i, j)] is [rows[i][j]], [NaN]
    where row [i] is shorter than the first. *)
Theorem fromRows_reads_first_row w :
  Matrix.fromRows [] w = Throw TypeError w
  /\ forall (row0 : list F) (rest : list (list F)),
       returns (Matrix.fromRows (row0 :: rest)) w
         (fun m w' =>
            Matrix.rows m = S (length rest) /\ Matrix.cols m = length row0
            /\ length (entries (deref w' m)) = S (length rest) * length row0
            /\ forall i j row, (row0 :: rest) !! i = Some row -> j < length row0 ->
                 entry (deref w' m) i j = default NaN (row !! j)).
Proof.
  split; [done|]. intros row0 rest.
  eapply guarded_run; [apply fromRows_run|].
  split; [done|]. split; [done|]. rewrite deref_new. cbn [entries ncols].
  unfold rows_buffer. cbn [lookup list_lookup default from_option id].
  split; [by rewrite length_tabulate|].
  intros i j row Hrow Hj. apply lookup_lt_Some in Hrow as Hi. simpl in Hi.
  unfold entry, at_. cbn [entries ncols].
  assert (Hc : length row0 <> 0) by lia.
  rewrite buf_get_tabulate by (simpl; nia).
  unfold Datatypes.id.
  rewrite (Nat.div_add_l i (length row0) j Hc), (Nat.div_small j (length row0) Hj).
  rewrite Nat.add_0_r, (Nat.add_comm (i * length row0) j), Nat.Div0.mod_add.
  rewrite (Nat.mod_small j (length row0) Hj). by rewrite Hrow.
Qed.
End MatrixAccess.

Section MatrixCopies.
Context {F : Type} {NF : Number F}.
Implicit Types (w : world F).

Lemma entry_mat_transpose (A : mat F) i j :
  i < nrows A -> j < ncols A -> entry (mat_transpose A) j i = entry A i j.
Proof.
  intros Hi Hj. unfold entry at 1, at_, mat_transpose. cbn [entries ncols].
  assert (Hr : nrows A <> 0) by lia.
  rewrite buf_get_tabulate by nia.
  rewrite (Nat.add_comm (j * nrows A) i), Nat.Div0.mod_add, (Nat.mod_small i) by done.
  rewrite (Nat.add_comm i), (Nat.div_add_l j (nrows A) i Hr), (Nat.div_small i) by done.
  by rewrite Nat.add_0_r.
Qed.

Lemma tabulate_buf_get (b : buffer F) : tabulate (length b) (buf_get b) = b.
Proof.
  apply list_eq. intros q. rewrite lookup_tabulate. case_decide as Hq.
  - unfold buf_get, buffer in *. destruct (lookup_lt_is_Some_2 b q Hq) as [x Hx].
    by rewrite Hx.
  - symmetry. apply lookup_ge_None_2. lia.
Qed.

Lemma mat_transpose_twice (A : mat F) :
  length (entries A) = nrows A * ncols A -> mat_transpose (mat_transpose A) = A.
Proof.
  intros Hlen. destruct A as [r c b]. cbn [nrows ncols entries] in *.
  set (TA := mat_transpose (mk_mat r c b)).
  assert (Hn : nrows TA = c) by done. assert (Hk : ncols TA = r) by done.
  unfold mat_transpose. rewrite Hn, Hk. f_equal.
  transitivity (tabulate (length b) (buf_get b)); [|apply tabulate_buf_get].
  rewrite Hlen. apply tabulate_ext. intros q Hq.
  assert (Hc : c <> 0) by lia. assert (Hr : r <> 0) by lia.
  assert (Hqc : q / c < r) by (apply Nat.Div0.div_lt_upper_bound; lia).
  assert (Hmod : q mod c < c) by (by apply Nat.mod_upper_bound).
  unfold TA. rewrite (entry_mat_transpose (mk_mat r c b) (q / c) (q mod c)) by done.
  unfold entry, at_. cbn [ncols entries]. f_equal.
  pose proof (Nat.div_mod_eq q c). lia.
Qed.

(** [transpose] returns a new [cols x rows] matrix whose element
    [(j, i)] is the element [(i, j)] of [this]; transposed once more,
    a matrix whose buffer has [rows * cols] numbers has its shape and
    its elements back. *)
Theorem transpose_twice w (this : Matrix.t) :
  wf w this ->
  returns (Matrix.transpose this) w
    (fun t w' =>
       Matrix.rows t = Matrix.cols this /\ Matrix.cols t = Matrix.rows this
       /\ forall i j, i < Matrix.rows this -> j < Matrix.cols this ->
            entry (deref w' t) j i = entry (deref w this) i j)
  /\ returns (t <- Matrix.transpose this ;; Matrix.transpose t) w
       (fun m w' => deref w' m = deref w this).
Proof.
  intros (b & Hb & Hlen).
  assert (Hv : valid w this) by (by eapply lookup_lt_Some).
  split.
  - eapply guarded_weaken; [by apply transpose_spec|].
    intros t w' _ (_ & Ht & _). cbv beta.
    apply (f_equal nrows) in Ht as Hr. apply (f_equal ncols) in Ht as Hc.
    split; [done|]. split; [done|]. intros i j Hi Hj.
    rewrite Ht. by apply entry_mat_transpose.
  - eapply guarded_bind; [by apply transpose_spec|].
    intros t w1 Hg1 (Hvt & Ht & _).
    eapply guarded_weaken; [by apply transpose_spec|].
    intros m w2 _ (_ & Hm & _). cbv beta. rewrite Hm, Ht.
    apply mat_transpose_twice. unfold deref. cbn [entries nrows ncols].
    unfold buffer in *. by rewrite Hb.
Qed.

(** [clone] returns a matrix of the shape and the elements of [this]
    on a buffer of its own: a [set] on the copy changes the copy and
    leaves [this] as it was. *)
Theorem clone_is_independent w (this : Matrix.t) (i j : nat) (v : F) :
  valid w this ->
  returns (c <- Matrix.clone this ;; Matrix.set c i j v ;;; ret c) w
    (fun c w' =>
       Matrix.data c <> Matrix.data this
       /\ Matrix.rows c = Matrix.rows this /\ Matrix.cols c = Matrix.cols this
       /\ deref w' this = deref w this
       /\ entries (deref w' c)
          = <[i * Matrix.cols this + j := v]> (entries (deref w this))).
Proof.
  intros Hv. unfold returns, guarded, run_sat, bind.
  rewrite clone_run. unfold Matrix.set, store_at, ret. cbn [Matrix.data Matrix.cols].
  rewrite push_heap, alter_app_r_alt, Nat.sub_diag by lia. cbn [alter list_alter].
  unfold valid in Hv. split; [by apply prefix_app_r|].
  split; [cbn [Matrix.data]; lia|]. split; [done|]. split; [done|].
  unfold deref. cbn [heap Matrix.rows Matrix.cols Matrix.data entries].
  rewrite lookup_app_l by done. split; [done|].
  by rewrite lookup_last_buffer.
Qed.

(** [fromJSON(toJSON(m))] for a matrix whose buffer has [rows * cols]
    numbers: a new matrix of the same shape and the same elements. *)
Theorem matrix_json_round_trip w (this : Matrix.t) :
  wf w this ->
  returns (j <- Matrix.toJSON this ;; Matrix.fromJSON j) w
    (fun m w' =>
       Matrix.data m <> Matrix.data this /\ deref w' m = deref w this
       /\ deref w' this = deref w this).
Proof.
  intros (b & Hb & Hlen).
  assert (Hv : valid w this) by (by eapply lookup_lt_Some).
  unfold returns, guarded, run_sat, bind. rewrite toJSON_run, fromJSON_run.
  cbn [Matrix.j_rows Matrix.j_cols Matrix.j_data].
  split; [apply grows_push|]. unfold valid in Hv.
  split; [cbn [Matrix.data]; lia|].
  rewrite deref_new, deref_push by done. split; [|done].
  unfold deref. cbn [entries]. unfold buffer in *. rewrite Hb. cbn [default from_option id].
  unfold Datatypes.id. f_equal. by apply array_buffer_id.
Qed.
End MatrixCopies.

(** * Initialisation in exact arithmetic *)

Section ExactInitialisation.
Context {RS : RandomSource Exact.xreal}.
Hypothesis unit_draws :
  forall k, exists u, random_value k = Exact.Finite u /\ (0 <= u < 1)%R.

Lemma xavier_value_exact (r c d q : nat) :
  0 < r + c ->
  exists x, xavier_value r c d q = Exact.Finite x
            /\ (- sqrt (6 / INR (r + c)) <= x < sqrt (6 / INR (r + c)))%R.
Proof.
  intros Hrc. destruct (unit_draws (d + q)) as (u & Hu & Hu0 & Hu1).
  unfold xavier_value. rewrite Hu.
  assert (Hn : (0 < INR (r + c))%R) by (apply lt_0_INR; lia).
  assert (Hlim : (0 < sqrt (6 / INR (r + c)))%R).
  { apply sqrt_lt_R0. apply Rdiv_lt_0_compat; lra. }
  exists ((u * 2 + - 1) * sqrt (6 / INR (r + c)))%R. split.
  - cbn -[INR]. replace (INR 2) with 2%R by (simpl; lra).
    replace (INR 1) with 1%R by (simpl; lra).
    replace (INR 6) with 6%R by (simpl; lra).
    destruct (Req_EM_T (INR (r + c)) 0) as [E|_]; [lra|].
    cbn -[INR]. destruct (Rlt_dec (6 / INR (r + c)) 0) as [Hneg|_]; [|done].
    exfalso. assert (0 < 6 / INR (r + c))%R by (apply Rdiv_lt_0_compat; lra). lra.
  - split; nra.
Qed.

(** With draws in [[0, 1)], [xavierInit(rows, cols)] returns a new
    [rows x cols] matrix of [rows * cols] numbers, each at least
    [-limit] and below [limit = sqrt(6 / (rows + cols))], and has made
    [rows * cols] calls to [Math.random]. *)
Theorem xavierInit_within_limit (r c : nat) (w : world Exact.xreal) :
  0 < r + c ->
  returns (xavierInit r c) w
    (fun m w' =>
       Matrix.rows m = r /\ Matrix.cols m = c
       /\ length (entries (deref w' m)) = r * c
       /\ draws w' = draws w + r * c
       /\ forall q, q < r * c ->
            exists x, at_ (deref w' m) q = Exact.Finite x
                      /\ (- sqrt (6 / INR (r + c)) <= x < sqrt (6 / INR (r + c)))%R).
Proof.
  intros Hrc. unfold returns, guarded, run_sat. rewrite xavierInit_run.
  split; [by apply prefix_app_r|]. split; [done|]. split; [done|].
  unfold deref. cbn [heap Matrix.data entries draws]. rewrite lookup_last_buffer.
  cbn [default from_option id]. unfold Datatypes.id.
  split; [apply length_tabulate|]. split; [done|].
  intros q Hq. unfold at_. cbn [entries]. unfold xavier_buffer.
  rewrite buf_get_tabulate by done. by apply xavier_value_exact.
Qed.
End ExactInitialisation.

(** * The network: edges *)

Section NetworkEdges.
Context {F : Type} {NF : Number F} {RS : RandomSource F}.
Implicit Types (w : world F).

(** A network of two layers or more whose [hiddenActivation] names
    nothing in [activations]: [forward] raises [TypeError] at the
    first hidden layer, once it has computed [z_0]. *)
Theorem forward_unknown_activation w (this : Network.t) (input : Matrix.t) :
  net_ok w this -> valid w input -> 2 <= length (Network.weights this) ->
  activations (Network.hiddenActivation this) = None ->
  exists w', Network.forward this input w = Throw TypeError w' /\ grows w w'.
Proof.
  intros [[HW HB] Hlen] Hin HL Hact. unfold Network.forward. rewrite Hact.
  destruct (Network.weights this) as [|W0 [|W1 Ws]] eqn:EW; [simpl in HL; lia..|].
  destruct (Network.biases this) as [|b0 bs] eqn:EB; [simpl in Hlen; lia|].
  apply Forall_cons in HW as [HW0 _]. apply Forall_cons in HB as [Hb0 _].
  set (w1 := push w (entries (mat_mul (deref w W0) (deref w input)))).
  set (wa := Matrix.mk (Matrix.rows W0) (Matrix.cols input) (length (heap w))).
  assert (Hwa : valid w1 wa) by apply valid_new.
  assert (Hb1 : valid w1 b0) by (eapply grows_valid; [apply grows_push|done]).
  eexists. split.
  - unfold bind at 1. erewrite for_loop_throw_first; [done|simpl; lia|].
    cbn [lookup list_lookup]. unfold defined at 1. unfold bind at 1. unfold ret at 1.
    unfold bind at 1. rewrite (mul_run w W0 input HW0 Hin). fold w1. fold wa.
    unfold bind at 1. rewrite (add_run w1 wa b0 Hwa Hb1).
    unfold bind at 1. simpl. reflexivity.
  - eapply grows_trans; [apply (grows_push w)|]. fold w1. apply grows_push.
Qed.

(** [predict] returns a column of as many rows as the last weight
    matrix has. *)
Theorem predict_output_shape w (this : Network.t) (input : Matrix.t) f df (W : Matrix.t) :
  net_ok w this -> valid w input -> registered this f df ->
  last (Network.weights this) = Some W ->
  returns (Network.predict this input) w
    (fun m w' =>
       Matrix.rows m = Matrix.rows W /\ Matrix.cols m = 1
       /\ length (entries (deref w' m)) = Matrix.rows W).
Proof.
  intros Hok Hin Hreg Hlast. pose proof Hok as [_ Hlen].
  eapply guarded_weaken; [by apply (predict_spec w this input f df)|].
  intros m w' _ [_ Hm]. cbv beta.
  set (L := length (Network.weights this)) in *.
  assert (HL : 0 < L).
  { unfold L. destruct (Network.weights this); [done|simpl; lia]. }
  pose proof (forward_values_layer f (deref w <$> Network.weights this)
                (deref w <$> Network.biases this) (deref w input) (L - 1)) as Hlayer.
  rewrite !length_fmap in Hlayer. fold L in Hlayer.
  destruct (Hlayer Hlen ltac:(lia)) as [Hz Ha]. clear Hlayer.
  replace (S (L - 1)) with L in Ha by lia. rewrite decide_True in Ha by done.
  assert (Eout : deref w' m
                 = mat_softmax (nth_mat (forward_values f (deref w <$> Network.weights this)
                                           (deref w <$> Network.biases this)
                                           (deref w input)).*1 (L - 1))).
  { rewrite Hm. exact Ha. }
  assert (EW : nth_mat (deref w <$> Network.weights this) (L - 1) = deref w W).
  { unfold nth_mat. rewrite list_lookup_fmap.
    rewrite last_lookup in Hlast. fold L in Hlast.
    replace (pred L) with (L - 1) in Hlast by lia. by rewrite Hlast. }
  rewrite Hz, EW in Eout.
  apply (f_equal nrows) in Eout as Hr. apply (f_equal ncols) in Eout as Hc.
  apply (f_equal (fun A => length (entries A))) in Eout as He.
  cbn [nrows ncols mat_softmax mat_add mat_zip mat_mul entries] in Hr, Hc, He.
  rewrite length_tabulate in He. done.
Qed.

(** A topology of one size or none: the constructor makes no layer
    and draws no random number, and [predict] on that network returns
    its argument, the very matrix it was given. *)
Theorem network_without_layers (ls : list nat) (act : option string) (input : Matrix.t) w :
  length ls <= 1 ->
  (net <- Network.new ls act ;; Network.predict net input) w = Ok input w.
Proof. intros Hls. destruct ls as [|n [|n' ls]]; [done|done|simpl in Hls; lia]. Qed.

Lemma no_sample_epochs fuel (lr : F) batchSize shuffle n :
  0 < fuel ->
  forall i this history w,
  for_loop n i (Network.train_epoch fuel [] lr batchSize shuffle None) (this, history) w
  = Ok (this, history ++ ((fun k => Network.mk_epoch_stat F k
                                      (fdiv (of_nat 0) (of_nat 0))
                                      (fdiv (of_nat 0) (of_nat 0))) <$> seq i n)) w.
Proof.
  intros Hfuel. induction n as [|n IH]; intros i this history w.
  - simpl. by rewrite app_nil_r.
  - cbn [for_loop]. unfold bind at 1.
    assert (E : Network.train_epoch fuel [] lr batchSize shuffle None i (this, history) w
                = Ok (this, history ++ [Network.mk_epoch_stat F i
                                          (fdiv (of_nat 0) (of_nat 0))
                                          (fdiv (of_nat 0) (of_nat 0))]) w).
    { destruct fuel as [|fuel]; [lia|]. by destruct shuffle. }
    rewrite E, IH. cbn [seq fmap list_fmap]. by rewrite <- app_assoc.
Qed.

(** [train] on no sample, without a callback: every epoch records the
    loss [0 / 0] and the accuracy [0 / 0], [NaN]; no batch runs, also
    with [batchSize = 0]; the network and the store are as they
    were. *)
Theorem train_without_samples fuel (this : Network.t) (o : Network.options F) w :
  0 < fuel -> Network.onEpoch o = None ->
  Network.train fuel this [] o w
  = Ok ((fun k => Network.mk_epoch_stat F k (fdiv (of_nat 0) (of_nat 0))
                    (fdiv (of_nat 0) (of_nat 0)))
          <$> seq 0 (default 1 (Network.epochs o)), this) w.
Proof.
  intros Hfuel Hcb. unfold Network.train. rewrite Hcb.
  unfold bind. by rewrite no_sample_epochs.
Qed.
End NetworkEdges.

(** * What training keeps *)

Section TrainKeeps.
Context {F : Type} {NF : Number F} {RS : RandomSource F}.
Implicit Types (w : world F).

Lemma length_acc_w f df w this batch :
  length (acc_w f df w this batch) = length (Network.weights this).
Proof.
  unfold acc_w.
  assert (G : forall init, length init = length (Network.weights this) ->
            length (fold_left (fun A s => zip_with mat_add A (grads_w f df w this s))
                      batch init) = length (Network.weights this)).
  { induction batch as [|s batch IH]; intros init Hinit; simpl; [done|].
    apply IH. rewrite length_zip_with. unfold grads_w.
    rewrite length_fmap, length_seq. lia. }
  apply G. by rewrite !length_fmap.
Qed.

Lemma length_acc_b f df w this batch :
  length (Network.weights this) = length (Network.biases this) ->
  length (acc_b f df w this batch) = length (Network.biases this).
Proof.
  intros Hlen. unfold acc_b.
  assert (G : forall init, length init = length (Network.biases this) ->
            length (fold_left (fun A s => zip_with mat_add A (grads_b f df w this s))
                      batch init) = length (Network.biases this)).
  { induction batch as [|s batch IH]; intros init Hinit; simpl; [done|].
    apply IH. rewrite length_zip_with. unfold grads_b.
    rewrite length_fmap, length_seq. lia. }
  apply G. by rewrite !length_fmap.
Qed.

Lemma updated_same_shapes w w' (ms ms' : list Matrix.t) (As : list (mat F)) (scale : F) :
  length As = length ms ->
  deref w' <$> ms' = updated (deref w <$> ms) As scale ->
  same_shapes ms ms'.
Proof.
  intros HAs E. unfold same_shapes.
  assert (Hl : length ms' = length ms).
  { apply (f_equal length) in E. unfold updated in E.
    rewrite length_zip_with, !length_fmap in E. lia. }
  apply Forall2_same_length_lookup_2; [done|].
  intros i m m' Hm Hm'.
  apply (f_equal (fun l => l !! i)) in E. unfold updated in E.
  rewrite list_lookup_fmap, Hm', lookup_zip_with, list_lookup_fmap, Hm in E.
  destruct (lookup_lt_is_Some_2 As i) as [A HA].
  { rewrite HAs. by eapply lookup_lt_Some. }
  rewrite HA in E. simpl in E.
  pose proof (f_equal (fmap nrows) E) as Hr. pose proof (f_equal (fmap ncols) E) as Hc.
  simpl in Hr, Hc. injection Hr as Hr. injection Hc as Hc. done.
Qed.

Lemma same_shapes_refl (ms : list Matrix.t) : same_shapes ms ms.
Proof. unfold same_shapes. by apply Forall_Forall2_diag, Forall_true. Qed.

Lemma same_shapes_trans (ms1 ms2 ms3 : list Matrix.t) :
  same_shapes ms1 ms2 -> same_shapes ms2 ms3 -> same_shapes ms1 ms3.
Proof.
  unfold same_shapes. intros H12 H23.
  eapply Forall2_trans; [|exact H12|exact H23].
  intros m1 m2 m3 [? ?] [? ?]. split; congruence.
Qed.

Lemma same_architecture_refl (net : Network.t) : same_architecture net net.
Proof. repeat split; apply same_shapes_refl. Qed.

Lemma same_architecture_trans (n1 n2 n3 : Network.t) :
  same_architecture n1 n2 -> same_architecture n2 n3 -> same_architecture n1 n3.
Proof.
  intros (E1 & E2 & HW & HB) (E1' & E2' & HW' & HB').
  split; [congruence|]. split; [congruence|].
  split; by eapply same_shapes_trans.
Qed.

(** A batch leaves a network of the same architecture. *)
Lemma batch_post_architecture f df w samples (lr : F) batch st st' w' :
  length (Network.weights (Network.net st)) = length (Network.biases (Network.net st)) ->
  batch_post f df w samples lr batch st st' w' ->
  same_architecture (Network.net st) (Network.net st').
Proof.
  intros Hlen (Els & Eact & _ & EW & EB & _).
  split; [done|]. split; [done|]. split.
  - eapply updated_same_shapes; [|exact EW]. apply length_acc_w.
  - eapply updated_same_shapes; [|exact EB]. by apply length_acc_b.
Qed.

Lemma batches_post_architecture f df samples (lr : F) batchSize indices b st w st' w' :
  net_ok w (Network.net st) ->
  batches_post f df samples lr batchSize indices b st w st' w' ->
  same_architecture (Network.net st) (Network.net st').
Proof.
  intros Hok Hrun. induction Hrun as [|b st w st1 w1 st2 w2 Hb Hpost Hrest IH].
  - apply same_architecture_refl.
  - eapply same_architecture_trans.
    + eapply batch_post_architecture; [apply Hok|exact Hpost].
    + apply IH. by destruct Hpost as (_ & _ & Hok1 & _).
Qed.

(** An epoch: the architecture stays, and the history has the record
    of the epoch at its end. *)
Lemma train_epoch_architecture fuel samples (lr : F) batchSize shuffle onEpoch epoch st w
    f df :
  0 < batchSize -> length samples < fuel ->
  net_ok w st.1 -> registered st.1 f df -> Forall (sample_valid w) samples ->
  callback_ok onEpoch ->
  returns (Network.train_epoch fuel samples lr batchSize shuffle onEpoch epoch st) w
    (fun st' w' => net_ok w' st'.1 /\ same_architecture st.1 st'.1
                   /\ Network.epoch <$> st'.2 = (Network.epoch <$> st.2) ++ [epoch]).
Proof.
  intros Hbs Hfuel Hok Hreg Hsv Hcb. unfold Network.train_epoch.
  eapply guarded_bind.
  - instantiate (1 := fun l' w' => l' ≡ₚ seq 0 (length samples)).
    destruct shuffle.
    + eapply guarded_weaken; [apply shuffle_indices_spec|]. by intros l' w' _ [? _].
    + by apply guarded_ret.
  - intros ind w1 Hg1 Hperm. cbv beta in Hperm.
    eapply guarded_bind.
    + apply (train_batches_returns samples lr batchSize ind f df); try done.
      * rewrite Hperm. apply seq_lt_length.
      * rewrite (Permutation_length Hperm), length_seq. lia.
      * by eapply net_ok_grows.
      * by eapply sample_valid_grows.
    + intros p w2 Hg2 (Hrun & Hok2 & _).
      apply batches_post_architecture in Hrun; [|by eapply net_ok_grows].
      simpl in Hrun.
      eapply guarded_bind.
      * instantiate (1 := fun _ _ => True).
        destruct onEpoch as [cb|]; [|by apply guarded_ret].
        by apply (Hcb cb).
      * intros _ w3 Hg3 _. apply guarded_ret. simpl.
        split; [by eapply net_ok_grows|]. split; [done|].
        by rewrite fmap_app.
Qed.

(** [train] with a positive batch size returns a record per epoch,
    numbered from [0], whatever the learning rate, and leaves a
    network of the same [layerSizes] and [hiddenActivation] whose
    weight and bias matrices have the shapes they had. *)
Theorem train_keeps_architecture fuel (this : Network.t) samples (o : Network.options F) w
    f df :
  0 < default 16 (Network.batchSize o) -> length samples < fuel ->
  net_ok w this -> registered this f df -> Forall (sample_valid w) samples ->
  callback_ok (Network.onEpoch o) ->
  returns (Network.train fuel this samples o) w
    (fun r w' =>
       Network.epoch <$> r.1 = seq 0 (default 1 (Network.epochs o))
       /\ net_ok w' r.2 /\ same_architecture this r.2).
Proof.
  intros Hbs Hfuel Hok Hreg Hsv Hcb. unfold Network.train.
  eapply guarded_bind.
  - apply (guarded_for_loop
      (fun k (st : Network.t * list (Network.epoch_stat F)) w' =>
         grows w w' /\ net_ok w' st.1 /\ same_architecture this st.1
         /\ Network.epoch <$> st.2 = seq 0 k)).
    + intros k st w1 Hk (Hg1 & Hok1 & Harch1 & Hhist1).
      eapply guarded_weaken.
      * apply (train_epoch_architecture fuel samples _ _ _ _ k st w1 f df); try done.
        -- eapply registered_same; [|exact Hreg]. apply Harch1.
        -- by eapply sample_valid_grows.
      * intros st' w2 Hg2 (Hok2 & Harch2 & Hhist2). cbv beta.
        split; [by eapply grows_trans|]. split; [done|].
        split; [by eapply same_architecture_trans|].
        by rewrite Hhist2, Hhist1, seq_S.
    + split; [apply grows_refl|]. split; [done|].
      split; [apply same_architecture_refl|done].
  - intros r w1 Hg1 (_ & Hok1 & Harch1 & Hhist1). apply guarded_ret. done.
Qed.
End TrainKeeps.

(** * The tokenizer *)

Section Tokenizer.
Import Sentiment.
Implicit Types (s : list ascii) (c : ascii).

Lemma lower_lower c : lower (lower c) = lower c.
Proof. by destruct c as [[|] [|] [|] [|] [|] [|] [|] [|]]. Qed.

Lemma word_char_not_space c : is_word_char c = true -> is_space c = false.
Proof. by destruct c as [[|] [|] [|] [|] [|] [|] [|] [|]]. Qed.

Lemma space_is_space : is_space " "%char = true.
Proof. done. Qed.

Lemma strip_lower s : strip (toLowerCase s) = List.map normal s.
Proof. unfold strip, toLowerCase. by rewrite List.map_map. Qed.

Lemma normal_word c : word_char c -> normal c = lower c /\ is_space (normal c) = false.
Proof.
  unfold word_char, normal. intros H. rewrite H. simpl.
  split; [done|]. by apply word_char_not_space.
Qed.

Lemma normal_separator c : ~ word_char c -> is_space (normal c) = true.
Proof.
  unfold word_char, normal. intros H.
  destruct (is_word_char (lower c)) eqn:Ew; [by destruct H|]. simpl.
  by destruct (is_space (lower c)) eqn:E.
Qed.

Lemma normal_cases c :
  is_space (normal c) = false -> is_word_char (normal c) = true.
Proof.
  unfold normal. destruct (is_word_char (lower c)) eqn:Ew; simpl; [done|].
  destruct (is_space (lower c)) eqn:Es; intros H; [congruence|by vm_compute in H].
Qed.

Lemma filter_nonempty_nil (l : list word) :
  filter nonempty ([] :: l) = filter nonempty l.
Proof. apply filter_cons_False. unfold nonempty. simpl. lia. Qed.

Lemma filter_nonempty_cons (t : word) (l k : list word) :
  filter nonempty (t :: l) ++ k = filter nonempty [t] ++ filter nonempty l ++ k.
Proof. rewrite !(filter_cons _ t), filter_nil. by destruct (decide _). Qed.

Lemma filter_split_gap s :
  filter nonempty (split_spaces s [] true) = filter nonempty (split_spaces s [] false).
Proof.
  destruct s as [|c s]; [done|]. cbn [split_spaces].
  destruct (is_space c); [|done]. cbn [rev]. by rewrite filter_nonempty_nil.
Qed.

Lemma filter_split_app s1 c s2 cur gap :
  is_space c = true -> (gap = true -> cur = []) ->
  filter nonempty (split_spaces (s1 ++ c :: s2) cur gap)
  = filter nonempty (split_spaces s1 cur gap) ++ filter nonempty (split_spaces s2 [] true).
Proof.
  intros Hc. revert cur gap. induction s1 as [|d s1 IH]; intros cur gap Hgap.
  - cbn [app split_spaces]. rewrite Hc. destruct gap.
    + rewrite (Hgap eq_refl). cbn [rev]. by rewrite filter_nonempty_nil.
    + rewrite <- (app_nil_r (filter nonempty (rev cur :: split_spaces s2 [] true))).
      rewrite filter_nonempty_cons. by rewrite app_nil_r.
  - cbn [app split_spaces]. destruct (is_space d).
    + destruct gap.
      * by apply IH.
      * rewrite filter_nonempty_cons.
        rewrite <- (app_nil_r (filter nonempty (rev cur :: split_spaces (s1 ++ c :: s2) [] true))).
        rewrite filter_nonempty_cons, app_nil_r. by rewrite (IH [] true).
    + by apply IH.
Qed.

Lemma split_word t cur :
  Forall (fun c => is_space c = false) t ->
  split_spaces t cur false = [rev cur ++ t].
Proof.
  revert cur. induction t as [|c t IH]; intros cur Ht.
  - simpl. by rewrite app_nil_r.
  - apply Forall_cons in Ht as [Hc Ht]. simpl. rewrite Hc, IH by done.
    simpl. by rewrite <- app_assoc.
Qed.

Lemma split_pieces (Q : ascii -> Prop) s cur gap :
  Forall Q cur -> Forall (fun c => is_space c = false -> Q c) s ->
  Forall (Forall Q) (split_spaces s cur gap).
Proof.
  revert cur gap. induction s as [|c s IH]; intros cur gap Hcur Hs.
  - simpl. constructor; [|done]. by apply List.Forall_rev.
  - apply Forall_cons in Hs as [Hc Hs]. simpl. destruct (is_space c) eqn:Ec.
    + destruct gap; [by apply IH|]. constructor; [by apply List.Forall_rev|by apply IH].
    + apply IH; [|done]. constructor; [by apply Hc|done].
Qed.

Lemma tokenize_eq s : tokenize s = filter nonempty (split (List.map normal s)).
Proof. unfold tokenize. by rewrite strip_lower. Qed.

(** Every token is a word: it has a character, and its characters are
    lower-case letters [a-z] and digits.  A text has no token exactly
    when it has no letter [A-Z], [a-z] and no digit. *)
Theorem tokens_are_words s :
  Forall (fun t => t <> [] /\ Forall (fun c => is_word_char c = true) t) (tokenize s)
  /\ (tokenize s = [] <-> Forall (fun c => ~ word_char c) s).
Proof.
  split.
  - rewrite tokenize_eq. apply Forall_forall. intros t Ht.
    apply list_elem_of_filter in Ht as [Hne Ht]. split.
    + intros ->. unfold nonempty in Hne. simpl in Hne. lia.
    + clear Hne. revert t Ht. apply Forall_forall.
      apply split_pieces; [done|]. apply Forall_forall. intros c Hc Hns.
      apply list_elem_of_In, in_map_iff in Hc as (c0 & <- & _). by apply normal_cases.
  - rewrite tokenize_eq. induction s as [|c s IH].
    + by split.
    + split.
      * intros Hnil. destruct (is_word_char (lower c)) eqn:Ew.
        -- exfalso. destruct (normal_word c Ew) as [_ Hns].
           assert (Hin : exists t, t ∈ filter nonempty (split (List.map normal (c :: s)))).
           { unfold split. simpl. rewrite Hns.
             assert (G : forall r cur, cur <> [] ->
                      exists t, t ∈ filter nonempty (split_spaces r cur false)).
             { induction r as [|d r IHr]; intros cur Hcur.
               - exists (rev cur). simpl. apply list_elem_of_filter. split; [|by left].
                 unfold nonempty. rewrite length_rev. destruct cur; [done|simpl; lia].
               - simpl. destruct (is_space d).
                 + exists (rev cur). apply list_elem_of_filter. split; [|by left].
                   unfold nonempty. rewrite length_rev. destruct cur; [done|simpl; lia].
                 + by apply IHr. }
             by apply G. }
           destruct Hin as [t Ht]. rewrite Hnil in Ht. by apply elem_of_nil in Ht.
        -- constructor; [unfold word_char; by rewrite Ew|]. apply IH.
           assert (Hsep : is_space (normal c) = true).
           { apply normal_separator. unfold word_char. by rewrite Ew. }
           change (List.map normal (c :: s)) with ([] ++ normal c :: List.map normal s) in Hnil.
           unfold split in Hnil. rewrite filter_split_app in Hnil by done.
           apply app_eq_nil in Hnil as [_ Hnil]. by rewrite filter_split_gap in Hnil.
      * intros Hall. apply Forall_cons in Hall as [Hc Hs].
        change (List.map normal (c :: s)) with ([] ++ normal c :: List.map normal s).
        unfold split. rewrite filter_split_app by (done || by apply normal_separator).
        rewrite filter_split_gap. cbn [split_spaces rev].
        rewrite filter_nonempty_nil, filter_nil, app_nil_l. by apply IH.
Qed.

(** In a text of Latin-1 characters, a character that is no letter
    [a-z], [A-Z] and no digit separates tokens, and is in none: around
    it the text is tokenized piece by piece.  A text of such letters
    and digits only is one token, itself in lower case.  (Beyond
    Latin-1, [toLowerCase] turns the Kelvin sign into [k] and the
    dotted capital I into [i] and a combining dot; these the
    characters of this model do not include.) *)
Theorem tokenize_splits_at_separators s1 c s2 t :
  ~ word_char c -> t <> [] -> Forall word_char t ->
  tokenize (s1 ++ c :: s2) = tokenize s1 ++ tokenize s2
  /\ tokenize t = [toLowerCase t].
Proof.
  intros Hc Hne Ht. split.
  - rewrite !tokenize_eq, List.map_app. simpl.
    unfold split. rewrite filter_split_app by (done || by apply normal_separator).
    by rewrite filter_split_gap.
  - rewrite tokenize_eq. unfold split.
    assert (E : List.map normal t = toLowerCase t).
    { unfold toLowerCase. apply List.map_ext_Forall.
      eapply Forall_impl; [exact Ht|]. intros d Hd. by apply normal_word. }
    rewrite split_word.
    + simpl. rewrite E. rewrite filter_cons_True; [done|].
      unfold nonempty, toLowerCase. rewrite length_map. destruct t; [done|simpl; lia].
    + apply Forall_forall. intros d Hd.
      apply list_elem_of_In, in_map_iff in Hd as (d0 & <- & Hd0).
      apply list_elem_of_In in Hd0.
      by apply normal_word, (proj1 (Forall_forall _ _) Ht).
Qed.

(** Upper and lower case make no difference: a text and the text in
    lower case have the same tokens. *)
Theorem tokenize_ignores_case s : tokenize (toLowerCase s) = tokenize s.
Proof.
  unfold tokenize. f_equal. f_equal. f_equal.
  unfold toLowerCase. rewrite List.map_map. apply List.map_ext. apply lower_lower.
Qed.
End Tokenizer.

(** * The vocabulary *)

Section Maps.
Import Sentiment.
Context {V : Type}.
Implicit Types (m : list (word * V)) (k : word) (v : V).

Lemma map_get_set m k v k' :
  map_get (map_set m k v) k' = if decide (k = k') then Some v else map_get m k'.
Proof.
  induction m as [|[k0 v0] m IH]; simpl.
  - by destruct (decide (k = k')).
  - destruct (decide (k0 = k)) as [->|Hk0]; simpl.
    + by destruct (decide (k = k')).
    + destruct (decide (k0 = k')) as [->|]; [|done].
      by rewrite decide_False by done.
Qed.

Lemma map_set_keys m k v :
  (map_set m k v).*1 = if decide (k ∈ m.*1) then m.*1 else m.*1 ++ [k].
Proof.
  induction m as [|[k0 v0] m IH]; cbn [map_set fmap list_fmap fst].
  - rewrite decide_False; [done|]. by intros H%elem_of_nil.
  - destruct (decide (k0 = k)) as [->|Hk0]; cbn [fmap list_fmap fst].
    + rewrite decide_True; [done|]. by left.
    + rewrite IH. destruct (decide (k ∈ m.*1)) as [Hin|Hin].
      * rewrite decide_True; [done|]. by right.
      * rewrite decide_False; [done|]. intros [?|?]%elem_of_cons; congruence.
Qed.

Lemma map_set_NoDup m k v : NoDup m.*1 -> NoDup (map_set m k v).*1.
Proof.
  intros Hm. rewrite map_set_keys. destruct (decide (k ∈ m.*1)); [done|].
  apply NoDup_app. split; [done|]. split; [|apply NoDup_singleton].
  intros x Hx Hx'. apply list_elem_of_singleton in Hx' as ->. done.
Qed.

Lemma map_get_elem_of m k v : NoDup m.*1 -> (k, v) ∈ m <-> map_get m k = Some v.
Proof.
  induction m as [|[k0 v0] m IH]; intros Hm; simpl.
  - split; [by intros H%elem_of_nil|done].
  - apply NoDup_cons in Hm as [Hk0 Hm]. destruct (decide (k0 = k)) as [->|Hne].
    + split.
      * intros [E|Hin]%elem_of_cons; [by injection E as ->|].
        exfalso. apply Hk0. apply list_elem_of_fmap. by exists (k, v).
      * intros [= ->]. by left.
    + rewrite <- IH by done. split.
      * intros [E|Hin]%elem_of_cons; [by injection E|done].
      * intros Hin. by right.
Qed.
End Maps.

Section VocabularyFacts.
Import Sentiment.
Implicit Types (w : word) (texts : list (list ascii)).

Lemma tally_snoc seen t w :
  Vocabulary.tally (seen ++ [t]) w = Vocabulary.tally seen w + (if decide (t = w) then 1 else 0).
Proof.
  unfold Vocabulary.tally. rewrite filter_app, length_app. f_equal.
  rewrite filter_cons, filter_nil. by destruct (decide (t = w)).
Qed.

Lemma tally_zero seen w : w ∉ seen -> Vocabulary.tally seen w = 0.
Proof.
  intros Hw. unfold Vocabulary.tally. induction seen as [|t seen IH]; [done|].
  rewrite filter_cons. destruct (decide (t = w)) as [->|].
  - exfalso. apply Hw. by left.
  - apply IH. intros H. apply Hw. by right.
Qed.

Lemma tally_pos seen w : w ∈ seen -> 0 < Vocabulary.tally seen w.
Proof.
  intros Hw. unfold Vocabulary.tally. induction seen as [|t seen IH]; [by apply elem_of_nil in Hw|].
  rewrite filter_cons. destruct (decide (t = w)) as [->|Hne]; [simpl; lia|].
  apply IH. apply elem_of_cons in Hw as [->|]; done.
Qed.

Lemma counted_step freq seen t :
  Vocabulary.counted freq seen -> Vocabulary.counted (Vocabulary.count_token freq t) (seen ++ [t]).
Proof.
  intros [Hnd Hget]. split; [by apply map_set_NoDup|].
  intros w. unfold Vocabulary.count_token. rewrite map_get_set, tally_snoc.
  destruct (decide (t = w)) as [->|Hne].
  - rewrite decide_True by (apply elem_of_app; right; by left).
    rewrite Hget. destruct (decide (w ∈ seen)) as [Hin|Hin]; simpl; [done|].
    by rewrite tally_zero.
  - rewrite Hget, Nat.add_0_r. destruct (decide (w ∈ seen)) as [Hin|Hin].
    + rewrite decide_True; [done|]. apply elem_of_app. by left.
    + rewrite decide_False; [done|].
      intros [?|Hw]%elem_of_app; [done|]. apply list_elem_of_singleton in Hw. done.
Qed.

Lemma counted_fold toks freq seen :
  Vocabulary.counted freq seen -> Vocabulary.counted (fold_left Vocabulary.count_token toks freq) (seen ++ toks).
Proof.
  revert freq seen. induction toks as [|t toks IH]; intros freq seen H; simpl.
  - by rewrite app_nil_r.
  - replace (seen ++ t :: toks) with ((seen ++ [t]) ++ toks) by (by rewrite <- app_assoc).
    by apply IH, counted_step.
Qed.

Lemma counted_texts texts :
  Vocabulary.counted (Vocabulary.count_tokens texts) (concat (tokenize <$> texts)).
Proof.
  unfold Vocabulary.count_tokens.
  assert (G : forall freq seen, Vocabulary.counted freq seen ->
            Vocabulary.counted (fold_left (fun freq text =>
                                  fold_left Vocabulary.count_token (tokenize text) freq)
                       texts freq) (seen ++ concat (tokenize <$> texts))).
  { induction texts as [|text texts IH]; intros freq seen H; simpl.
    - by rewrite app_nil_r.
    - rewrite app_assoc. by apply IH, counted_fold. }
  apply (G [] []). split; [constructor|]. intros w. rewrite decide_False; [done|].
  by intros H%elem_of_nil.
Qed.

(** The sort. *)
Lemma insert_entry_perm x l : Vocabulary.insert_entry x l ≡ₚ x :: l.
Proof.
  induction l as [|y l IH]; simpl; [done|].
  destruct (x.2 <? y.2); [|done]. rewrite IH. apply Permutation_swap.
Qed.

Lemma sort_entries_perm l : Vocabulary.sort_entries l ≡ₚ l.
Proof.
  induction l as [|x l IH]; simpl; [done|]. by rewrite insert_entry_perm, IH.
Qed.

Lemma descending_cons x l :
  Vocabulary.descending (x :: l) <-> Forall (fun y => y.2 <= x.2) l /\ Vocabulary.descending l.
Proof.
  split.
  - intros H. split.
    + apply Forall_lookup. intros j y Hy. apply (H 0 (S j) x y); [done|done|lia].
    + intros i j a b Ha Hb Hij. apply (H (S i) (S j) a b); [done|done|lia].
  - intros [Hall Hl] i j a b Ha Hb Hij. destruct j as [|j]; [lia|]. simpl in Hb.
    destruct i as [|i]; simpl in Ha.
    + injection Ha as <-. by apply (Forall_lookup_1 _ _ _ _ Hall Hb).
    + apply (Hl i j a b); [done|done|lia].
Qed.

Lemma insert_entry_descending x l :
  Vocabulary.descending l -> Vocabulary.descending (Vocabulary.insert_entry x l).
Proof.
  induction l as [|y l IH]; intros Hl; simpl.
  - apply descending_cons. split; [constructor|]. intros i j a b Ha. by destruct i.
  - apply descending_cons in Hl as Hyl. destruct Hyl as [Hall Hl'].
    destruct (Nat.ltb_spec x.2 y.2) as [Hlt|Hge].
    + apply descending_cons. split; [|by apply IH].
      rewrite insert_entry_perm. constructor; [lia|done].
    + apply descending_cons. split; [|done].
      constructor; [done|]. eapply Forall_impl; [exact Hall|]. intros z Hz. simpl in *. lia.
Qed.

Lemma sort_entries_descending l : Vocabulary.descending (Vocabulary.sort_entries l).
Proof.
  induction l as [|x l IH]; simpl.
  - intros i j a b Ha. by destruct i.
  - by apply insert_entry_descending.
Qed.

(** The index of the words. *)
Lemma index_map_snoc (ws : list word) (w : word) :
  index_map (ws ++ [w]) = map_set (index_map ws) w (length ws).
Proof.
  unfold index_map. rewrite length_app. simpl.
  rewrite Nat.add_1_r, seq_S. simpl.
  rewrite zip_with_app by (by rewrite length_seq).
  by rewrite fold_left_app.
Qed.

Lemma index_map_lookup (ws : list word) :
  NoDup ws ->
  forall i w, ws !! i = Some w <-> map_get (index_map ws) w = Some i.
Proof.
  induction ws as [|w0 ws IH] using rev_ind; intros Hnd i w.
  - by split.
  - apply NoDup_app in Hnd as (Hws & Hnot & _).
    rewrite index_map_snoc, map_get_set.
    destruct (decide (w0 = w)) as [->|Hne].
    + split.
      * intros Hi. destruct (decide (i < length ws)) as [Hlt|Hge].
        -- rewrite lookup_app_l in Hi by done. exfalso.
           apply (Hnot w); [by eapply list_elem_of_lookup_2|by left].
        -- apply lookup_lt_Some in Hi as Hlen. rewrite length_app in Hlen. simpl in Hlen.
           f_equal. lia.
      * intros [= <-]. by rewrite lookup_app_r, Nat.sub_diag by lia.
    + rewrite <- (IH Hws). split.
      * intros Hi. destruct (decide (i < length ws)) as [Hlt|Hge].
        -- by rewrite lookup_app_l in Hi.
        -- rewrite lookup_app_r in Hi by lia.
           destruct (i - length ws) as [|n]; simpl in Hi; [congruence|done].
      * intros Hi. rewrite lookup_app_l; [done|]. by eapply lookup_lt_Some.
Qed.
End VocabularyFacts.

Section VocabularyBuild.
Import Sentiment.
Implicit Types (w : word) (texts : list (list ascii)).

(** An entry of the sorted counts is a token of the texts with its
    number of occurrences. *)
Lemma sorted_entry texts (x : word * nat) :
  x ∈ Vocabulary.sort_entries (Vocabulary.count_tokens texts) ->
  x.2 = Vocabulary.occurrences texts x.1 /\ 0 < x.2.
Proof.
  rewrite sort_entries_perm. destruct x as [w c]. intros Hin.
  destruct (counted_texts texts) as [Hnd Hget].
  apply map_get_elem_of in Hin; [|done]. rewrite Hget in Hin. simpl.
  destruct (decide (w ∈ concat (tokenize <$> texts))) as [Hw|]; [|done].
  injection Hin as <-. split; [done|]. by apply tally_pos.
Qed.

Lemma token_is_counted texts w :
  0 < Vocabulary.occurrences texts w ->
  exists c, (w, c) ∈ Vocabulary.sort_entries (Vocabulary.count_tokens texts).
Proof.
  intros Hw. destruct (counted_texts texts) as [Hnd Hget].
  destruct (decide (w ∈ concat (tokenize <$> texts))) as [Hin|Hnot].
  - exists (Vocabulary.tally (concat (tokenize <$> texts)) w).
    rewrite sort_entries_perm. apply map_get_elem_of; [done|].
    by rewrite Hget, decide_True.
  - unfold Vocabulary.occurrences in Hw. rewrite tally_zero in Hw by done. lia.
Qed.

Lemma sorted_keys_NoDup texts :
  NoDup (Vocabulary.sort_entries (Vocabulary.count_tokens texts)).*1.
Proof.
  rewrite sort_entries_perm. apply (counted_texts texts).
Qed.

Lemma build_indexes_words_aux (this : Vocabulary.t) texts :
  let v := Vocabulary.build this texts in
  NoDup (Vocabulary.idx2word v)
  /\ (forall i w, Vocabulary.idx2word v !! i = Some w
                  <-> map_get (Vocabulary.word2idx v) w = Some i).
Proof.
  cbv zeta. unfold Vocabulary.build. cbn [Vocabulary.idx2word Vocabulary.word2idx].
  assert (Hnd : NoDup (take (Vocabulary.maxSize this)
                         (Vocabulary.sort_entries (Vocabulary.count_tokens texts))).*1).
  { rewrite fmap_take. eapply sublist_NoDup; [|apply sublist_take].
    apply sorted_keys_NoDup. }
  split; [done|]. by apply index_map_lookup.
Qed.

(** [build]: the vocabulary has at most [maxSize] words, each a token
    of the texts, none twice, and [word2idx] gives every word the
    index it has in [idx2word], and no index to any other word. *)
Theorem build_indexes_words (this : Vocabulary.t) texts :
  let v := Vocabulary.build this texts in
  Vocabulary.maxSize v = Vocabulary.maxSize this
  /\ Vocabulary.size v <= Vocabulary.maxSize this
  /\ NoDup (Vocabulary.idx2word v)
  /\ (forall i w, Vocabulary.idx2word v !! i = Some w
                  <-> map_get (Vocabulary.word2idx v) w = Some i)
  /\ (forall w, w ∈ Vocabulary.idx2word v -> 0 < Vocabulary.occurrences texts w).
Proof.
  cbv zeta. unfold Vocabulary.build, Vocabulary.size. cbn [Vocabulary.maxSize
    Vocabulary.idx2word Vocabulary.word2idx].
  set (sorted := Vocabulary.sort_entries (Vocabulary.count_tokens texts)).
  assert (Hnd : NoDup (take (Vocabulary.maxSize this) sorted).*1).
  { rewrite fmap_take. eapply sublist_NoDup; [|apply sublist_take].
    apply sorted_keys_NoDup. }
  split; [done|]. split; [rewrite length_fmap, length_take; lia|].
  split; [done|]. split; [by apply index_map_lookup|].
  intros w Hw. apply list_elem_of_fmap in Hw as ([w' c] & -> & Hin).
  apply subseteq_take in Hin. destruct (sorted_entry texts _ Hin) as [E Hpos].
  simpl in *. lia.
Qed.

(** [build] keeps the most frequent tokens: along [idx2word] the
    number of occurrences never grows, no token left out occurs more
    often than a word kept, and a token is left out only of a
    vocabulary that is full. *)
Theorem build_keeps_most_frequent (this : Vocabulary.t) texts :
  let v := Vocabulary.build this texts in
  (forall i j w w', Vocabulary.idx2word v !! i = Some w ->
     Vocabulary.idx2word v !! j = Some w' -> i < j ->
     Vocabulary.occurrences texts w' <= Vocabulary.occurrences texts w)
  /\ (forall w w', w ∈ Vocabulary.idx2word v -> w' ∉ Vocabulary.idx2word v ->
        Vocabulary.occurrences texts w' <= Vocabulary.occurrences texts w)
  /\ (forall w', 0 < Vocabulary.occurrences texts w' ->
        w' ∈ Vocabulary.idx2word v \/ Vocabulary.size v = Vocabulary.maxSize this).
Proof.
  cbv zeta. unfold Vocabulary.build, Vocabulary.size. cbn [Vocabulary.idx2word].
  set (n := Vocabulary.maxSize this).
  set (sorted := Vocabulary.sort_entries (Vocabulary.count_tokens texts)).
  pose proof (sort_entries_descending (Vocabulary.count_tokens texts)) as Hdesc.
  fold sorted in Hdesc.
  assert (Hword : forall i w, (take n sorted).*1 !! i = Some w ->
            i < n /\ sorted !! i = Some (w, Vocabulary.occurrences texts w)).
  { intros i w Hi. rewrite list_lookup_fmap in Hi.
    destruct (take n sorted !! i) as [[w0 c]|] eqn:Ei; [|done]. injection Hi as ->.
    apply lookup_take_Some in Ei as [Ei Hlt]. split; [done|].
    destruct (sorted_entry texts (w, c)) as [E _]; [by eapply list_elem_of_lookup_2|].
    simpl in E. by subst c. }
  assert (Hout : forall w' c j, sorted !! j = Some (w', c) -> w' ∉ (take n sorted).*1 ->
            n <= j).
  { intros w' c j Hj Hnot. destruct (decide (j < n)) as [Hlt|]; [|lia].
    exfalso. apply Hnot. apply list_elem_of_fmap. exists (w', c). split; [done|].
    apply elem_of_take. by exists j. }
  split; [|split].
  - intros i j w w' Hi Hj Hij.
    destruct (Hword i w Hi) as [_ Hi']. destruct (Hword j w' Hj) as [_ Hj'].
    apply (Hdesc i j _ _ Hi' Hj' Hij).
  - intros w w' Hw Hw'.
    apply list_elem_of_lookup_1 in Hw as [i Hi]. destruct (Hword i w Hi) as [Hin Hi'].
    destruct (decide (0 < Vocabulary.occurrences texts w')) as [Hpos|]; [|lia].
    destruct (token_is_counted texts w' Hpos) as [c Hc]. fold sorted in Hc.
    apply list_elem_of_lookup_1 in Hc as [j Hj].
    pose proof (Hout w' c j Hj Hw') as Hnj.
    destruct (sorted_entry texts (w', c)) as [E _]; [by eapply list_elem_of_lookup_2|].
    simpl in E. subst c.
    apply (Hdesc i j _ _ Hi' Hj). lia.
  - intros w' Hpos.
    destruct (decide (w' ∈ (take n sorted).*1)) as [Hin|Hnot]; [by left|right].
    destruct (token_is_counted texts w' Hpos) as [c Hc]. fold sorted in Hc.
    apply list_elem_of_lookup_1 in Hc as [j Hj].
    pose proof (Hout w' c j Hj Hnot) as Hnj.
    apply lookup_lt_Some in Hj. rewrite length_fmap, length_take. lia.
Qed.

(** [fromJSON(toJSON(v))] for a vocabulary without a word twice: the
    same [maxSize] and the same words in the same order, and a
    [word2idx] that gives every word its index. *)
Theorem vocabulary_json_round_trip (v : Vocabulary.t) :
  NoDup (Vocabulary.idx2word v) ->
  let v' := Vocabulary.fromJSON (Vocabulary.toJSON v) in
  Vocabulary.maxSize v' = Vocabulary.maxSize v
  /\ Vocabulary.idx2word v' = Vocabulary.idx2word v
  /\ forall i w, Vocabulary.idx2word v !! i = Some w
                 <-> map_get (Vocabulary.word2idx v') w = Some i.
Proof.
  intros Hnd. cbv zeta. split; [done|]. split; [done|].
  by apply index_map_lookup.
Qed.
End VocabularyBuild.

Section VocabularyEncode.
Import Sentiment.
Context {F : Type} {NF : Number F}.
Implicit Types (w : world F) (m : list (word * nat)).

Lemma encode_loop m h toks :
  Local h (for_of toks (fun t _ =>
             match map_get m t with
             | Some idx => store_at (length h) idx (of_nat 1)
             | None => ret tt
             end) tt)
          (fun c => (tt, fold_left (Vocabulary.mark_token m) toks c)).
Proof.
  induction toks as [|t toks IH]; intros c d; [done|].
  cbn [for_of fold_left]. unfold bind.
  destruct (map_get m t) as [idx|] eqn:E.
  - rewrite (Local_store h idx (of_nat 1) c d). cbn [fst snd].
    replace (Vocabulary.mark_token m c t) with (<[idx := of_nat 1]> c)
      by (unfold Vocabulary.mark_token; by rewrite E).
    apply (IH _ d).
  - replace (Vocabulary.mark_token m c t) with c
      by (unfold Vocabulary.mark_token; by rewrite E).
    apply (IH _ d).
Qed.

Lemma length_mark_tokens m toks (buf : buffer F) :
  length (fold_left (Vocabulary.mark_token m) toks buf) = length buf.
Proof.
  revert buf. induction toks as [|t toks IH]; intros buf; [done|].
  simpl. rewrite IH. unfold Vocabulary.mark_token. destruct (map_get m t); [|done].
  apply length_insert.
Qed.

Lemma lookup_mark_tokens m toks (buf : buffer F) i :
  i < length buf ->
  fold_left (Vocabulary.mark_token m) toks buf !! i
  = if Vocabulary.marks m toks i then Some (of_nat 1) else buf !! i.
Proof.
  revert buf. induction toks as [|t toks IH]; intros buf Hi; [done|].
  cbn [fold_left Vocabulary.marks existsb].
  assert (Hlen : i < length (Vocabulary.mark_token m buf t)).
  { unfold Vocabulary.mark_token. destruct (map_get m t); [|done]. by rewrite length_insert. }
  rewrite (IH _ Hlen). fold (Vocabulary.marks m toks i).
  destruct (Vocabulary.marks m toks i); [by rewrite orb_true_r|].
  rewrite orb_false_r. unfold Vocabulary.mark_token.
  destruct (map_get m t) as [idx|] eqn:E.
  - case_bool_decide as Hidx.
    + injection Hidx as ->. by apply list_lookup_insert_eq.
    + apply list_lookup_insert_ne. congruence.
  - by rewrite bool_decide_eq_false_2.
Qed.

Lemma marks_true m toks i :
  Vocabulary.marks m toks i = true <-> exists t, t ∈ toks /\ map_get m t = Some i.
Proof.
  unfold Vocabulary.marks. rewrite existsb_exists. split.
  - intros (t & Hin & Ht). exists t. split; [by apply list_elem_of_In|].
    by apply bool_decide_eq_true in Ht.
  - intros (t & Hin & Ht). exists t. split; [by apply list_elem_of_In|].
    by apply bool_decide_eq_true.
Qed.

Lemma encode_run (this : Vocabulary.t) text w :
  Vocabulary.encode this text w
  = Ok (Matrix.mk (Vocabulary.size this) 1 (length (heap w)))
       (push w (fold_left (Vocabulary.mark_token (Vocabulary.word2idx this)) (tokenize text)
                  (replicate (Vocabulary.size this * 1) (of_nat 0)))).
Proof.
  unfold Vocabulary.encode, Matrix.zeros. unfold bind at 1.
  rewrite new_NoData. cbn [Matrix.data]. unfold bind at 1.
  rewrite (Local_run w _ _ _ (encode_loop (Vocabulary.word2idx this) (heap w) (tokenize text))).
  done.
Qed.

(** [encode(text)] returns a new column of [size] rows; the element at
    an index is [1] when a token of the text has this index in
    [word2idx], and [0] otherwise.  A token that [word2idx] does not
    know, or knows at an index beyond the column, changes nothing. *)
Theorem encode_marks_indices (this : Vocabulary.t) text w :
  returns (Vocabulary.encode this text) w
    (fun v w' =>
       Matrix.rows v = Vocabulary.size this /\ Matrix.cols v = 1
       /\ length (entries (deref w' v)) = Vocabulary.size this
       /\ forall i, i < Vocabulary.size this ->
            at_ (deref w' v) i
            = if Vocabulary.marks (Vocabulary.word2idx this) (tokenize text) i
              then of_nat 1 else of_nat 0).
Proof.
  eapply guarded_run; [apply encode_run|].
  split; [done|]. split; [done|].
  unfold deref, at_, buf_get. cbn [entries Matrix.data heap push].
  rewrite lookup_last_buffer. cbn [default from_option]. unfold Datatypes.id.
  split.
  - rewrite length_mark_tokens, length_replicate. lia.
  - intros i Hi. rewrite lookup_mark_tokens by (rewrite length_replicate; lia).
    destruct (Vocabulary.marks _ _ i); [done|].
    rewrite lookup_replicate_2 by lia. done.
Qed.

(** [encode(text)] of a vocabulary that [build] made: the element at
    the index of a word is [1] when the word is a token of the text,
    and [0] when it is not. *)
Theorem encode_is_bag_of_words (this : Vocabulary.t) texts text w :
  let v := Vocabulary.build this texts in
  returns (Vocabulary.encode v text) w
    (fun x w' =>
       Matrix.rows x = Vocabulary.size v /\ Matrix.cols x = 1
       /\ forall i t, Vocabulary.idx2word v !! i = Some t ->
            at_ (deref w' x) i
            = if decide (t ∈ tokenize text) then of_nat 1 else of_nat 0).
Proof.
  cbv zeta. set (v := Vocabulary.build this texts).
  destruct (build_indexes_words_aux this texts) as (Hnd & Hidx).
  fold v in Hnd, Hidx.
  eapply guarded_run; [apply encode_run|].
  split; [done|]. split; [done|].
  intros i t Hi.
  assert (Hlt : i < Vocabulary.size v) by (by apply lookup_lt_Some in Hi).
  unfold deref, at_, buf_get. cbn [entries Matrix.data heap push].
  rewrite lookup_last_buffer. cbn [default from_option]. unfold Datatypes.id.
  rewrite lookup_mark_tokens by (rewrite length_replicate; lia).
  destruct (Vocabulary.marks _ _ i) eqn:E.
  - apply marks_true in E as (t' & Hin & Ht').
    apply Hidx in Ht'. assert (t' = t) by congruence. subst t'.
    by rewrite decide_True.
  - rewrite decide_False.
    + rewrite lookup_replicate_2 by lia. done.
    + intros Hin. apply not_true_iff_false in E. apply E.
      apply marks_true. exists t. split; [done|]. by apply Hidx.
Qed.
End VocabularyEncode.

Section DominantFacts.
Import Sentiment.
Context {F : Type} {NF : Number F}.
Implicit Types (scores : list (word * F)) (r : option word * F).

Lemma dominant_step_some scores k v :
  exists k' v',
    fold_left (fun r kv => if fgt kv.2 r.2 then (Some kv.1, kv.2) else r)
      scores (Some k, v) = (Some k', v')
    /\ (k' = k \/ k' ∈ scores.*1).
Proof.
  revert k v. induction scores as [|[k0 v0] scores IH]; intros k v.
  - exists k, v. split; [done|by left].
  - cbn [fold_left fst snd]. destruct (fgt v0 v).
    + destruct (IH k0 v0) as (k' & v' & E & Hk). exists k', v'. split; [done|].
      right. cbn [fmap list_fmap fst]. destruct Hk as [->|Hk]; [by left|by right].
    + destruct (IH k v) as (k' & v' & E & Hk). exists k', v'. split; [done|].
      destruct Hk as [->|Hk]; [by left|]. right. cbn [fmap list_fmap fst]. by right.
Qed.

(** [dominant(scores)] is [null] exactly when no score is greater than
    [-1], as for an object without entries or with scores that are
    [NaN]; what it returns otherwise is one of the keys. *)
Theorem dominant_null_or_key scores :
  (dominant scores = None
   <-> Forall (fun kv => fgt kv.2 (fneg (of_nat 1)) = false) scores)
  /\ (forall k, dominant scores = Some k -> k ∈ scores.*1).
Proof.
  unfold dominant. induction scores as [|[k0 v0] scores [IH1 IH2]].
  - split; [by split|]. intros k. discriminate.
  - cbn [fold_left fst snd]. destruct (fgt v0 (fneg (of_nat 1))) eqn:E.
    + destruct (dominant_step_some scores k0 v0) as (k' & v' & -> & Hk). split.
      * split; [discriminate|]. intros H. apply Forall_cons in H as [H _].
        simpl in H. congruence.
      * intros k [= <-]. cbn [fmap list_fmap fst].
        destruct Hk as [->|Hk]; [by left|by right].
    + split.
      * rewrite IH1. split; [intros H; by constructor|].
        intros H. by apply Forall_cons in H as [_ H].
      * intros k Hk. cbn [fmap list_fmap fst]. right. by apply IH2.
Qed.
End DominantFacts.

Section DominantExact.
Import Sentiment.
Implicit Types (scores : list (word * R)).

Lemma dominant_fold scores :
  scores <> [] ->
  Forall (fun kv => (-1 < kv.2)%R) scores ->
  exists i k v,
    scores !! i = Some (k, v)
    /\ fold_left (fun (r : option word * Exact.xreal) (kv : word * Exact.xreal) =>
                    if fgt kv.2 r.2 then (Some kv.1, kv.2) else r)
         (fmap (M := list) (fun kv : word * R => (kv.1, Exact.Finite kv.2)) scores) (None, fneg (of_nat 1))
       = (Some k, Exact.Finite v)
    /\ forall j k' v', scores !! j = Some (k', v') ->
         (v' <= v)%R /\ (j < i -> (v' < v)%R).
Proof.
  set (f := fun (r : option word * Exact.xreal) (kv : word * Exact.xreal) =>
              if fgt kv.2 r.2 then (Some kv.1, kv.2) else r).
  induction scores as [|[k0 v0] scores IH] using rev_ind; [done|].
  intros _ Hall. apply Forall_app in Hall as [Hall Hlast].
  apply Forall_cons in Hlast as [Hlast _]. simpl in Hlast.
  rewrite fmap_app, fold_left_app. cbn [fmap list_fmap fold_left fst snd].
  destruct (decide (scores = [])) as [->|Hne].
  - exists 0, k0, v0. split; [done|]. split.
    + simpl. unfold f. cbn [fst snd fgt Exact.arithmetic Exact.greater fneg
        Exact.opposite of_nat Exact.of_count INR].
      destruct (Rlt_dec _ v0) as [|Hn]; [done|]. exfalso. apply Hn. lra.
    + intros j k' v' Hj. destruct j as [|j]; [|done].
      injection Hj as <- <-. split; [lra|lia].
  - destruct (IH Hne Hall) as (i & k & v & Hi & Hk & Hmax).
    rewrite Hk. unfold f at 1. cbn [fst snd fgt Exact.arithmetic Exact.greater].
    assert (Hlen : i < length scores) by (by apply lookup_lt_Some in Hi).
    destruct (Rlt_dec v v0) as [Hlt|Hge].
    + exists (length scores), k0, v0. split; [by rewrite lookup_app_r, Nat.sub_diag|].
      split; [done|]. intros j k' v' Hj.
      destruct (decide (j < length scores)) as [Hj'|Hj'].
      * rewrite lookup_app_l in Hj by done. destruct (Hmax j k' v' Hj) as [Hle _].
        split; [lra|intros _; lra].
      * rewrite lookup_app_r in Hj by lia.
        destruct (j - length scores) as [|n] eqn:En; [|done].
        injection Hj as <- <-. split; [lra|lia].
    + exists i, k, v. split; [by rewrite lookup_app_l|]. split; [done|].
      intros j k' v' Hj.
      destruct (decide (j < length scores)) as [Hj'|Hj'].
      * rewrite lookup_app_l in Hj by done. apply (Hmax j k' v' Hj).
      * rewrite lookup_app_r in Hj by lia.
        destruct (j - length scores) as [|n] eqn:En; [|done].
        injection Hj as <- <-. split; [lra|lia].
Qed.

(** [dominant(scores)] on finite scores above [-1], at least one:
    it returns the key of the largest score, the first one of these
    when several scores are the largest. *)
Theorem dominant_is_first_largest scores :
  scores <> [] ->
  Forall (fun kv => (-1 < kv.2)%R) scores ->
  exists i k v,
    scores !! i = Some (k, v)
    /\ dominant (fmap (M := list) (fun kv : word * R => (kv.1, Exact.Finite kv.2)) scores) = Some k
    /\ forall j k' v', scores !! j = Some (k', v') ->
         (v' <= v)%R /\ (j < i -> (v' < v)%R).
Proof.
  intros Hne Hall. destruct (dominant_fold scores Hne Hall) as (i & k & v & Hi & Hk & Hmax).
  exists i, k, v. split; [done|]. split; [|done].
  unfold dominant. by rewrite Hk.
Qed.
End DominantExact.

(** * The further properties at concrete inputs *)

(** The second element of the column [[1; 2]]. *)
Lemma set_then_get_witness :
  exists w',
    Matrix.set Concrete.column2 1 0 7%float Concrete.store_shapes = Ok tt w'
    /\ Matrix.get Concrete.column2 1 0 w' = Ok 7%float w'
    /\ entries (deref w' Concrete.column2)
       = <[1 * Matrix.cols Concrete.column2 + 0 := 7%float]>
           (entries (deref Concrete.store_shapes Concrete.column2))
    /\ forall m, Matrix.data m <> Matrix.data Concrete.column2 ->
         deref w' m = deref Concrete.store_shapes m.
Proof.
  apply (set_then_get Concrete.store_shapes Concrete.column2 1 0 7%float).
  simpl; lia.
Defined.

(** Row [2] of the column [[1; 2]]. *)
Lemma set_past_the_end_witness :
  Matrix.set Concrete.column2 2 0 7%float Concrete.store_shapes
  = Ok tt Concrete.store_shapes
  /\ Matrix.get Concrete.column2 2 0 Concrete.store_shapes = Ok NaN Concrete.store_shapes.
Proof.
  apply (set_past_the_end Concrete.store_shapes Concrete.column2 2 0 7%float).
  simpl; lia.
Defined.

Lemma transpose_twice_witness :
  returns (Matrix.transpose Concrete.column2) Concrete.store_shapes
    (fun t w' =>
       Matrix.rows t = Matrix.cols Concrete.column2
       /\ Matrix.cols t = Matrix.rows Concrete.column2
       /\ forall i j, i < Matrix.rows Concrete.column2 -> j < Matrix.cols Concrete.column2 ->
            entry (deref w' t) j i = entry (deref Concrete.store_shapes Concrete.column2) i j)
  /\ returns (t <- Matrix.transpose Concrete.column2 ;; Matrix.transpose t)
       Concrete.store_shapes
       (fun m w' => deref w' m = deref Concrete.store_shapes Concrete.column2).
Proof.
  apply (transpose_twice Concrete.store_shapes Concrete.column2).
  exists [1; 2]%float. split; reflexivity.
Defined.

Lemma clone_is_independent_witness :
  returns (c <- Matrix.clone Concrete.column2 ;; Matrix.set c 1 0 7%float ;;; ret c)
    Concrete.store_shapes
    (fun c w' =>
       Matrix.data c <> Matrix.data Concrete.column2
       /\ Matrix.rows c = Matrix.rows Concrete.column2
       /\ Matrix.cols c = Matrix.cols Concrete.column2
       /\ deref w' Concrete.column2 = deref Concrete.store_shapes Concrete.column2
       /\ entries (deref w' c)
          = <[1 * Matrix.cols Concrete.column2 + 0 := 7%float]>
              (entries (deref Concrete.store_shapes Concrete.column2))).
Proof.
  apply (clone_is_independent Concrete.store_shapes Concrete.column2 1 0 7%float).
  unfold valid; simpl; lia.
Defined.

Lemma matrix_json_round_trip_witness :
  returns (j <- Matrix.toJSON Concrete.column2 ;; Matrix.fromJSON j) Concrete.store_shapes
    (fun m w' =>
       Matrix.data m <> Matrix.data Concrete.column2
       /\ deref w' m = deref Concrete.store_shapes Concrete.column2
       /\ deref w' Concrete.column2 = deref Concrete.store_shapes Concrete.column2).
Proof.
  apply (matrix_json_round_trip Concrete.store_shapes Concrete.column2).
  exists [1; 2]%float. split; reflexivity.
Defined.

(** With every draw [1/2]. *)
Lemma xavierInit_within_limit_witness :
  returns (xavierInit (RS := Exact.half_source) 2 1) Concrete.store_exact
    (fun m w' =>
       Matrix.rows m = 2 /\ Matrix.cols m = 1
       /\ length (entries (deref w' m)) = 2 * 1
       /\ draws w' = draws Concrete.store_exact + 2 * 1
       /\ forall q, q < 2 * 1 ->
            exists x, at_ (deref w' m) q = Exact.Finite x
                      /\ (- sqrt (6 / INR (2 + 1)) <= x < sqrt (6 / INR (2 + 1)))%R).
Proof.
  apply (xavierInit_within_limit (RS := Exact.half_source)).
  - intros k. exists (/ 2)%R. split; [reflexivity|lra].
  - lia.
Defined.

Lemma forward_unknown_activation_witness :
  exists w', Network.forward Inputs.net_unknown Concrete.input Concrete.store
             = Throw TypeError w'
             /\ grows Concrete.store w'.
Proof.
  apply (forward_unknown_activation Concrete.store Inputs.net_unknown Concrete.input).
  - split; [split; repeat constructor; unfold valid; simpl; lia|reflexivity].
  - unfold valid; simpl; lia.
  - simpl; lia.
  - reflexivity.
Defined.

Lemma predict_output_shape_witness :
  returns (Network.predict Concrete.net Concrete.input) Concrete.store
    (fun m w' =>
       Matrix.rows m = Matrix.rows (Matrix.mk 2 2 2) /\ Matrix.cols m = 1
       /\ length (entries (deref w' m)) = Matrix.rows (Matrix.mk 2 2 2)).
Proof.
  apply (predict_output_shape Concrete.store Concrete.net Concrete.input
           Concrete.act Concrete.dact (Matrix.mk 2 2 2)).
  - split; [split; repeat constructor; unfold valid; simpl; lia|reflexivity].
  - unfold valid; simpl; lia.
  - reflexivity.
  - reflexivity.
Defined.

Lemma network_without_layers_witness :
  (net <- Network.new [3] None ;; Network.predict net Concrete.input) Concrete.store
  = Ok Concrete.input Concrete.store.
Proof.
  apply (network_without_layers [3] None Concrete.input Concrete.store). simpl; lia.
Defined.

(** Two epochs, a batch size of [0]. *)
Lemma train_without_samples_witness :
  Network.train 1 Concrete.net [] Inputs.no_callback Concrete.store
  = Ok ((fun k => Network.mk_epoch_stat float k (fdiv (of_nat 0) (of_nat 0))
                    (fdiv (of_nat 0) (of_nat 0)))
          <$> seq 0 (default 1 (Network.epochs Inputs.no_callback)), Concrete.net)
       Concrete.store.
Proof.
  apply (train_without_samples 1 Concrete.net Inputs.no_callback Concrete.store).
  - lia.
  - reflexivity.
Defined.

Lemma train_keeps_architecture_witness :
  returns (Network.train 2 Concrete.net Concrete.samples (Concrete.options 0.5%float 3 16))
    Concrete.store
    (fun r w' =>
       Network.epoch <$> r.1
       = seq 0 (default 1 (Network.epochs (Concrete.options 0.5%float 3 16)))
       /\ net_ok w' r.2 /\ same_architecture Concrete.net r.2).
Proof.
  apply (train_keeps_architecture 2 Concrete.net Concrete.samples
           (Concrete.options 0.5%float 3 16) Concrete.store Concrete.act Concrete.dact).
  - simpl; lia.
  - simpl; lia.
  - split; [split; repeat constructor; unfold valid; simpl; lia|reflexivity].
  - reflexivity.
  - repeat constructor; unfold valid; simpl; lia.
  - intros cb Hcb. discriminate Hcb.
Defined.

Lemma tokenize_splits_at_separators_witness :
  Sentiment.tokenize (Inputs.hello ++ Inputs.comma :: Inputs.big_world)
  = Sentiment.tokenize Inputs.hello ++ Sentiment.tokenize Inputs.big_world
  /\ Sentiment.tokenize Inputs.ok = [Sentiment.toLowerCase Inputs.ok].
Proof.
  apply (tokenize_splits_at_separators Inputs.hello Inputs.comma Inputs.big_world Inputs.ok).
  - vm_compute. discriminate.
  - discriminate.
  - repeat constructor.
Defined.

Lemma vocabulary_json_round_trip_witness :
  let v' := Sentiment.Vocabulary.fromJSON (Sentiment.Vocabulary.toJSON Inputs.vocabulary) in
  Sentiment.Vocabulary.maxSize v' = Sentiment.Vocabulary.maxSize Inputs.vocabulary
  /\ Sentiment.Vocabulary.idx2word v' = Sentiment.Vocabulary.idx2word Inputs.vocabulary
  /\ forall i w, Sentiment.Vocabulary.idx2word Inputs.vocabulary !! i = Some w
                 <-> Sentiment.map_get (Sentiment.Vocabulary.word2idx v') w = Some i.
Proof.
  apply (vocabulary_json_round_trip Inputs.vocabulary).
  apply (bool_decide_unpack _). vm_compute. reflexivity.
Defined.

Lemma dominant_is_first_largest_witness :
  exists i k v,
    Inputs.scores !! i = Some (k, v)
    /\ Sentiment.dominant
         (fmap (M := list) (fun kv : Sentiment.word * R => (kv.1, Exact.Finite kv.2))
            Inputs.scores) = Some k
    /\ forall j k' v', Inputs.scores !! j = Some (k', v') ->
         (v' <= v)%R /\ (j < i -> (v' < v)%R).
Proof.
  apply (dominant_is_first_largest Inputs.scores).
  - discriminate.
  - repeat constructor; simpl; lra.
Defined.
